(** * dasbox sound mixer: a shallow embedding of [src/sound.cpp]

    The voice table, the versioned handles, the per-callback mix routine
    and the PCM asset operations of [sound.cpp] are transcribed as Rocq
    functions.  C [float] and [double] values are IEEE-754 binary32 and
    binary64 numbers, computed with the parameterised operations of
    [SpecFloat] (round to nearest, ties to even); C integers are [Z] with
    their wrap-around written out. *)

From Stdlib Require Import ZArith Bool Lia.
From Stdlib Require Import Floats.SpecFloat.
From stdpp Require Import base list gmap.

Local Open Scope Z_scope.

(** ** Machine integers *)

Definition wrap_s (w : Z) (z : Z) : Z := (z + 2 ^ (w - 1)) mod 2 ^ w - 2 ^ (w - 1).
Definition wrap_u (w : Z) (z : Z) : Z := z mod 2 ^ w.

Definition int32 (z : Z) : Z := wrap_s 32 z.
Definition int64 (z : Z) : Z := wrap_s 64 z.
Definition uint32 (z : Z) : Z := wrap_u 32 z.

Definition INT_MIN : Z := - 2 ^ 31.
Definition INT_MAX : Z := 2 ^ 31 - 1.
Definition INT64_MIN : Z := - 2 ^ 63.
Definition INT64_MAX : Z := 2 ^ 63 - 1.

(** ** Floating point *)

Module F32.
Definition prec : Z := 24.
Definition emax : Z := 128.
Definition add := SFadd prec emax.
Definition sub := SFsub prec emax.
Definition mul := SFmul prec emax.
Definition div := SFdiv prec emax.
Definition of_int (z : Z) : spec_float := binary_normalize prec emax z 0 false.
Definition valid := valid_binary prec emax.
Definition zero : spec_float := S754_zero false.
Definition one : spec_float := of_int 1.
End F32.

Module F64.
Definition prec : Z := 53.
Definition emax : Z := 1024.
Definition add := SFadd prec emax.
Definition sub := SFsub prec emax.
Definition mul := SFmul prec emax.
Definition div := SFdiv prec emax.
Definition of_int (z : Z) : spec_float := binary_normalize prec emax z 0 false.
Definition valid := valid_binary prec emax.
Definition zero : spec_float := S754_zero false.
Definition one : spec_float := of_int 1.
End F64.

Abbreviation f32 := spec_float (only parsing).
Abbreviation f64 := spec_float (only parsing).

(** Comparisons do not depend on the format.  [a < b], [a <= b], [a == b]
    and [a != b] of C; every comparison with a NaN is false except [!=]. *)
Definition flt (a b : spec_float) : bool := SFltb a b.
Definition fle (a b : spec_float) : bool := SFleb a b.
Definition feq (a b : spec_float) : bool := SFeqb a b.
Definition fne (a b : spec_float) : bool := negb (SFeqb a b).
Definition fgt (a b : spec_float) : bool := SFltb b a.
Definition fge (a b : spec_float) : bool := SFleb b a.

Definition fabsf (x : f32) : f32 := SFabs x.

(** [double(x)] of a float: exact, the mantissa is renormalised. *)
Definition f2d (x : f32) : f64 :=
  match x with
  | S754_finite s m e => binary_round F64.prec F64.emax s m e
  | _ => x
  end.

(** [float(x)] of a double: rounded to nearest. *)
Definition d2f (x : f64) : f32 :=
  match x with
  | S754_finite s m e => binary_round F32.prec F32.emax s m e
  | _ => x
  end.

(** Integer part of a finite value (rounding toward zero), and its floor. *)
Definition SFtrunc (x : spec_float) : option Z :=
  match x with
  | S754_zero _ => Some 0
  | S754_finite s m e => Some (cond_Zopp s (Z.shiftl (Zpos m) e))
  | _ => None
  end.

Definition SFfloor (x : spec_float) : option Z :=
  match x with
  | S754_zero _ => Some 0
  | S754_finite s m e => Some (Z.shiftl (cond_Zopp s (Zpos m)) e)
  | _ => None
  end.

(** [int64_t(x)] and [int(x)] of a float: the value truncated toward zero.
    Outside the target range (and for NaN) the conversion is undefined in
    C++; the x86-64 instruction returns the smallest integer, which is what
    is written here. *)
Definition f2i64 (x : spec_float) : Z :=
  match SFtrunc x with
  | Some z => if (INT64_MIN <=? z) && (z <=? INT64_MAX) then z else INT64_MIN
  | None => INT64_MIN
  end.

Definition f2i (x : spec_float) : Z :=
  match SFtrunc x with
  | Some z => if (INT_MIN <=? z) && (z <=? INT_MAX) then z else INT_MIN
  | None => INT_MIN
  end.

(** [unsigned(x)] of a double: truncated; outside the range the low 32 bits
    of the 64-bit conversion. *)
Definition d2u (x : f64) : Z := uint32 (f2i64 x).

(** [floor(x)] as a floating value of the same format. *)
Definition ffloor (prec emax : Z) (x : spec_float) : spec_float :=
  match x with
  | S754_finite s m e =>
      if 0 <=? e then x
      else match SFfloor x with
           | Some z => binary_normalize prec emax z 0 s
           | None => x
           end
  | _ => x
  end.

(** [std::min], [std::max] and [std::clamp] as <algorithm> defines them. *)
Definition fmin (a b : spec_float) : spec_float := if flt b a then b else a.
Definition fmax (a b : spec_float) : spec_float := if flt a b then b else a.

(** Modelled from the spec: [clamp] is declared outside [src/]; the spec
    has it limit a value to [[lo, hi]], written here as the C++17
    [std::clamp] does it. *)
Definition clamp (v lo hi : spec_float) : spec_float :=
  if flt v lo then lo else if flt hi v then hi else v.

(** ** Constants of [sound.cpp] *)

Definition OUTPUT_SAMPLE_RATE : Z := 48000.
Definition OUTPUT_CHANNELS : Z := 2.
Definition MAX_PLAYING_SOUNDS : Z := 128.
Definition PLAYING_SOUNDS_MASK : Z := MAX_PLAYING_SOUNDS - 1.
Definition ONE_DIV_256 : f32 := F32.div F32.one (F32.of_int 256).
Definition ONE_DIV_512 : f32 := F32.div F32.one (F32.of_int 512).

(** The literals [0.997f], [0.00001f] and [1.f / 10000]: the binary32
    values nearest to the decimal fractions. *)
Definition c_0_997 : f32 := F32.div (F32.of_int 997) (F32.of_int 1000).
Definition c_0_00001 : f32 := F32.div F32.one (F32.of_int 100000).
Definition c_1_div_10000 : f32 := F32.div F32.one (F32.of_int 10000).
Definition c_0_5 : f32 := F32.div F32.one (F32.of_int 2).

(** ** PCM assets *)

Module PcmSound.
Record t := mk {
  data : option (list f32);   (* [float * data], [None] for [nullptr] *)
  frequency : Z;
  samples : Z;
  channels : Z
}.

Definition isValid (s : t) : bool :=
  match data s with Some _ => true | None => false end.

(** [channels * (samples + 4) * sizeof(float)], returned as [int]. *)
Definition getDataMemorySize (s : t) : Z :=
  int32 (channels s * (samples s + 4) * 4).

(** The default constructor [PcmSound()]. *)
Definition empty : t := mk None 44100 0 1.
End PcmSound.

(** [p[i]] for a sample buffer.  A read past the allocation is undefined
    in C++; it yields [0.0f] here. *)
Definition rd (d : list f32) (i : Z) : f32 := default F32.zero (d !! Z.to_nat i).

(** [p[i] = x]; a write past the allocation changes nothing here. *)
Definition wr (d : list f32) (i : Z) (x : f32) : list f32 := <[Z.to_nat i := x]> d.

(** ** Voices *)

Record PlayingSound := mkPlayingSound {
  sound : option nat;          (* [const PcmSound *]: the address of the asset *)
  pos : f64;
  startPos : f64;
  stopPos : f64;
  pitch : f32;
  volume : f32;
  pan : f32;
  volumeL : f32;
  volumeR : f32;
  volumeTrendL : f32;
  volumeTrendR : f32;
  timeToStart : f64;
  channels : Z;
  version : Z;
  loop : bool;
  stopMode : bool;
  waitingStart : bool
}.

Definition set_sound (x : option nat) (v : PlayingSound) : PlayingSound :=
  mkPlayingSound x (pos v) (startPos v) (stopPos v) (pitch v) (volume v) (pan v)
    (volumeL v) (volumeR v) (volumeTrendL v) (volumeTrendR v) (timeToStart v)
    (channels v) (version v) (loop v) (stopMode v) (waitingStart v).
Definition set_pos (x : f64) (v : PlayingSound) : PlayingSound :=
  mkPlayingSound (sound v) x (startPos v) (stopPos v) (pitch v) (volume v) (pan v)
    (volumeL v) (volumeR v) (volumeTrendL v) (volumeTrendR v) (timeToStart v)
    (channels v) (version v) (loop v) (stopMode v) (waitingStart v).
Definition set_pitch (x : f32) (v : PlayingSound) : PlayingSound :=
  mkPlayingSound (sound v) (pos v) (startPos v) (stopPos v) x (volume v) (pan v)
    (volumeL v) (volumeR v) (volumeTrendL v) (volumeTrendR v) (timeToStart v)
    (channels v) (version v) (loop v) (stopMode v) (waitingStart v).
Definition set_volume (x : f32) (v : PlayingSound) : PlayingSound :=
  mkPlayingSound (sound v) (pos v) (startPos v) (stopPos v) (pitch v) x (pan v)
    (volumeL v) (volumeR v) (volumeTrendL v) (volumeTrendR v) (timeToStart v)
    (channels v) (version v) (loop v) (stopMode v) (waitingStart v).
Definition set_pan (x : f32) (v : PlayingSound) : PlayingSound :=
  mkPlayingSound (sound v) (pos v) (startPos v) (stopPos v) (pitch v) (volume v) x
    (volumeL v) (volumeR v) (volumeTrendL v) (volumeTrendR v) (timeToStart v)
    (channels v) (version v) (loop v) (stopMode v) (waitingStart v).
Definition set_volumeL (x : f32) (v : PlayingSound) : PlayingSound :=
  mkPlayingSound (sound v) (pos v) (startPos v) (stopPos v) (pitch v) (volume v) (pan v)
    x (volumeR v) (volumeTrendL v) (volumeTrendR v) (timeToStart v)
    (channels v) (version v) (loop v) (stopMode v) (waitingStart v).
Definition set_volumeR (x : f32) (v : PlayingSound) : PlayingSound :=
  mkPlayingSound (sound v) (pos v) (startPos v) (stopPos v) (pitch v) (volume v) (pan v)
    (volumeL v) x (volumeTrendL v) (volumeTrendR v) (timeToStart v)
    (channels v) (version v) (loop v) (stopMode v) (waitingStart v).
Definition set_volumeTrendL (x : f32) (v : PlayingSound) : PlayingSound :=
  mkPlayingSound (sound v) (pos v) (startPos v) (stopPos v) (pitch v) (volume v) (pan v)
    (volumeL v) (volumeR v) x (volumeTrendR v) (timeToStart v)
    (channels v) (version v) (loop v) (stopMode v) (waitingStart v).
Definition set_volumeTrendR (x : f32) (v : PlayingSound) : PlayingSound :=
  mkPlayingSound (sound v) (pos v) (startPos v) (stopPos v) (pitch v) (volume v) (pan v)
    (volumeL v) (volumeR v) (volumeTrendL v) x (timeToStart v)
    (channels v) (version v) (loop v) (stopMode v) (waitingStart v).
Definition set_timeToStart (x : f64) (v : PlayingSound) : PlayingSound :=
  mkPlayingSound (sound v) (pos v) (startPos v) (stopPos v) (pitch v) (volume v) (pan v)
    (volumeL v) (volumeR v) (volumeTrendL v) (volumeTrendR v) x
    (channels v) (version v) (loop v) (stopMode v) (waitingStart v).
Definition set_version (x : Z) (v : PlayingSound) : PlayingSound :=
  mkPlayingSound (sound v) (pos v) (startPos v) (stopPos v) (pitch v) (volume v) (pan v)
    (volumeL v) (volumeR v) (volumeTrendL v) (volumeTrendR v) (timeToStart v)
    (channels v) x (loop v) (stopMode v) (waitingStart v).
Definition set_stopMode (x : bool) (v : PlayingSound) : PlayingSound :=
  mkPlayingSound (sound v) (pos v) (startPos v) (stopPos v) (pitch v) (volume v) (pan v)
    (volumeL v) (volumeR v) (volumeTrendL v) (volumeTrendR v) (timeToStart v)
    (channels v) (version v) (loop v) x (waitingStart v).
Definition set_waitingStart (x : bool) (v : PlayingSound) : PlayingSound :=
  mkPlayingSound (sound v) (pos v) (startPos v) (stopPos v) (pitch v) (volume v) (pan v)
    (volumeL v) (volumeR v) (volumeTrendL v) (volumeTrendR v) (timeToStart v)
    (channels v) (version v) (loop v) (stopMode v) x.

(** The constructor [PlayingSound()]: every byte zero. *)
Definition zero_voice : PlayingSound :=
  mkPlayingSound None F64.zero F64.zero F64.zero F32.zero F32.zero F32.zero
    F32.zero F32.zero F32.zero F32.zero F64.zero 0 0 false false false.

Definition isEmpty (v : PlayingSound) : bool :=
  match sound v with
  | None => negb (stopMode v) && negb (waitingStart v)
  | Some _ => false
  end.

(** One stereo frame of the interleaved output buffer. *)
Definition frame : Type := f32 * f32.
Definition silence : frame := (F32.zero, F32.zero).

(** ** Process-wide state *)

Record State := mkState {
  playing_sounds : list PlayingSound;     (* [array<PlayingSound, 128>] *)
  master_volume : f32;
  total_samples_played : Z;               (* [int64_t] *)
  total_time_played : f64;
  assets : gmap nat PcmSound.t            (* the [PcmSound] objects, by address *)
}.

Definition set_playing_sounds (vs : list PlayingSound) (st : State) : State :=
  mkState vs (master_volume st) (total_samples_played st) (total_time_played st) (assets st).
Definition set_assets (m : gmap nat PcmSound.t) (st : State) : State :=
  mkState (playing_sounds st) (master_volume st) (total_samples_played st)
    (total_time_played st) m.

(** [initialize()], which is also the state of the zero-initialised statics. *)
Definition initialize : State :=
  mkState (replicate (Z.to_nat MAX_PLAYING_SOUNDS) zero_voice) F32.one 0 F64.zero ∅.

(** [sound->getData()] through a voice's asset pointer. *)
Definition getData (σ : gmap nat PcmSound.t) (a : nat) : option (list f32) :=
  σ !! a ≫= PcmSound.data.

Definition target (σ : gmap nat PcmSound.t) (a : nat) : PcmSound.t :=
  default PcmSound.empty (σ !! a).

(** ** The mixer

    [sign] and [lerp] come from a header that is not part of [src/]; the
    mixer is written over any two such functions. *)

Section Mixer.

Variable sign : f32 -> f32.
Variable lerp : f32 -> f32 -> f32 -> f32.

(** [PlayingSound::setStopMode]. *)
Definition setStopMode (σ : gmap nat PcmSound.t) (v : PlayingSound) : PlayingSound :=
  match sound v with
  | None => set_waitingStart false v
  | Some a =>
      if stopMode v then set_waitingStart false v
      else
        let v := set_version (int32 (version v + MAX_PLAYING_SOUNDS)) v in
        if waitingStart v then set_sound None (set_waitingStart false v)
        else
          let d := default [] (getData σ a) in
          let ip := d2u (pos v) in
          let v :=
            if channels v =? 1 then
              let val := rd d ip in
              set_volumeR (F32.mul (volumeR v) val) (set_volumeL (F32.mul (volumeL v) val) v)
            else
              set_volumeR (F32.mul (volumeR v) (rd d (uint32 (uint32 (ip * 2) + 1))))
                (set_volumeL (F32.mul (volumeL v) (rd d (uint32 (ip * 2)))) v) in
          let v := set_volumeTrendL (F32.mul (sign (volumeL v)) (SFopp c_1_div_10000)) v in
          let v := set_volumeTrendR (F32.mul (sign (volumeR v)) (SFopp c_1_div_10000)) v in
          set_sound None (set_stopMode true v)
  end.

(** The targets [wishVolumeL] and [wishVolumeR] of [mixTo]. *)
Definition wishVolumeL (master : f32) (v : PlayingSound) : f32 :=
  F32.mul (F32.mul master (volume v)) (fmin (F32.add F32.one (pan v)) F32.one).
Definition wishVolumeR (master : f32) (v : PlayingSound) : f32 :=
  F32.mul (F32.mul master (volume v)) (fmin (F32.sub F32.one (pan v)) F32.one).

(** The interpolated input sample at [pos], per channel. *)
Definition sample_mono (d : list f32) (p : f64) : f32 :=
  let ip := d2u p in
  let t := d2f (F64.sub p (F64.of_int ip)) in
  lerp (rd d ip) (rd d (uint32 (ip + 1))) t.

Definition sample_stereo (d : list f32) (p : f64) : f32 * f32 :=
  let ip := d2u p in
  let t := d2f (F64.sub p (F64.of_int ip)) in
  (lerp (rd d (uint32 (ip * 2))) (rd d (uint32 (uint32 (ip * 2) + 2))) t,
   lerp (rd d (uint32 (uint32 (ip * 2) + 1))) (rd d (uint32 (uint32 (uint32 (ip * 2) + 2) + 1))) t).

(** The two loops of the fast path. *)
Fixpoint fast_mono (d : list f32) (vL vR : f32) (advance : f64) (p : f64)
    (mix : list frame) : f64 * list frame :=
  match mix with
  | [] => (p, [])
  | (l, r) :: rest =>
      let s := sample_mono d p in
      let '(p', rest') := fast_mono d vL vR advance (F64.add p advance) rest in
      (p', (F32.add l (F32.mul s vL), F32.add r (F32.mul s vR)) :: rest')
  end.

Fixpoint fast_stereo (d : list f32) (vL vR : f32) (advance : f64) (p : f64)
    (mix : list frame) : f64 * list frame :=
  match mix with
  | [] => (p, [])
  | (l, r) :: rest =>
      let '(sl, sr) := sample_stereo d p in
      let '(p', rest') := fast_stereo d vL vR advance (F64.add p advance) rest in
      (p', (F32.add l (F32.mul sl vL), F32.add r (F32.mul sr vR)) :: rest')
  end.

(** Gain smoothing of one channel for one output sample. *)
Definition nudge (cur wish : f32) : f32 :=
  if fne cur wish then
    if fle (fabsf (F32.sub cur wish)) ONE_DIV_512 then wish
    else if flt cur wish then F32.add cur ONE_DIV_512
    else F32.sub cur ONE_DIV_512
  else cur.

(** The stop-fade of one channel for one output sample. *)
Definition fade (cur trend : f32) : f32 :=
  if fle (fabsf cur) ONE_DIV_512 then F32.zero
  else F32.mul (F32.add cur trend) c_0_997.

(** The [waitingStart] branch of the per-sample loops. *)
Definition wait_step (inv_frequency : f64) (v : PlayingSound) : PlayingSound :=
  let v := set_timeToStart (F64.sub (timeToStart v) inv_frequency) v in
  if fle (timeToStart v) F64.zero
  then set_pos (startPos v) (set_waitingStart false v)
  else v.

(** Gain smoothing, advance and loop/termination test after a mixed sample. *)
Definition play_step (σ : gmap nat PcmSound.t) (wishL wishR : f32) (advance : f64)
    (v : PlayingSound) : PlayingSound :=
  let v := set_volumeL (nudge (volumeL v) wishL) v in
  let v := set_volumeR (nudge (volumeR v) wishR) v in
  let v := set_pos (F64.add (pos v) advance) v in
  if fge (pos v) (stopPos v) then
    if loop v then set_pos (startPos v) v
    else setStopMode σ (set_pos (stopPos v) v)
  else v.

(** The gains of a voice in stop-fade after one more sample. *)
Definition fade_step (v : PlayingSound) : PlayingSound :=
  let v := set_volumeL (fade (volumeL v) (volumeTrendL v)) v in
  set_volumeR (fade (volumeR v) (volumeTrendR v)) v.

Definition faded_out (v : PlayingSound) : bool :=
  feq (volumeR v) F32.zero && feq (volumeL v) F32.zero.

(** The per-sample loop for [channels == 1]. *)
Fixpoint general_mono (σ : gmap nat PcmSound.t) (d : list f32) (wishL wishR : f32)
    (advance inv_frequency : f64) (v : PlayingSound) (mix : list frame)
    : PlayingSound * list frame :=
  match mix with
  | [] => (v, [])
  | (l, r) :: rest =>
      let '(v, fr) :=
        if waitingStart v then (wait_step inv_frequency v, (l, r))
        else if negb (stopMode v) then
          let s := sample_mono d (pos v) in
          (play_step σ wishL wishR advance v,
           (F32.add l (F32.mul s (volumeL v)), F32.add r (F32.mul s (volumeR v))))
        else
          let v := fade_step v in
          let v := if faded_out v then set_stopMode false v else v in
          (v, (F32.add l (volumeL v), F32.add r (volumeR v))) in
      let '(v', rest') := general_mono σ d wishL wishR advance inv_frequency v rest in
      (v', fr :: rest')
  end.

(** The per-sample loop for two channels; it leaves the loop ([break]) on
    the sample at which the fade reaches silence. *)
Fixpoint general_stereo (σ : gmap nat PcmSound.t) (d : list f32) (wishL wishR : f32)
    (advance inv_frequency : f64) (v : PlayingSound) (mix : list frame)
    : PlayingSound * list frame :=
  match mix with
  | [] => (v, [])
  | (l, r) :: rest =>
      if waitingStart v then
        let '(v', rest') :=
          general_stereo σ d wishL wishR advance inv_frequency (wait_step inv_frequency v) rest in
        (v', (l, r) :: rest')
      else if negb (stopMode v) then
        let '(sl, sr) := sample_stereo d (pos v) in
        let fr := (F32.add l (F32.mul sl (volumeL v)), F32.add r (F32.mul sr (volumeR v))) in
        let '(v', rest') :=
          general_stereo σ d wishL wishR advance inv_frequency
            (play_step σ wishL wishR advance v) rest in
        (v', fr :: rest')
      else
        let v := fade_step v in
        if faded_out v then (set_stopMode false v, (l, r) :: rest)
        else
          let '(v', rest') := general_stereo σ d wishL wishR advance inv_frequency v rest in
          (v', (F32.add l (volumeL v), F32.add r (volumeR v)) :: rest')
  end.

(** The condition of the fast path. *)
Definition fast_path (wishL wishR : f32) (advance : f64) (count : Z) (v : PlayingSound) : bool :=
  negb (stopMode v) && negb (waitingStart v) &&
  fgt (volumeL v) F32.zero && fgt (volumeR v) F32.zero &&
  feq wishL (volumeL v) && feq wishR (volumeR v) &&
  flt (F64.add (pos v) (F64.mul advance (F64.of_int count))) (stopPos v).

(** [PlayingSound::mixTo]; [count] is the length of [mix]. *)
Definition mixTo (σ : gmap nat PcmSound.t) (master : f32) (v : PlayingSound)
    (mix : list frame) (frequency : Z) (inv_frequency buffer_time : f64)
    : PlayingSound * list frame :=
  let wishL := wishVolumeL master v in
  let wishR := wishVolumeR master v in
  match sound v with
  | None => (v, mix)
  | Some a =>
      match getData σ a with
      | None => (v, mix)
      | Some d =>
          let advance :=
            F64.mul (F64.mul (F64.of_int (PcmSound.frequency (target σ a))) inv_frequency)
              (f2d (pitch v)) in
          if fast_path wishL wishR advance (Z.of_nat (length mix)) v then
            let '(p, mix') :=
              if channels v =? 1
              then fast_mono d (volumeL v) (volumeR v) advance (pos v) mix
              else fast_stereo d (volumeL v) (volumeR v) advance (pos v) mix in
            (set_pos p v, mix')
          else if waitingStart v && fgt (timeToStart v) buffer_time then
            (set_timeToStart (F64.sub (timeToStart v) buffer_time) v, mix)
          else if channels v =? 1
          then general_mono σ d wishL wishR advance inv_frequency v mix
          else general_stereo σ d wishL wishR advance inv_frequency v mix
      end
  end.

(** ** Voice table and handles *)

(** The scan of [allocate_playing_sound]: the first empty slot among
    [i, i+1, ...], looking at [n] slots. *)
Fixpoint scan_empty (vs : list PlayingSound) (i n : nat) : option nat :=
  match n with
  | O => None
  | S n' =>
      match vs !! i with
      | Some v => if isEmpty v then Some i else scan_empty vs (S i) n'
      | None => None
      end
  end.

(** [allocate_playing_sound]: [None] stands for the result [-1]. *)
Definition allocate_playing_sound (vs : list PlayingSound) : option nat * list PlayingSound :=
  match scan_empty vs 1 (Z.to_nat MAX_PLAYING_SOUNDS - 1) with
  | Some i =>
      (Some i, alter (λ v, set_version (int32 (version v + MAX_PLAYING_SOUNDS)) v) i vs)
  | None => (None, vs)
  end.

(** A handle is the [uint32_t] inside [PlayingSoundHandle]. *)
Definition PlayingSoundHandle : Type := Z.

(** Modelled from the spec: the default constructor of [PlayingSoundHandle]
    is in [sound.h], which is not part of [src/]; the spec has the zero
    handle as the one that is always invalid. *)
Definition no_handle : PlayingSoundHandle := 0.

Definition is_handle_valid (vs : list PlayingSound) (ps : PlayingSoundHandle) : bool :=
  let idx := Z.land ps PLAYING_SOUNDS_MASK in
  match vs !! Z.to_nat idx with
  | Some v =>
      (uint32 (version v) =? Z.land ps (uint32 (Z.lnot PLAYING_SOUNDS_MASK))) && (0 <? idx)
  | None => false
  end.

(** [handle_to_index]: [None] stands for the result [-1]. *)
Definition handle_to_index (vs : list PlayingSound) (ps : PlayingSoundHandle) : option nat :=
  if is_handle_valid vs ps then Some (Z.to_nat (Z.land ps PLAYING_SOUNDS_MASK)) else None.

(** ** The device callback *)

(** The loop over [playing_sounds] for one chunk. *)
Fixpoint mix_voices (σ : gmap nat PcmSound.t) (master : f32) (vs : list PlayingSound)
    (mix : list frame) (frequency : Z) (inv_frequency buffer_time : f64)
    : list PlayingSound * list frame :=
  match vs with
  | [] => ([], mix)
  | v :: rest =>
      let '(v', mix') :=
        if isEmpty v then (v, mix)
        else mixTo σ master v mix frequency inv_frequency buffer_time in
      let '(rest', mix'') := mix_voices σ master rest mix' frequency inv_frequency buffer_time in
      (v' :: rest', mix'')
  end.

(** The [while (samples > 0)] loop of [fill_buffer_cb].  [off] is the
    distance of [out_buf] from the start of the buffer, in frames. *)
Fixpoint fill_loop (fuel : nat) (st : State) (out : list frame) (off : nat)
    (frequency : Z) (invFrequency : f64) (samples : Z) : State * list frame :=
  match fuel with
  | O => (st, out)
  | S fuel' =>
      if 0 <? samples then
        let step := 256 in
        let count := Z.to_nat (Z.min samples step) in
        let '(vs, chunk) :=
          mix_voices (assets st) (master_volume st) (playing_sounds st)
            (take count (drop off out)) frequency invFrequency
            (F64.mul (F64.of_int (Z.min samples step)) invFrequency) in
        let out := take off out ++ chunk ++ drop (off + count) out in
        let samples := int32 (samples - step) in
        let st :=
          mkState vs (master_volume st)
            (int64 (total_samples_played st + Z.min samples step))
            (F64.add (total_time_played st)
               (F64.mul (F64.of_int (Z.min samples step)) invFrequency))
            (assets st) in
        fill_loop fuel' st out (off + Z.to_nat step) frequency invFrequency samples
      else (st, out)
  end.

(** [fill_buffer_cb] for the two-channel buffer the device is opened with;
    the result is the new state and the filled buffer.  Every turn of the
    loop lowers [samples] by 256, so [samples] turns are enough. *)
Definition fill_buffer_cb (st : State) (frequency : Z) (samples : Z) : State * list frame :=
  let out := replicate (Z.to_nat samples) silence in
  let invFrequency := F64.div F64.one (F64.of_int frequency) in
  fill_loop (Z.to_nat samples) st out 0 frequency invFrequency samples.

(** ** Control surface *)

(** [play_sound_internal] for the asset at address [a]. *)
Definition play_sound_internal (st : State) (a : nat) (volume pitch pan start_time end_time : f32)
    (loop : bool) (defer_time_sec : f32) : State * PlayingSoundHandle :=
  let snd := target (assets st) a in
  let '(idx, vs) := allocate_playing_sound (playing_sounds st) in
  match idx with
  | None => (set_playing_sounds vs st, no_handle)
  | Some idx =>
      if PcmSound.samples snd <=? 2 then (set_playing_sounds vs st, no_handle)
      else
        let s := default zero_voice (vs !! idx) in
        let pitch := clamp pitch c_0_00001 (F32.of_int 1000) in
        let pan := clamp pan (SFopp F32.one) F32.one in
        let volume := clamp volume F32.zero (F32.of_int 100000) in
        let freq := F32.of_int (PcmSound.frequency snd) in
        let last := F64.of_int (int32 (PcmSound.samples snd - 1)) in
        let start := clamp (F64.of_int (f2i64 (F32.mul start_time freq))) F64.zero last in
        let stop := clamp (F64.of_int (f2i64 (F32.mul end_time freq))) start last in
        let pos :=
          if flt defer_time_sec F32.zero
          then fmin (F64.of_int (f2i (F32.mul (SFopp defer_time_sec) freq))) stop
          else start in
        let timeToStart := f2d (fmax defer_time_sec F32.zero) in
        let s :=
          mkPlayingSound (Some a) pos start stop pitch volume pan
            (F32.mul (F32.mul (master_volume st) volume) (fmin (F32.add F32.one pan) F32.one))
            (F32.mul (F32.mul (master_volume st) volume) (fmin (F32.sub F32.one pan) F32.one))
            (volumeTrendL s) (volumeTrendR s) timeToStart
            (PcmSound.channels snd) (version s) loop false (fne timeToStart F64.zero) in
        (set_playing_sounds (<[idx := s]> vs) st, uint32 (Z.lor (Z.of_nat idx) (version s)))
  end.

Definition update_voice (st : State) (ps : PlayingSoundHandle)
    (f : PlayingSound -> PlayingSound) : State :=
  match handle_to_index (playing_sounds st) ps with
  | None => st
  | Some idx => set_playing_sounds (alter f idx (playing_sounds st)) st
  end.

Definition set_sound_pitch (st : State) (ps : PlayingSoundHandle) (pitch : f32) : State :=
  update_voice st ps (set_pitch pitch).

Definition set_sound_volume (st : State) (ps : PlayingSoundHandle) (volume : f32) : State :=
  update_voice st ps (set_volume volume).

Definition set_sound_pan (st : State) (ps : PlayingSoundHandle) (pan : f32) : State :=
  update_voice st ps (set_pan pan).

Definition is_playing (st : State) (ps : PlayingSoundHandle) : bool :=
  match handle_to_index (playing_sounds st) ps with
  | None => false
  | Some idx => negb (stopMode (default zero_voice (playing_sounds st !! idx)))
  end.

Definition get_sound_play_pos (st : State) (ps : PlayingSoundHandle) : f32 :=
  match handle_to_index (playing_sounds st) ps with
  | None => F32.zero
  | Some idx =>
      let v := default zero_voice (playing_sounds st !! idx) in
      match sound v with
      | None => F32.zero
      | Some a =>
          if stopMode v || waitingStart v then F32.zero
          else d2f (F64.div (pos v) (F64.of_int (PcmSound.frequency (target (assets st) a))))
      end
  end.

Definition set_sound_play_pos (st : State) (ps : PlayingSoundHandle) (pos_seconds : f32) : State :=
  update_voice st ps (λ v,
    match sound v with
    | None => v
    | Some a =>
        if stopMode v then v
        else
          let p :=
            f2d (ffloor F32.prec F32.emax
                   (F32.mul (F32.of_int (PcmSound.frequency (target (assets st) a))) pos_seconds)) in
          set_pos (clamp p (startPos v) (stopPos v)) v
    end).

Definition stop_sound (st : State) (ps : PlayingSoundHandle) : State :=
  update_voice st ps (λ v,
    match sound v with
    | None => v
    | Some _ => if stopMode v then v else setStopMode (assets st) v
    end).

Definition stop_all_sounds (st : State) : State :=
  set_playing_sounds
    ((λ v, if isEmpty v then v else setStopMode (assets st) v) <$> playing_sounds st) st.

Definition set_master_volume (st : State) (volume : f32) : State :=
  mkState (playing_sounds st) volume (total_samples_played st) (total_time_played st) (assets st).

(** [delete_sound] of the asset at address [a]. *)
Definition delete_sound (st : State) (a : nat) : State :=
  let vs :=
    (λ v, if bool_decide (sound v = Some a) && negb (isEmpty v)
          then setStopMode (assets st) v else v) <$> playing_sounds st in
  let σ := alter (λ s, PcmSound.mk None (PcmSound.frequency s) 0 (PcmSound.channels s)) a
             (assets st) in
  set_assets σ (set_playing_sounds vs st).

End Mixer.

(** ** Creating and filling assets *)

(** [memcpy(dst, src, n * sizeof(float))]: the first [n] floats of [dst]
    are overwritten with what is read at [src]; [src i] is the float at
    offset [i] from the source pointer. *)
Definition memcpy (dst : list f32) (src : nat -> f32) (n : nat) : list f32 :=
  imap (λ i x, if decide (i < n)%nat then src i else x) dst.

(** Reading at offset [i] from the start of an array [l]; [past] is what
    lies in memory behind the array. *)
Definition read_past (l : list f32) (past : nat -> f32) (i : nat) : f32 :=
  default (past (i - length l)%nat) (l !! i).

(** The floats of a [TArray<float2>], interleaved. *)
Definition interleave (l : list (f32 * f32)) : list f32 :=
  l ≫= (λ p, [p.1; p.2]).

(** [newData(size)]: [new float[size]], a block of indeterminate content
    [junk]. *)
Definition newData (junk : nat -> f32) (size : Z) : list f32 :=
  junk <$> seq 0 (Z.to_nat size).

(** [data.size] of a [TArray], a 32-bit count. *)
Definition size {A} (l : list A) : Z := uint32 (Z.of_nat (length l)).

(** [create_sound(frequency, data)].  [junk] is the content of the fresh
    block and [past] what follows the caller's array in memory: the
    [memcpy] reads [getDataMemorySize()] bytes from it. *)
Definition create_sound (junk past : nat -> f32) (frequency : Z) (data : list f32) : PcmSound.t :=
  if (frequency <? 1) || (size data =? 0) then PcmSound.empty
  else
    let s := PcmSound.mk None frequency (int32 (size data)) 1 in
    let d := newData junk (PcmSound.getDataMemorySize s) in
    let d := memcpy d (read_past data past) (Z.to_nat (PcmSound.getDataMemorySize s / 4)) in
    let d := wr d (size data) (rd d 0) in
    PcmSound.mk (Some d) frequency (int32 (size data)) 1.

(** [create_sound_stereo(frequency, data)]. *)
Definition create_sound_stereo (junk past : nat -> f32) (frequency : Z)
    (data : list (f32 * f32)) : PcmSound.t :=
  if (frequency <? 1) || (size data =? 0) then PcmSound.empty
  else
    let s := PcmSound.mk None frequency (int32 (size data)) 2 in
    let d := newData junk (PcmSound.getDataMemorySize s) in
    let d := memcpy d (read_past (interleave data) past)
               (Z.to_nat (PcmSound.getDataMemorySize s / 4)) in
    let d := wr d (int32 (PcmSound.samples s * 2)) (rd d 0) in
    let d := wr d (int32 (PcmSound.samples s * 2 + 1)) (rd d 1) in
    PcmSound.mk (Some d) frequency (int32 (size data)) 2.

(** What a decoder hands back: the samples, [channels], [sampleRate] and
    [totalPCMFrameCount]. *)
Record Decoded := mkDecoded {
  pSampleData : list f32;
  dec_channels : Z;
  sampleRate : Z;
  totalPCMFrameCount : Z
}.

(** [create_sound_from_file] once the file name has been accepted and the
    decoder chosen by its extension has run: [decoded] is [None] when the
    name is rejected or the decoder returns no samples. *)
Definition create_sound_from_file (junk : nat -> f32) (decoded : option Decoded) : PcmSound.t :=
  match decoded with
  | None => PcmSound.empty
  | Some f =>
      if negb (dec_channels f =? 1) && negb (dec_channels f =? 2) then PcmSound.empty
      else
        let s := PcmSound.mk None (int32 (sampleRate f)) (int32 (totalPCMFrameCount f))
                   (int32 (dec_channels f)) in
        let d := newData junk (PcmSound.getDataMemorySize s) in
        let d := memcpy d (rd (pSampleData f) ∘ Z.of_nat)
                   (Z.to_nat (dec_channels f * PcmSound.samples s)) in
        let d :=
          if PcmSound.channels s =? 2 then
            let d := wr d (int32 (PcmSound.samples s * 2)) (rd d 0) in
            wr d (int32 (PcmSound.samples s * 2 + 1)) (rd d 1)
          else wr d (PcmSound.samples s) (rd d 0) in
        PcmSound.mk (Some d) (PcmSound.frequency s) (PcmSound.samples s) (PcmSound.channels s)
  end.

(** [count]: the number of frames the bulk setters copy. *)
Definition copy_count {A} (s : PcmSound.t) (in_data : list A) : Z :=
  if int32 (size in_data) <? PcmSound.samples s then int32 (size in_data)
  else PcmSound.samples s.

(** [for (i = 0; i < count; i++) { d[i*2] = ptr[i]; d[i*2+1] = ptr[i]; }],
    [n] turns starting at [i]. *)
Fixpoint spread_loop (d : list f32) (ptr : list f32) (i : Z) (n : nat) : list f32 :=
  match n with
  | O => d
  | S n' =>
      let d := wr d (i * 2) (rd ptr i) in
      let d := wr d (i * 2 + 1) (rd ptr i) in
      spread_loop d ptr (i + 1) n'
  end.

(** [for (i = 0; i < count; i++) d[i] = (ptr[i*2] + ptr[i*2+1]) * 0.5f;] *)
Fixpoint average_loop (d : list f32) (ptr : list f32) (i : Z) (n : nat) : list f32 :=
  match n with
  | O => d
  | S n' =>
      let d := wr d i (F32.mul (F32.add (rd ptr (i * 2)) (rd ptr (i * 2 + 1))) c_0_5) in
      average_loop d ptr (i + 1) n'
  end.

(** [set_sound_data(sound, in_data)]. *)
Definition set_sound_data (s : PcmSound.t) (in_data : list f32) : PcmSound.t :=
  match PcmSound.data s with
  | None => s
  | Some d =>
      let count := copy_count s in_data in
      if count =? 0 then s
      else if PcmSound.channels s =? 1 then
        let d := memcpy d (rd in_data ∘ Z.of_nat) (Z.to_nat count) in
        let d := wr d (PcmSound.samples s) (rd d 0) in
        PcmSound.mk (Some d) (PcmSound.frequency s) (PcmSound.samples s) (PcmSound.channels s)
      else if PcmSound.channels s =? 2 then
        let d := spread_loop d in_data 0 (Z.to_nat count) in
        let d := wr d (int32 (PcmSound.samples s * 2)) (rd d 0) in
        let d := wr d (int32 (PcmSound.samples s * 2 + 1)) (rd d 1) in
        PcmSound.mk (Some d) (PcmSound.frequency s) (PcmSound.samples s) (PcmSound.channels s)
      else s
  end.

(** [set_sound_data_stereo(sound, in_data)]. *)
Definition set_sound_data_stereo (s : PcmSound.t) (in_data : list (f32 * f32)) : PcmSound.t :=
  match PcmSound.data s with
  | None => s
  | Some d =>
      let count := copy_count s in_data in
      if count =? 0 then s
      else if PcmSound.channels s =? 1 then
        let d := average_loop d (interleave in_data) 0 (Z.to_nat count) in
        let d := wr d (PcmSound.samples s) (rd d 0) in
        PcmSound.mk (Some d) (PcmSound.frequency s) (PcmSound.samples s) (PcmSound.channels s)
      else if PcmSound.channels s =? 2 then
        let d := memcpy d (rd (interleave in_data) ∘ Z.of_nat) (Z.to_nat (2 * count)) in
        let d := wr d (int32 (PcmSound.samples s * 2)) (rd d 0) in
        let d := wr d (int32 (PcmSound.samples s * 2 + 1)) (rd d 1) in
        PcmSound.mk (Some d) (PcmSound.frequency s) (PcmSound.samples s) (PcmSound.channels s)
      else s
  end.

(** ** Reference instances of the two helper functions *)

(** Modelled from the spec: [sign] is declared outside [src/]; the spec
    uses it as the sign of a gain ([trend = -sign(gain) / 10000]): 1, -1
    or 0. *)
Definition sign_ref (x : f32) : f32 :=
  if flt F32.zero x then F32.one
  else if flt x F32.zero then SFopp F32.one
  else F32.zero.

(** Modelled from the spec: [lerp] is declared outside [src/]; the spec
    has the interpolation linear between the two samples with the
    fractional position as weight. *)
Definition lerp_ref (a b t : f32) : f32 :=
  F32.add a (F32.mul (F32.sub b a) t).

(** [play_sound_1]: every argument but the asset at its default.
    [VERY_BIG_NUMBER] is a macro of a header outside [src/]. *)
Definition play_sound_1 (VERY_BIG_NUMBER : f32) (st : State) (a : nat) : State * PlayingSoundHandle :=
  play_sound_internal st a F32.one F32.one F32.zero F32.zero VERY_BIG_NUMBER false F32.zero.

(** ** Scenarios used as concrete inputs *)

Definition zero_memory : nat -> f32 := λ _, F32.zero.

(** A mono asset of 1000 samples, all 0.5, at 48 kHz, stored at address 7. *)
Definition asset_S1 : PcmSound.t :=
  create_sound zero_memory zero_memory 48000 (replicate 1000 c_0_5).

Definition state_S1 : State := set_assets (<[7%nat := asset_S1]> ∅) initialize.

(** The state after playing it with the defaults, and the handle. *)
Definition playing_S1 : State := (play_sound_1 (F32.of_int 1000000) state_S1 7).1.
Definition handle_S1 : PlayingSoundHandle := (play_sound_1 (F32.of_int 1000000) state_S1 7).2.

(** The same state after [stop_sound] on that handle, and its voice. *)
Definition stopped_S1 : State := stop_sound sign_ref playing_S1 handle_S1.
Definition stopped_voice_S1 : PlayingSound :=
  default zero_voice (playing_sounds stopped_S1 !! 1%nat).

(** Scenario S4: the pool filled.  Slot 1 plays the asset as in S1; the
    other 126 slots are taken by plays deferred by 100 seconds. *)
Definition full_pool_S4 : State :=
  Nat.iter 126
    (λ st, (play_sound_internal st 7 F32.one F32.one F32.zero F32.zero
              (F32.of_int 1000000) false (F32.of_int 100)).1)
    playing_S1.

(** ... then the voice of slot 1 stopped, and one callback of 2560 frames. *)
Definition stopped_S4 : State := stop_sound sign_ref full_pool_S4 handle_S1.
Definition later_S4 : State := (fill_buffer_cb sign_ref lerp_ref stopped_S4 48000 2560).1.

(** ** The rest of the asset interface *)

(** [PcmSound::getDuration]: [samples / float(frequency)]. *)
Definition getDuration (s : PcmSound.t) : f32 :=
  F32.div (F32.of_int (PcmSound.samples s)) (F32.of_int (PcmSound.frequency s)).

(** The copy constructor [PcmSound(const PcmSound & b)] and the copy
    assignment: a fresh block of [getDataMemorySize()] floats, of which
    the first [getDataMemorySize()] bytes are copied from [b]. *)
Definition copy_sound (junk : nat -> f32) (b : PcmSound.t) : PcmSound.t :=
  let s := PcmSound.mk None (PcmSound.frequency b) (PcmSound.samples b) (PcmSound.channels b) in
  let d := newData junk (PcmSound.getDataMemorySize s) in
  let d := memcpy d (rd (default [] (PcmSound.data b)) ∘ Z.of_nat)
             (Z.to_nat (PcmSound.getDataMemorySize s / 4)) in
  PcmSound.mk (Some d) (PcmSound.frequency b) (PcmSound.samples b) (PcmSound.channels b).

(** A [TArray<float2>] seen through a [float *]: [interleave] gives the
    floats, [pairs] puts them back into frames. *)
Fixpoint pairs (l : list f32) : list (f32 * f32) :=
  match l with
  | a :: b :: rest => (a, b) :: pairs rest
  | _ => []
  end.

(** [get_sound_data(sound, out_data)]: the array after the call. *)
Definition get_sound_data (s : PcmSound.t) (out_data : list f32) : list f32 :=
  match PcmSound.data s with
  | None => out_data
  | Some d =>
      let count := copy_count s out_data in
      if count =? 0 then out_data
      else if PcmSound.channels s =? 1 then
        memcpy out_data (rd d ∘ Z.of_nat) (Z.to_nat count)
      else if PcmSound.channels s =? 2 then
        average_loop out_data d 0 (Z.to_nat count)
      else out_data
  end.

(** [get_sound_data_stereo(sound, out_data)]. *)
Definition get_sound_data_stereo (s : PcmSound.t) (out_data : list (f32 * f32))
    : list (f32 * f32) :=
  match PcmSound.data s with
  | None => out_data
  | Some d =>
      let count := copy_count s out_data in
      if count =? 0 then out_data
      else if PcmSound.channels s =? 2 then
        pairs (memcpy (interleave out_data) (rd d ∘ Z.of_nat) (Z.to_nat (2 * count)))
      else if PcmSound.channels s =? 1 then
        pairs (spread_loop (interleave out_data) d 0 (Z.to_nat count))
      else out_data
  end.

(** ** Object lifetime and the device *)

Section Lifetime.

Variable sign : f32 -> f32.
Variable lerp : f32 -> f32 -> f32 -> f32.

(** The move constructor [PcmSound(PcmSound && b)]: the object at address
    [this] is built from the one at [b]. *)
Definition move_construct (st : State) (this b : nat) : State :=
  let vs :=
    (λ v, if bool_decide (sound v = Some b) && negb (isEmpty v)
          then setStopMode sign (assets st) v else v) <$> playing_sounds st in
  let src := target (assets st) b in
  let σ := <[this := PcmSound.mk (PcmSound.data src) (PcmSound.frequency src)
                        (PcmSound.samples src) (PcmSound.channels src)]> (assets st) in
  let σ := alter (λ s, PcmSound.mk None (PcmSound.frequency s) (PcmSound.samples s)
                         (PcmSound.channels s)) b σ in
  set_assets σ (set_playing_sounds vs st).

(** The move assignment [operator=(PcmSound && b)] on the object at [this]. *)
Definition move_assign (st : State) (this b : nat) : State :=
  let vs :=
    (λ v, if (bool_decide (sound v = Some this) || bool_decide (sound v = Some b))
             && negb (isEmpty v)
          then setStopMode sign (assets st) v else v) <$> playing_sounds st in
  let src := target (assets st) b in
  let σ := <[this := PcmSound.mk (PcmSound.data src) (PcmSound.frequency src)
                        (PcmSound.samples src) (PcmSound.channels src)]> (assets st) in
  let σ := alter (λ s, PcmSound.mk None (PcmSound.frequency s) (PcmSound.samples s)
                         (PcmSound.channels s)) b σ in
  set_assets σ (set_playing_sounds vs st).

(** The destructor [~PcmSound()] of the object at [a]. *)
Definition destroy_sound (st : State) (a : nat) : State :=
  if PcmSound.isValid (target (assets st) a) then delete_sound sign st a else st.

(** [miniaudio_data_callback]; the device is opened with [OUTPUT_CHANNELS]
    channels, and [frame_count] becomes the [int] argument [samples]. *)
Definition miniaudio_data_callback (device_initialized : bool) (st : State) (frame_count : Z)
    : State * list frame :=
  if device_initialized
  then fill_buffer_cb sign lerp st OUTPUT_SAMPLE_RATE (int32 frame_count)
  else (st, replicate (Z.to_nat frame_count) silence).

End Lifetime.

(** The looping and the deferred variant of [play_sound_1]. *)
Definition play_sound_loop_1 (VERY_BIG_NUMBER : f32) (st : State) (a : nat)
    : State * PlayingSoundHandle :=
  play_sound_internal st a F32.one F32.one F32.zero F32.zero VERY_BIG_NUMBER true F32.zero.

Definition play_sound_deferred_1 (VERY_BIG_NUMBER : f32) (st : State) (a : nat)
    (defer_seconds : f32) : State * PlayingSoundHandle :=
  play_sound_internal st a F32.one F32.one F32.zero F32.zero VERY_BIG_NUMBER false defer_seconds.

(** ** The manual critical section

    [sound_cs] is the number of times the calling thread holds the
    (recursive) mutex. *)
Record Lock := mkLock {
  sound_cs : nat;
  sound_cs_manual_entered : bool
}.

Definition enter_sound_critical_section (l : Lock) : Lock :=
  if sound_cs_manual_entered l then l
  else mkLock (S (sound_cs l)) true.

Definition leave_sound_critical_section (l : Lock) : Lock :=
  if sound_cs_manual_entered l then mkLock (Nat.pred (sound_cs l)) false
  else l.

(** ** A client of the interface *)

(** One call of the control surface, one operation on the lifetime of an
    asset, or one callback of the device. *)
Inductive Call :=
  | call_play (a : nat) (volume pitch pan start_time end_time : f32) (loop : bool)
      (defer_time_sec : f32)
  | call_stop_sound (h : PlayingSoundHandle)
  | call_stop_all_sounds
  | call_set_sound_pitch (h : PlayingSoundHandle) (x : f32)
  | call_set_sound_volume (h : PlayingSoundHandle) (x : f32)
  | call_set_sound_pan (h : PlayingSoundHandle) (x : f32)
  | call_set_sound_play_pos (h : PlayingSoundHandle) (x : f32)
  | call_set_master_volume (x : f32)
  | call_delete_sound (a : nat)
  | call_destroy_sound (a : nat)
  | call_move_construct (this b : nat)
  | call_move_assign (this b : nat)
  | call_callback (frequency samples : Z).

Section Client.

Variable sign : f32 -> f32.
Variable lerp : f32 -> f32 -> f32 -> f32.

Definition do_call (st : State) (c : Call) : State :=
  match c with
  | call_play a volume pitch pan start_time end_time loop defer_time_sec =>
      (play_sound_internal st a volume pitch pan start_time end_time loop defer_time_sec).1
  | call_stop_sound h => stop_sound sign st h
  | call_stop_all_sounds => stop_all_sounds sign st
  | call_set_sound_pitch h x => set_sound_pitch st h x
  | call_set_sound_volume h x => set_sound_volume st h x
  | call_set_sound_pan h x => set_sound_pan st h x
  | call_set_sound_play_pos h x => set_sound_play_pos st h x
  | call_set_master_volume x => set_master_volume st x
  | call_delete_sound a => delete_sound sign st a
  | call_destroy_sound a => destroy_sound sign st a
  | call_move_construct this b => move_construct sign st this b
  | call_move_assign this b => move_assign sign st this b
  | call_callback frequency samples => (fill_buffer_cb sign lerp st frequency samples).1
  end.

Definition do_calls (st : State) (cs : list Call) : State := foldl do_call st cs.

End Client.

(** ** More scenarios *)

(** The asset of S1 played as a loop. *)
Definition looping_S1 : State := (play_sound_loop_1 (F32.of_int 1000000) state_S1 7).1.

(** The voice that [play_sound_1] creates in S1. *)
Definition voice_S1 : PlayingSound := default zero_voice (playing_sounds playing_S1 !! 1%nat).

(** Scenario S3: the asset played with a start deferred by half a second,
    and the handle. *)
Definition deferred_S3 : State :=
  (play_sound_deferred_1 (F32.of_int 1000000) state_S1 7 c_0_5).1.
Definition handle_S3 : PlayingSoundHandle :=
  (play_sound_deferred_1 (F32.of_int 1000000) state_S1 7 c_0_5).2.

(** A two-channel asset of 100 frames at 44.1 kHz. *)
Definition stereo_S2 : PcmSound.t :=
  create_sound_stereo zero_memory zero_memory 44100 (replicate 100 (F32.one, F32.zero)).

(** The sample buffer of the asset of S1. *)
Definition data_S1 : list f32 := default [] (PcmSound.data asset_S1).

(** Scenario S2: the two-channel asset stored at address 7 and played with
    the defaults; its voice and its sample buffer. *)
Definition playing_S2 : State :=
  (play_sound_1 (F32.of_int 1000000) (set_assets (<[7%nat := stereo_S2]> ∅) initialize) 7).1.
Definition voice_S2 : PlayingSound := default zero_voice (playing_sounds playing_S2 !! 1%nat).
Definition data_S2 : list f32 := default [] (PcmSound.data stereo_S2).

(** Scenario S3 after 93 chunks of 256 frames at 48 kHz: the voice of the
    deferred play, mixed into a chunk of silence 93 times. *)
Definition waiting_voice_S3 : PlayingSound :=
  default zero_voice (playing_sounds deferred_S3 !! 1%nat).
Definition late_voice_S3 : PlayingSound :=
  Nat.iter 93
    (λ v, (mixTo sign_ref lerp_ref (assets deferred_S3) (master_volume deferred_S3) v
             (replicate 256 silence) 48000 (F64.div F64.one (F64.of_int 48000))
             (F64.mul (F64.of_int 256) (F64.div F64.one (F64.of_int 48000)))).1)
    waiting_voice_S3.

(** ** Predicates on the voice table *)

(** No slot among 1..127 is free. *)
Definition pool_full (vs : list PlayingSound) : Prop :=
  forall i v, (1 <= i < 128)%nat -> vs !! i = Some v -> isEmpty v = false.

(** Versions are only ever advanced by 128 from 0. *)
Definition versions_aligned (vs : list PlayingSound) : Prop :=
  Forall (λ v, version v mod 128 = 0) vs.

(** What the loop of [fill_buffer_cb] adds to [total_samples_played],
    turn by turn. *)
Fixpoint counted (fuel : nat) (samples : Z) : Z :=
  match fuel with
  | O => 0
  | S fuel' =>
      if 0 <? samples
      then Z.min (int32 (samples - 256)) 256 + counted fuel' (int32 (samples - 256))
      else 0
  end.

(** The guard frame of an asset: the first frame is repeated behind the
    last one, inside the allocation. *)
Definition guard_frame (s : PcmSound.t) : Prop :=
  exists d, PcmSound.data s = Some d /\
    (PcmSound.channels s = 1 ->
       (Z.to_nat (PcmSound.samples s) < length d)%nat /\
       rd d (PcmSound.samples s) = rd d 0) /\
    (PcmSound.channels s = 2 ->
       (Z.to_nat (2 * PcmSound.samples s + 1) < length d)%nat /\
       rd d (2 * PcmSound.samples s) = rd d 0 /\
       rd d (2 * PcmSound.samples s + 1) = rd d 1).

(** An asset as the creation functions leave it: one or two channels and a
    block of [getDataMemorySize()] floats, the size not overflowing [int]. *)
Definition allocated (s : PcmSound.t) : Prop :=
  exists d, PcmSound.data s = Some d /\
    0 <= PcmSound.samples s /\
    (PcmSound.channels s = 1 \/ PcmSound.channels s = 2) /\
    PcmSound.channels s * (PcmSound.samples s + 4) * 4 <= INT_MAX /\
    length d = Z.to_nat (PcmSound.channels s * (PcmSound.samples s + 4) * 4).

(** The canonical mantissa of a positive integer with at most [prec]
    binary digits, and the floating value of that integer. *)
Definition int_mantissa (prec : Z) (n : positive) : positive :=
  match (prec - Zpos (digits2_pos n))%Z with
  | Zpos k => Pos.iter xO n k
  | _ => n
  end.

Definition float_of_pos (prec : Z) (s : bool) (n : positive) : spec_float :=
  S754_finite s (int_mantissa prec n) (Zpos (digits2_pos n) - prec).

(** The per-sample countdown of a deferred voice over at most [n] output
    frames: the voice afterwards and the number of frames that passed while
    it was still waiting. *)
Fixpoint wait_run (inv_frequency : f64) (v : PlayingSound) (n : nat) : PlayingSound * nat :=
  match n with
  | O => (v, O)
  | S n' =>
      if waitingStart v then
        let '(v', k) := wait_run inv_frequency (wait_step inv_frequency v) n' in (v', S k)
      else (v, O)
  end.

(** [timeToStart] after [n] output frames of the per-sample countdown. *)
Definition countdown (inv_frequency t : f64) (n : nat) : f64 :=
  Nat.iter n (λ x, F64.sub x inv_frequency) t.

(** One output frame with the contribution of a playing voice at position
    [p] added at the gains [gL] and [gR]. *)
Definition mixed_frame (lerp : f32 -> f32 -> f32 -> f32) (d : list f32) (channels : Z)
    (p : f64) (gL gR : f32) (fr : frame) : frame :=
  if channels =? 1 then
    let s := sample_mono lerp d p in
    (F32.add fr.1 (F32.mul s gL), F32.add fr.2 (F32.mul s gR))
  else
    let '(sl, sr) := sample_stereo lerp d p in
    (F32.add fr.1 (F32.mul sl gL), F32.add fr.2 (F32.mul sr gR)).

(** A voice as every operation leaves it: the version is a multiple of
    128, and a voice in stop-fade holds no asset pointer. *)
Definition voice_ok (v : PlayingSound) : Prop :=
  version v mod 128 = 0 /\ (stopMode v = true -> sound v = None).

Definition table_ok (vs : list PlayingSound) : Prop :=
  length vs = Z.to_nat MAX_PLAYING_SOUNDS /\ Forall voice_ok vs.

(** A floating value that is a number: neither a NaN nor an infinity. *)
Definition is_number (x : spec_float) : Prop :=
  match x with S754_zero _ | S754_finite _ _ _ => True | _ => False end.

(** A binary32 value of magnitude below 2^127, so that doubling it does
    not overflow. *)
Definition below_2_127 (x : f32) : Prop :=
  match x with S754_finite _ _ e => e < 104 | _ => True end.

(** A sample on both channels. *)
Definition dup (s : f32) : frame := (s, s).

(** A sample that passes the unit-gain mix unchanged: a binary32 value
    other than [-0.0f]. *)
Definition clean_sample (s : f32) : Prop := F32.valid s = true /\ s <> S754_zero true.

(** A voice of [ch] channels that plays the asset at [a] at unit gain and
    unit advance from the integer position [k], up to [stop]. *)
Definition unit_voice (ch : Z) (σ : gmap nat PcmSound.t) (master : f32) (inv : f64)
    (v : PlayingSound) (a : nat) (k stop : Z) : Prop :=
  sound v = Some a /\ channels v = ch /\ stopMode v = false /\ waitingStart v = false /\
  volumeL v = F32.one /\ volumeR v = F32.one /\
  wishVolumeL master v = F32.one /\ wishVolumeR master v = F32.one /\
  F64.mul (F64.mul (F64.of_int (PcmSound.frequency (target σ a))) inv) (f2d (pitch v)) = F64.one /\
  pos v = F64.of_int k /\ stopPos v = F64.of_int stop.

(** A run of calls: [true] for [enter_sound_critical_section], [false]
    for [leave_sound_critical_section]. *)
Definition run_calls (calls : list bool) (l : Lock) : Lock :=
  foldl (λ (l : Lock) (c : bool),
           if c then enter_sound_critical_section l
           else leave_sound_critical_section l) l calls.

(** What one voice adds to one output frame: nothing, or a pair that is
    added to the frame. *)
Definition add_frame (fr : frame) (c : option frame) : frame :=
  match c with
  | None => fr
  | Some (a, b) => (F32.add fr.1 a, F32.add fr.2 b)
  end.

Definition add_contrib (mix : list frame) (cs : list (option frame)) : list frame :=
  zip_with add_frame mix cs.

(** A voice in stop-fade that holds no asset, with the version [ver]. *)
Definition stranded (ver : Z) (v : PlayingSound) : Prop :=
  sound v = None /\ stopMode v = true /\ version v = ver.

(** * Properties *)

(** ** Machine integers and handle bits *)

Lemma uint32_int32 (z : Z) : uint32 (int32 z) = z mod 2 ^ 32.
Proof.
  unfold uint32, int32, wrap_u, wrap_s.
  change (2 ^ (32 - 1)) with 2147483648. change (2 ^ 32) with 4294967296.
  Z.to_euclidean_division_equations. lia.
Qed.

Lemma int32_small (z : Z) : INT_MIN <= z <= INT_MAX -> int32 z = z.
Proof.
  unfold INT_MIN, INT_MAX, int32, wrap_s.
  change (2 ^ (32 - 1)) with 2147483648. change (2 ^ 32) with 4294967296.
  change (2 ^ 31) with 2147483648.
  intros H. Z.to_euclidean_division_equations. lia.
Qed.

Lemma int64_small (z : Z) : INT64_MIN <= z <= INT64_MAX -> int64 z = z.
Proof.
  unfold INT64_MIN, INT64_MAX, int64, wrap_s.
  change (2 ^ (64 - 1)) with 9223372036854775808.
  change (2 ^ 64) with 18446744073709551616.
  change (2 ^ 63) with 9223372036854775808.
  intros H. Z.to_euclidean_division_equations. lia.
Qed.

Lemma int32_mod_128 (z : Z) : z mod 128 = 0 -> int32 z mod 128 = 0.
Proof.
  unfold int32, wrap_s.
  change (2 ^ (32 - 1)) with 2147483648. change (2 ^ 32) with 4294967296.
  intros H. Z.to_euclidean_division_equations. lia.
Qed.

(** [h & PLAYING_SOUNDS_MASK] is the index, [h & ~PLAYING_SOUNDS_MASK]
    the version part of a handle. *)
Lemma land_mask (h : Z) : Z.land h PLAYING_SOUNDS_MASK = h mod 128.
Proof. change PLAYING_SOUNDS_MASK with (Z.ones 7). now rewrite Z.land_ones. Qed.

Lemma land_not_mask (h : Z) :
  Z.land h (uint32 (Z.lnot PLAYING_SOUNDS_MASK)) = 128 * ((h mod 2 ^ 32) / 128).
Proof.
  change (uint32 (Z.lnot PLAYING_SOUNDS_MASK)) with (Z.land (Z.ones 32) (Z.lnot (Z.ones 7))).
  rewrite Z.land_assoc, Z.land_ones by lia.
  change (Z.land (h mod 2 ^ 32) (Z.lnot (Z.ones 7))) with (Z.ldiff (h mod 2 ^ 32) (Z.ones 7)).
  rewrite Z.ldiff_ones_r by lia.
  rewrite Z.shiftr_div_pow2, Z.shiftl_mul_pow2 by lia. change (2 ^ 7) with 128. lia.
Qed.

Lemma lor_index_version (i ver : Z) :
  0 <= i < 128 -> ver mod 128 = 0 -> Z.lor i ver = i + ver.
Proof.
  intros Hi Hv.
  assert (Hland : Z.land i ver = 0).
  { apply Z.bits_inj'. intros n Hn. rewrite Z.land_spec, Z.bits_0.
    destruct (Z.lt_ge_cases n 7) as [Hlt|Hge].
    - replace (Z.testbit ver n) with false; [apply andb_false_r|].
      symmetry. rewrite <- (Z.mod_pow2_bits_low ver 7 n) by lia.
      change (2 ^ 7) with 128. rewrite Hv. apply Z.bits_0.
    - replace (Z.testbit i n) with false; [reflexivity|].
      symmetry. destruct (Z.eq_dec i 0) as [->|Hne]; [apply Z.bits_0|].
      apply Z.bits_above_log2; [lia|].
      assert (Z.log2 i < 7); [|lia]. apply Z.log2_lt_pow2; [lia|]. change (2 ^ 7) with 128. lia. }
  rewrite <- Z.lxor_lor by exact Hland. symmetry. now apply Z.add_nocarry_lxor.
Qed.

Lemma handle_bits (i ver : Z) :
  0 <= i < 128 -> ver mod 128 = 0 ->
  Z.land (uint32 (Z.lor i ver)) PLAYING_SOUNDS_MASK = i /\
  Z.land (uint32 (Z.lor i ver)) (uint32 (Z.lnot PLAYING_SOUNDS_MASK)) = uint32 ver.
Proof.
  intros Hi Hv. rewrite land_mask, land_not_mask, lor_index_version by assumption.
  unfold uint32, wrap_u. rewrite Z.mod_mod by lia.
  change (2 ^ 32) with 4294967296. split; Z.to_euclidean_division_equations; lia.
Qed.

(** ** Stopping a voice *)

Section Stopping.

Variable sign : f32 -> f32.

(** What [setStopMode] does to a voice that holds an asset and is not yet
    in stop-fade. *)
Lemma setStopMode_live σ v a :
  sound v = Some a -> stopMode v = false ->
  version (setStopMode sign σ v) = int32 (version v + MAX_PLAYING_SOUNDS) /\
  sound (setStopMode sign σ v) = None /\
  waitingStart (setStopMode sign σ v) = false /\
  stopMode (setStopMode sign σ v) = negb (waitingStart v).
Proof.
  destruct v as [s p sp ep pi vo pa vl vr tl tr ts ch ve lo sm ws]. cbn.
  intros -> ->. unfold setStopMode. cbn.
  destruct ws; cbn; [repeat split|].
  destruct (ch =? 1); cbn; repeat split.
Qed.

(** The two early returns of [setStopMode]. *)
Lemma setStopMode_early σ v :
  stopMode v = true \/ sound v = None ->
  setStopMode sign σ v = set_waitingStart false v.
Proof.
  intros H. unfold setStopMode. destruct (sound v) as [a|]; [|reflexivity].
  destruct H as [H|H]; [now rewrite H | discriminate].
Qed.

(** C10. [setStopMode] on a voice that is already in stop-fade, or whose
    asset reference is already null, only clears [waitingStart]: the
    version is not advanced again, the gains and the fade trends are not
    seeded again, and [stopMode] keeps its value. *)
Theorem setStopMode_idempotent σ v :
  stopMode v = true \/ sound v = None ->
  setStopMode sign σ v = set_waitingStart false v /\
  version (setStopMode sign σ v) = version v /\
  volumeL (setStopMode sign σ v) = volumeL v /\
  volumeR (setStopMode sign σ v) = volumeR v /\
  volumeTrendL (setStopMode sign σ v) = volumeTrendL v /\
  volumeTrendR (setStopMode sign σ v) = volumeTrendR v /\
  stopMode (setStopMode sign σ v) = stopMode v /\
  sound (setStopMode sign σ v) = sound v /\
  pos (setStopMode sign σ v) = pos v /\
  waitingStart (setStopMode sign σ v) = false.
Proof.
  intros H. rewrite (setStopMode_early σ v H). repeat split.
Qed.

(** [stop_all_sounds] and [delete_sound] reach [setStopMode] for every
    voice that is not empty, so also for one already in stop-fade; such a
    voice comes out with nothing but [waitingStart] cleared. *)
Lemma stop_all_sounds_on_fading st i v :
  playing_sounds st !! i = Some v -> stopMode v = true ->
  playing_sounds (stop_all_sounds sign st) !! i = Some (set_waitingStart false v).
Proof.
  intros Hi Hm. unfold stop_all_sounds. cbn. rewrite list_lookup_fmap, Hi. cbn.
  f_equal. unfold isEmpty. rewrite Hm.
  destruct (sound v) eqn:Hs; cbn; apply setStopMode_early; auto.
Qed.

End Stopping.

(** ** Floating-point comparisons *)

Lemma compare_cont_swap m m' :
  PosDef.Pos.compare_cont Eq m' m = CompOpp (PosDef.Pos.compare_cont Eq m m').
Proof. exact (eq_sym (Pos.compare_cont_antisym m m' Eq)). Qed.

Lemma compare_cont_same m : PosDef.Pos.compare_cont Eq m m = Eq.
Proof. exact (Pos.compare_cont_refl m Eq). Qed.

Lemma SFcompare_refl x : x <> S754_nan -> SFcompare x x = Some Eq.
Proof.
  destruct x as [s|s| |s m e]; cbn; try congruence; intros _.
  - now destruct s.
  - destruct s; rewrite Z.compare_refl, compare_cont_same; reflexivity.
Qed.

Lemma feq_refl x : x <> S754_nan -> feq x x = true.
Proof. intros H. unfold feq, SFeqb. now rewrite SFcompare_refl. Qed.

(** Swapping the operands of a comparison mirrors the outcome. *)
Lemma SFcompare_swap x y : SFcompare y x = CompOpp <$> SFcompare x y.
Proof.
  destruct x as [s|s| |s m e], y as [s'|s'| |s' m' e']; cbn; try reflexivity;
    try (destruct s; reflexivity); try (destruct s'; reflexivity);
    try (destruct s, s'; reflexivity).
  destruct s, s'; try reflexivity;
    rewrite (Z.compare_antisym e e'); destruct (e ?= e'); cbn; try reflexivity;
    rewrite (compare_cont_swap m m');
    destruct (PosDef.Pos.compare_cont Eq m m'); reflexivity.
Qed.

Lemma flt_false_fle x y :
  x <> S754_nan -> y <> S754_nan -> flt x y = false -> fle y x = true.
Proof.
  intros Hx Hy. unfold flt, fle, SFltb, SFleb. rewrite (SFcompare_swap x y).
  destruct (SFcompare x y) as [[]|] eqn:E; cbn; try easy.
  destruct x, y; cbn in E; congruence.
Qed.

Lemma flt_fle x y : flt x y = true -> fle x y = true.
Proof. unfold flt, fle, SFltb, SFleb. now destruct (SFcompare x y) as [[]|]. Qed.

Lemma fle_refl x : x <> S754_nan -> fle x x = true.
Proof. intros H. unfold fle, SFleb. now rewrite SFcompare_refl. Qed.

Lemma flt_not_nan x y : flt x y = true -> x <> S754_nan /\ y <> S754_nan.
Proof. unfold flt, SFltb. destruct x, y; cbn; split; congruence. Qed.

(** The value of [std::clamp] lies between the bounds when these are ordered
    and the value is a number. *)
Lemma clamp_bounds v lo hi :
  v <> S754_nan -> fle lo hi = true ->
  fle lo (clamp v lo hi) = true /\ fle (clamp v lo hi) hi = true /\
  clamp v lo hi <> S754_nan.
Proof.
  intros Hv Hle.
  assert (Hlo : lo <> S754_nan) by (intros ->; destruct hi; discriminate).
  assert (Hhi : hi <> S754_nan) by (intros ->; destruct lo; discriminate).
  unfold clamp. destruct (flt v lo) eqn:E1.
  - auto using fle_refl.
  - destruct (flt hi v) eqn:E2.
    + auto using fle_refl.
    + auto using flt_false_fle.
Qed.

(** A gain that sits on its target is left there by the smoothing. *)
Lemma nudge_on_target x : nudge x x = x.
Proof.
  unfold nudge, fne. destruct (SFeqb x x) eqn:E; [reflexivity|]. cbn.
  destruct x as [s|s| |s m e]; try reflexivity;
    unfold SFeqb in E; rewrite SFcompare_refl in E by congruence; discriminate.
Qed.

(** ** Exact rounding *)

(** Powers of two are kept as opaque atoms for [lia]. *)
Ltac hide_pow :=
  repeat match goal with
         | |- context [Z.pow ?b ?e] =>
             let P := fresh "P" in set (P := Z.pow b e) in *; clearbody P
         | H : context [Z.pow ?b ?e] |- _ =>
             let P := fresh "P" in set (P := Z.pow b e) in *; clearbody P
         end.

Lemma digits2_pos_bounds (m : positive) :
  2 ^ (Zpos (digits2_pos m) - 1) <= Zpos m < 2 ^ Zpos (digits2_pos m).
Proof.
  induction m as [m IH|m IH|]; cbn [digits2_pos].
  - rewrite Pos2Z.inj_succ, Pos2Z.inj_xI.
    replace (Z.succ (Zpos (digits2_pos m)) - 1) with (Z.succ (Zpos (digits2_pos m) - 1)) by lia.
    rewrite !Z.pow_succ_r by lia. hide_pow. lia.
  - rewrite Pos2Z.inj_succ, (Pos2Z.inj_xO m).
    replace (Z.succ (Zpos (digits2_pos m)) - 1) with (Z.succ (Zpos (digits2_pos m) - 1)) by lia.
    rewrite !Z.pow_succ_r by lia. hide_pow. lia.
  - cbn. lia.
Qed.

Lemma iter_xO_value (m k : positive) : Zpos (Pos.iter xO m k) = Zpos m * 2 ^ Zpos k.
Proof.
  induction k as [|k IH] using Pos.peano_ind.
  - cbn. lia.
  - rewrite Pos.iter_succ, (Pos2Z.inj_xO (Pos.iter xO m k)), IH, Pos2Z.inj_succ, Z.pow_succ_r by lia. lia.
Qed.

Lemma iter_xO_digits (m k : positive) :
  Zpos (digits2_pos (Pos.iter xO m k)) = Zpos (digits2_pos m) + Zpos k.
Proof.
  induction k as [|k IH] using Pos.peano_ind.
  - cbn. lia.
  - rewrite Pos.iter_succ. cbn [digits2_pos]. rewrite Pos2Z.inj_succ, IH. lia.
Qed.

(** The number of binary digits is determined by the bracketing powers. *)
Lemma digits2_pos_unique (m : positive) (d : Z) :
  2 ^ (d - 1) <= Zpos m < 2 ^ d -> Zpos (digits2_pos m) = d.
Proof.
  intros [H1 H2]. pose proof (digits2_pos_bounds m) as [H3 H4].
  assert (0 < d). { destruct (Z.lt_ge_cases 0 d); [assumption|]. 
    assert (2 ^ d <= 2 ^ 0) by (apply Z.pow_le_mono_r; lia). cbn in *. lia. }
  destruct (Z.lt_trichotomy (Zpos (digits2_pos m)) d) as [Hlt|[Heq|Hgt]]; [|assumption|].
  - assert (2 ^ Zpos (digits2_pos m) <= 2 ^ (d - 1)) by (apply Z.pow_le_mono_r; lia). lia.
  - assert (2 ^ d <= 2 ^ (Zpos (digits2_pos m) - 1)) by (apply Z.pow_le_mono_r; lia). lia.
Qed.

Lemma iter_pos_iter {A} (f : A -> A) (p : positive) (x : A) :
  SpecFloat.iter_pos f p x = Pos.iter f x p.
Proof.
  revert x. induction p as [p IH|p IH|]; intros x; cbn [SpecFloat.iter_pos Pos.iter].
  - rewrite !IH, !Pos.iter_swap. reflexivity.
  - rewrite !IH. reflexivity.
  - reflexivity.
Qed.

(** Shifting out [p] zero bits leaves the quotient and an exact location. *)
Lemma shr_exact (q : Z) (p : positive) :
  0 <= q ->
  SpecFloat.iter_pos shr_1 p (Build_shr_record (q * 2 ^ Zpos p) false false)
  = Build_shr_record q false false.
Proof.
  intros Hq. rewrite iter_pos_iter. induction p as [|p IH] using Pos.peano_ind.
  - cbn [Pos.iter]. change (2 ^ 1) with 2. destruct q as [|q|q]; [reflexivity| |lia].
    replace (Zpos q * 2) with (Zpos q~0) by lia. reflexivity.
  - rewrite Pos.iter_succ_r. 
    replace (q * 2 ^ Zpos (Pos.succ p)) with ((q * 2 ^ Zpos p) * 2)
      by (rewrite Pos2Z.inj_succ, Z.pow_succ_r by lia; lia).
    assert (E : shr_1 (Build_shr_record (q * 2 ^ Zpos p * 2) false false)
                = Build_shr_record (q * 2 ^ Zpos p) false false).
    { assert (0 <= q * 2 ^ Zpos p) by (apply Z.mul_nonneg_nonneg; lia).
      destruct (q * 2 ^ Zpos p) as [|r|r]; [reflexivity| |lia].
      replace (Zpos r * 2) with (Zpos r~0) by lia. reflexivity. }
    rewrite E. exact IH.
Qed.

Lemma pos_of_shift (m M : positive) (c : Z) :
  0 < c -> Zpos m = Zpos M * 2 ^ c -> m = Pos.iter xO M (Z.to_pos c).
Proof.
  intros Hc H. apply Pos2Z.inj. rewrite iter_xO_value, Z2Pos.id by lia. exact H.
Qed.

Section Rounding.

Variables prec emax : Z.
Hypothesis prec_gt_0 : 0 < prec.

Lemma bounded_inv m e :
  bounded prec emax m e = true ->
  fexp prec emax (Zpos (digits2_pos m) + e) = e /\ e <= emax - prec.
Proof.
  unfold bounded, canonical_mantissa. intros [H1 H2]%andb_true_iff.
  apply Z.eqb_eq in H1. apply Z.leb_le in H2. now split.
Qed.

(** Rounding a canonical mantissa changes nothing. *)
Lemma round_aux_canonical s M e' :
  bounded prec emax M e' = true ->
  binary_round_aux prec emax s (Zpos M) e' loc_Exact = S754_finite s M e'.
Proof.
  intros [Hc Hb]%bounded_inv. unfold binary_round_aux, shr_fexp. cbn [Zdigits2 shr_record_of_loc].
  rewrite Hc, Z.sub_diag. cbn [shr shr_m loc_of_shr_record round_nearest_even Zdigits2
                                 shr_record_of_loc].
  rewrite Hc, Z.sub_diag. cbn [shr shr_m]. apply Z.leb_le in Hb. now rewrite Hb.
Qed.

(** Rounding a canonical mantissa followed by [p] zero bits shifts them out. *)
Lemma round_aux_shift s M e' p :
  bounded prec emax M e' = true ->
  binary_round_aux prec emax s (Zpos (Pos.iter xO M p)) (e' - Zpos p) loc_Exact
  = S754_finite s M e'.
Proof.
  intros Hbd. pose proof (bounded_inv _ _ Hbd) as [Hc Hb].
  transitivity (binary_round_aux prec emax s (Zpos M) e' loc_Exact);
    [|now apply round_aux_canonical].
  assert (E : shr_fexp prec emax (Zpos (Pos.iter xO M p)) (e' - Zpos p) loc_Exact
              = shr_fexp prec emax (Zpos M) e' loc_Exact).
  { unfold shr_fexp. cbn [Zdigits2 shr_record_of_loc]. rewrite iter_xO_digits.
    replace (Zpos (digits2_pos M) + Zpos p + (e' - Zpos p)) with (Zpos (digits2_pos M) + e') by lia.
    rewrite Hc, Z.sub_diag. replace (e' - (e' - Zpos p)) with (Zpos p) by lia. cbn [shr].
    rewrite iter_xO_value, shr_exact by lia. f_equal. lia. }
  unfold binary_round_aux. now rewrite E.
Qed.

Lemma round_aux_value s X M e' c :
  bounded prec emax M e' = true -> 0 <= c -> Zpos X = Zpos M * 2 ^ c ->
  binary_round_aux prec emax s (Zpos X) (e' - c) loc_Exact = S754_finite s M e'.
Proof.
  intros Hbd Hc HX. destruct (Z.eq_dec c 0) as [->|Hne].
  - rewrite Z.sub_0_r. replace X with M by (apply Pos2Z.inj; rewrite HX; cbn; lia).
    now apply round_aux_canonical.
  - rewrite (pos_of_shift X M c) by (lia || assumption).
    replace c with (Zpos (Z.to_pos c)) at 2 by (apply Z2Pos.id; lia).
    now apply round_aux_shift.
Qed.

(** [binary_round] returns the canonical representation of the value it
    is given, when there is one. *)
Lemma binary_round_value s m e M e' :
  bounded prec emax M e' = true ->
  Zpos m * 2 ^ (e - Z.min e e') = Zpos M * 2 ^ (e' - Z.min e e') ->
  binary_round prec emax s m e = S754_finite s M e'.
Proof.
  intros Hbd Hv. pose proof (bounded_inv _ _ Hbd) as [Hc Hb].
  unfold binary_round.
  destruct (Z.lt_trichotomy e e') as [Hlt|[Heq|Hgt]].
  - rewrite Z.min_l, Z.sub_diag, Z.mul_1_r in Hv by lia.
    pose proof (pos_of_shift m M (e' - e) ltac:(lia) Hv) as Hm.
    assert (Hd : Zpos (digits2_pos m) + e = Zpos (digits2_pos M) + e').
    { rewrite Hm, iter_xO_digits, Z2Pos.id by lia. lia. }
    rewrite Hd, Hc. unfold shl_align.
    destruct (e' - e) as [|k|k] eqn:Ek; try lia.
    replace e with (e' - Zpos k) by lia. apply round_aux_value; [assumption|lia|exact Hv].
  - subst e'. rewrite Z.min_id, Z.sub_diag, !Z.mul_1_r in Hv. injection Hv as ->.
    rewrite Hc. unfold shl_align. rewrite Z.sub_diag. now apply round_aux_canonical.
  - rewrite Z.min_r, Z.sub_diag, Z.mul_1_r in Hv by lia. symmetry in Hv.
    pose proof (pos_of_shift M m (e - e') ltac:(lia) Hv) as HM.
    assert (Hd : Zpos (digits2_pos m) + e = Zpos (digits2_pos M) + e').
    { rewrite HM, iter_xO_digits, Z2Pos.id by lia. lia. }
    rewrite Hd, Hc. unfold shl_align.
    destruct (e' - e) as [|k|k] eqn:Ek; try lia.
    replace (Pos.iter xO m k) with M.
    + now apply round_aux_canonical.
    + rewrite HM. f_equal. lia.
Qed.

End Rounding.

(** ** Integers as binary64 values *)

Lemma digits_le_of_lt (n : positive) (p : Z) :
  0 <= p -> Zpos n < 2 ^ p -> Zpos (digits2_pos n) <= p.
Proof.
  intros Hp Hn. pose proof (digits2_pos_bounds n) as [H1 _].
  destruct (Z.le_gt_cases (Zpos (digits2_pos n)) p) as [|Hgt]; [assumption|].
  assert (2 ^ p <= 2 ^ (Zpos (digits2_pos n) - 1)) by (apply Z.pow_le_mono_r; lia). lia.
Qed.

Lemma int_mantissa_value (prec : Z) (n : positive) :
  Zpos (digits2_pos n) <= prec ->
  Zpos (int_mantissa prec n) = Zpos n * 2 ^ (prec - Zpos (digits2_pos n)).
Proof.
  intros H. unfold int_mantissa.
  destruct (prec - Zpos (digits2_pos n)) as [|k|k] eqn:E; try lia.
  apply iter_xO_value.
Qed.

Lemma int_mantissa_digits (prec : Z) (n : positive) :
  Zpos (digits2_pos n) <= prec -> Zpos (digits2_pos (int_mantissa prec n)) = prec.
Proof.
  intros H. unfold int_mantissa.
  destruct (prec - Zpos (digits2_pos n)) as [|k|k] eqn:E; try lia.
  rewrite iter_xO_digits. lia.
Qed.

Lemma float_of_pos_bounded (n : positive) :
  Zpos (digits2_pos n) <= 53 ->
  bounded 53 1024 (int_mantissa 53 n) (Zpos (digits2_pos n) - 53) = true.
Proof.
  intros H. unfold bounded, canonical_mantissa, fexp, emin.
  rewrite int_mantissa_digits by assumption.
  apply andb_true_iff. split; [apply Z.eqb_eq|apply Z.leb_le]; lia.
Qed.

(** [double(n)] of a positive integer below 2^53 is exact. *)
Lemma F64_of_int_pos (s : bool) (n : positive) :
  Zpos n < 2 ^ 53 ->
  binary_round 53 1024 s n 0 = float_of_pos 53 s n.
Proof.
  intros Hn. assert (Hd : Zpos (digits2_pos n) <= 53) by (apply digits_le_of_lt; lia).
  apply binary_round_value; [now apply float_of_pos_bounded|].
  rewrite Z.min_r by lia. rewrite Z.sub_diag, Z.mul_1_r, int_mantissa_value by assumption.
  f_equal. f_equal. lia.
Qed.

Lemma F64_of_int_nonneg (k : Z) :
  0 <= k < 2 ^ 53 ->
  F64.of_int k = match k with Zpos n => float_of_pos 53 false n | _ => S754_zero false end.
Proof.
  intros Hk. destruct k as [|n|n]; [reflexivity| |lia].
  unfold F64.of_int, binary_normalize. now apply F64_of_int_pos.
Qed.

Lemma shl_align_value m e ez :
  ez <= e -> Zpos (shl_align m e ez).1 = Zpos m * 2 ^ (e - ez).
Proof.
  intros H. unfold shl_align. destruct (ez - e) as [|k|k] eqn:E; cbn [fst]; try lia.
  - replace (e - ez) with 0 by lia. rewrite Z.pow_0_r. lia.
  - rewrite iter_xO_value. f_equal. f_equal. lia.
Qed.

Lemma pow2_split (a b : Z) : 0 <= a -> 0 <= b -> 2 ^ (a + b) = 2 ^ a * 2 ^ b.
Proof. intros. now apply Z.pow_add_r. Qed.

Lemma float_of_pos_value_eq (n : positive) (X : positive) (ez : Z) :
  Zpos (digits2_pos n) <= 53 -> ez <= 0 ->
  Zpos X = Zpos n * 2 ^ (- ez) ->
  binary_round 53 1024 false X ez = float_of_pos 53 false n.
Proof.
  intros Hd Hez HX. apply binary_round_value; [now apply float_of_pos_bounded|].
  rewrite HX, int_mantissa_value by assumption.
  set (d := Zpos (digits2_pos n)) in *. assert (0 < d) by (unfold d; lia).
  rewrite <- !Z.mul_assoc, <- !pow2_split by lia. f_equal. f_equal. lia.
Qed.

Lemma F64_add_pos (a b : positive) :
  Zpos a + Zpos b < 2 ^ 53 ->
  F64.add (float_of_pos 53 false a) (float_of_pos 53 false b) = float_of_pos 53 false (a + b).
Proof.
  intros H.
  assert (Hda : Zpos (digits2_pos a) <= 53) by (apply digits_le_of_lt; lia).
  assert (Hdb : Zpos (digits2_pos b) <= 53) by (apply digits_le_of_lt; lia).
  assert (Hdc : Zpos (digits2_pos (a + b)) <= 53) by (apply digits_le_of_lt; lia).
  unfold F64.add, SFadd, float_of_pos. cbn [cond_Zopp].
  set (ea := Zpos (digits2_pos a) - 53). set (eb := Zpos (digits2_pos b) - 53).
  set (ez := Z.min ea eb).
  set (A := (shl_align (int_mantissa 53 a) ea ez).1).
  set (B := (shl_align (int_mantissa 53 b) eb ez).1).
  change (Zpos A + Zpos B) with (Zpos (A + B)). unfold binary_normalize.
  apply (float_of_pos_value_eq (a + b) (A + B) ez Hdc); [unfold ez, ea, eb; lia|].
  rewrite Pos2Z.inj_add. unfold A, B.
  rewrite !shl_align_value by (unfold ez; lia).
  rewrite !int_mantissa_value by assumption. fold ea eb.
  rewrite <- !Z.mul_assoc, <- !pow2_split by (unfold ez, ea, eb; lia).
  rewrite Pos2Z.inj_add, Z.mul_add_distr_r. f_equal; f_equal; f_equal; unfold ea, eb; lia.
Qed.

Lemma F64_add_int (a b : Z) :
  0 <= a -> 0 <= b -> a + b < 2 ^ 53 ->
  F64.add (F64.of_int a) (F64.of_int b) = F64.of_int (a + b).
Proof.
  intros Ha Hb H. rewrite !F64_of_int_nonneg by lia.
  destruct a as [|a|a], b as [|b|b]; try lia; try reflexivity.
  now apply F64_add_pos.
Qed.

Lemma mul_compare_r (n m p : Z) : 0 < p -> (n * p ?= m * p) = (n ?= m).
Proof.
  intros Hp. destruct (Z.compare_spec n m) as [E|E|E].
  - subst. apply Z.compare_refl.
  - apply Z.compare_lt_iff. now apply Z.mul_lt_mono_pos_r.
  - apply Z.compare_gt_iff. now apply Z.mul_lt_mono_pos_r.
Qed.

Lemma float_of_pos_compare (a b : positive) :
  Zpos (digits2_pos a) <= 53 -> Zpos (digits2_pos b) <= 53 ->
  SFcompare (float_of_pos 53 false a) (float_of_pos 53 false b) = Some (Zpos a ?= Zpos b).
Proof.
  intros Ha Hb. unfold float_of_pos. cbn [SFcompare]. f_equal.
  pose proof (digits2_pos_bounds a) as [La Ua]. pose proof (digits2_pos_bounds b) as [Lb Ub].
  destruct (Z.compare_spec (Zpos (digits2_pos a) - 53) (Zpos (digits2_pos b) - 53)) as [E|E|E].
  - assert (Ed : Zpos (digits2_pos a) = Zpos (digits2_pos b)) by lia.
    change (PosDef.Pos.compare_cont Eq (int_mantissa 53 a) (int_mantissa 53 b))
      with (Zpos (int_mantissa 53 a) ?= Zpos (int_mantissa 53 b)).
    rewrite !int_mantissa_value by assumption. rewrite Ed.
    apply mul_compare_r. apply Z.pow_pos_nonneg; lia.
  - symmetry. apply Z.compare_lt_iff.
    assert (2 ^ Zpos (digits2_pos a) <= 2 ^ (Zpos (digits2_pos b) - 1))
      by (apply Z.pow_le_mono_r; lia). lia.
  - symmetry. apply Z.compare_gt_iff.
    assert (2 ^ Zpos (digits2_pos b) <= 2 ^ (Zpos (digits2_pos a) - 1))
      by (apply Z.pow_le_mono_r; lia). lia.
Qed.

Lemma F64_compare_int (a b : Z) :
  0 <= a < 2 ^ 53 -> 0 <= b < 2 ^ 53 ->
  SFcompare (F64.of_int a) (F64.of_int b) = Some (a ?= b).
Proof.
  intros Ha Hb. rewrite !F64_of_int_nonneg by lia.
  destruct a as [|a|a], b as [|b|b]; try lia; try reflexivity.
  apply float_of_pos_compare; apply digits_le_of_lt; lia.
Qed.

Lemma flt_int (a b : Z) :
  0 <= a < 2 ^ 53 -> 0 <= b < 2 ^ 53 -> flt (F64.of_int a) (F64.of_int b) = (a <? b).
Proof.
  intros Ha Hb. unfold flt, SFltb. rewrite F64_compare_int by assumption.
  unfold Z.ltb. now destruct (a ?= b).
Qed.

Lemma fle_int (a b : Z) :
  0 <= a < 2 ^ 53 -> 0 <= b < 2 ^ 53 -> fle (F64.of_int a) (F64.of_int b) = (a <=? b).
Proof.
  intros Ha Hb. unfold fle, SFleb. rewrite F64_compare_int by assumption.
  unfold Z.leb. now destruct (a ?= b).
Qed.

(** [unsigned(double(k))] gives [k] back. *)
Lemma d2u_int (k : Z) : 0 <= k < 2 ^ 32 -> d2u (F64.of_int k) = k.
Proof.
  intros Hk. rewrite F64_of_int_nonneg by lia.
  destruct k as [|n|n]; [reflexivity| |lia].
  assert (Hd : Zpos (digits2_pos n) <= 53) by (apply digits_le_of_lt; lia).
  unfold d2u, f2i64, float_of_pos, SFtrunc. cbn [cond_Zopp].
  assert (E : Z.shiftl (Zpos (int_mantissa 53 n)) (Zpos (digits2_pos n) - 53) = Zpos n).
  { rewrite int_mantissa_value by assumption.
    replace (Zpos (digits2_pos n) - 53) with (- (53 - Zpos (digits2_pos n))) by lia.
    rewrite Z.shiftl_opp_r, Z.shiftr_div_pow2 by lia.
    apply Z.div_mul. apply Z.pow_nonzero; lia. }
  rewrite E.
  replace ((INT64_MIN <=? Zpos n) && (Zpos n <=? INT64_MAX)) with true.
  - unfold uint32, wrap_u. apply Z.mod_small. lia.
  - symmetry. apply andb_true_iff. unfold INT64_MIN, INT64_MAX.
    split; apply Z.leb_le; [lia|].
    assert (2 ^ 32 <= 2 ^ 63 - 1) by (vm_compute; discriminate). lia.
Qed.

Lemma SFsub_diag prec emax x :
  x <> S754_nan -> (forall s, x <> S754_infinity s) -> x <> S754_zero true ->
  SFsub prec emax x x = S754_zero false.
Proof.
  intros Hn Hi Hz. destruct x as [[]|s| |s m e]; try congruence.
  - reflexivity.
  - cbn. now rewrite Z.sub_diag.
Qed.

Lemma F64_sub_int_diag (k : Z) :
  0 <= k < 2 ^ 53 -> F64.sub (F64.of_int k) (F64.of_int k) = S754_zero false.
Proof.
  intros Hk. rewrite F64_of_int_nonneg by lia. unfold F64.sub.
  destruct k; apply SFsub_diag; unfold float_of_pos; congruence.
Qed.

(** Multiplying by one is exact. *)
Lemma F32_mul_one (x : f32) : F32.valid x = true -> F32.mul x F32.one = x.
Proof.
  intros Hv. change F32.one with (S754_finite false 8388608 (-23)).
  destruct x as [s|s| |s m e]; cbn [F32.mul SFmul]; try (now destruct s); [reflexivity|].
  rewrite xorb_false_r. replace (e + -23) with (e - 23) by lia.
  apply round_aux_value; [exact Hv|lia|].
  rewrite Pos2Z.inj_mul. reflexivity.
Qed.

Lemma F64_mul_one_l (x : f64) : F64.valid x = true -> F64.mul F64.one x = x.
Proof.
  intros Hv. change F64.one with (S754_finite false 4503599627370496 (-52)).
  destruct x as [s|s| |s m e]; cbn [F64.mul SFmul xorb]; try reflexivity.
  replace (-52 + e) with (e - 52) by lia.
  apply round_aux_value; [exact Hv|lia|].
  rewrite Pos2Z.inj_mul. change (2 ^ 52) with 4503599627370496. lia.
Qed.

Lemma F64_valid_int (k : Z) : 0 <= k < 2 ^ 53 -> F64.valid (F64.of_int k) = true.
Proof.
  intros Hk. rewrite F64_of_int_nonneg by lia. destruct k as [|n|n]; try reflexivity.
  apply float_of_pos_bounded. apply digits_le_of_lt; lia.
Qed.

(** [double(x)] of a binary32 number is exact and finite. *)
Lemma f2d_finite (s : bool) (m : positive) (e : Z) :
  bounded 24 128 m e = true ->
  f2d (S754_finite s m e)
  = S754_finite s (int_mantissa 53 m) (e - (53 - Zpos (digits2_pos m))).
Proof.
  intros Hb. destruct (bounded_inv 24 128 m e Hb) as [Hc He].
  unfold fexp, emin in Hc.
  assert (Hd : Zpos (digits2_pos m) <= 24) by lia.
  assert (Hlo : -149 <= e) by lia.
  unfold f2d. change F64.prec with 53. change F64.emax with 1024. apply binary_round_value.
  - unfold bounded, canonical_mantissa, fexp, emin.
    rewrite int_mantissa_digits by lia.
    apply andb_true_iff. split; [apply Z.eqb_eq|apply Z.leb_le]; lia.
  - rewrite Z.min_r by lia. rewrite Z.sub_diag, Z.mul_1_r, int_mantissa_value by lia.
    f_equal. f_equal. lia.
Qed.

(** Rounding never yields a NaN. *)
Lemma shr_1_nonneg r : 0 <= shr_m r -> 0 <= shr_m (shr_1 r).
Proof. destruct r as [[|[p|p|]|p] b c]; cbn; lia. Qed.

Lemma shr_nonneg r e n : 0 <= shr_m r -> 0 <= shr_m (shr r e n).1.
Proof.
  intros H. unfold shr. destruct n as [|p|p]; cbn [fst]; try assumption.
  rewrite iter_pos_iter. apply Pos.iter_invariant; [|assumption].
  intros x Hx. now apply shr_1_nonneg.
Qed.

Lemma binary_round_aux_not_nan prec emax s m e l :
  binary_round_aux prec emax s (Zpos m) e l <> S754_nan.
Proof.
  unfold binary_round_aux, shr_fexp.
  destruct (shr (shr_record_of_loc (Zpos m) l) e _) as [r1 e1] eqn:E1.
  assert (H1 : 0 <= shr_m r1).
  { change r1 with (r1, e1).1. rewrite <- E1. apply shr_nonneg. destruct l as [|[]]; cbn; lia. }
  set (m2 := round_nearest_even (shr_m r1) (loc_of_shr_record r1)).
  assert (H2 : 0 <= m2).
  { unfold m2, round_nearest_even. destruct (loc_of_shr_record r1) as [|[]]; try lia.
    destruct (Z.even (shr_m r1)); lia. }
  destruct (shr (shr_record_of_loc m2 loc_Exact) e1 _) as [r3 e3] eqn:E3.
  assert (H3 : 0 <= shr_m r3).
  { change r3 with (r3, e3).1. rewrite <- E3. apply shr_nonneg. cbn. lia. }
  destruct (shr_m r3) as [|p|p]; try discriminate; [|lia].
  destruct (e3 <=? emax - prec); discriminate.
Qed.

Lemma of_int_not_nan prec emax z : binary_normalize prec emax z 0 false <> S754_nan.
Proof.
  destruct z as [|p|p]; cbn [binary_normalize]; [discriminate| |];
    unfold binary_round; destruct (shl_align _ _ _) as [mz ez]; apply binary_round_aux_not_nan.
Qed.

(** ** Rounding keeps the sign *)

Lemma shr_1_half r : 0 <= shr_m r -> shr_m (shr_1 r) = shr_m r / 2.
Proof.
  destruct r as [[|[p|p|]|p] b c]; cbn [shr_m shr_1]; intros H; try lia; try reflexivity.
  - rewrite Pos2Z.inj_xI. Z.to_euclidean_division_equations. lia.
  - rewrite (Pos2Z.inj_xO p). Z.to_euclidean_division_equations. lia.
Qed.

Lemma shr_iter_div r p :
  0 <= shr_m r -> shr_m (Pos.iter shr_1 r p) = shr_m r / 2 ^ Zpos p.
Proof.
  intros H. induction p as [|p IH] using Pos.peano_ind.
  - cbn [Pos.iter]. now apply shr_1_half.
  - rewrite Pos.iter_succ, shr_1_half, IH.
    + rewrite Pos2Z.inj_succ, Z.pow_succ_r by lia.
      rewrite Z.div_div by (try apply Z.pow_pos_nonneg; lia). f_equal. lia.
    + rewrite IH. apply Z.div_pos; [assumption|apply Z.pow_pos_nonneg; lia].
Qed.

Section Sign.

Variables prec emax : Z.
Hypothesis prec_gt_0 : 0 < prec.

(** With the exponent at or above [emin] the first shift of
    [binary_round_aux] leaves a positive mantissa. *)
Lemma shr_fexp_positive (m : positive) (e : Z) (l : location) :
  emin prec emax <= e ->
  0 < shr_m (shr_fexp prec emax (Zpos m) e l).1 /\
  emin prec emax <= (shr_fexp prec emax (Zpos m) e l).2.
Proof.
  intros He. unfold shr_fexp, shr. cbn [Zdigits2].
  pose proof (digits2_pos_bounds m) as [Hlo Hhi].
  set (d := Zpos (digits2_pos m)) in *.
  destruct (fexp prec emax (d + e) - e) as [|p|p] eqn:E; cbn [fst snd].
  - split; [destruct l as [|[]]; cbn; lia|lia].
  - split; [|lia]. rewrite iter_pos_iter, shr_iter_div by (destruct l as [|[]]; cbn; lia).
    replace (shr_m (shr_record_of_loc (Zpos m) l)) with (Zpos m) by (destruct l as [|[]]; reflexivity).
    assert (Hp : Zpos p <= d - 1) by (unfold fexp in E; lia).
    apply Z.div_str_pos. split; [apply Z.pow_pos_nonneg; lia|].
    assert (2 ^ Zpos p <= 2 ^ (d - 1)) by (apply Z.pow_le_mono_r; lia). lia.
  - split; [destruct l as [|[]]; cbn; lia|lia].
Qed.

Lemma binary_round_aux_signed (s : bool) (m : positive) (e : Z) (l : location) :
  emin prec emax <= e ->
  (exists m' e', binary_round_aux prec emax s (Zpos m) e l = S754_finite s m' e') \/
  binary_round_aux prec emax s (Zpos m) e l = S754_infinity s.
Proof.
  intros He. unfold binary_round_aux.
  destruct (shr_fexp_positive m e l He) as [H1 H1e].
  destruct (shr_fexp prec emax (Zpos m) e l) as [r1 e1]. cbn [fst snd] in H1, H1e.
  set (m2 := round_nearest_even (shr_m r1) (loc_of_shr_record r1)).
  assert (H2 : 0 < m2).
  { unfold m2, round_nearest_even. destruct (loc_of_shr_record r1) as [|[]]; try lia.
    destruct (Z.even (shr_m r1)); lia. }
  destruct m2 as [|m2|m2]; try lia.
  destruct (shr_fexp_positive m2 e1 loc_Exact H1e) as [H3 _].
  destruct (shr_fexp prec emax (Zpos m2) e1 loc_Exact) as [r3 e3]. cbn [fst snd] in H3.
  destruct (shr_m r3) as [|m3|m3]; try lia.
  destruct (e3 <=? emax - prec); [left; eauto|now right].
Qed.

Lemma binary_round_signed (s : bool) (m : positive) (e : Z) :
  emin prec emax <= e ->
  (exists m' e', binary_round prec emax s m e = S754_finite s m' e') \/
  binary_round prec emax s m e = S754_infinity s.
Proof.
  intros He. unfold binary_round.
  destruct (shl_align m e (fexp prec emax (Zpos (digits2_pos m) + e))) as [mz ez] eqn:E.
  apply binary_round_aux_signed.
  unfold shl_align in E. destruct (fexp prec emax _ - e) as [|k|k] eqn:Ek; injection E as <- <-;
    try lia. unfold fexp. lia.
Qed.

End Sign.

(** [double(z)] of a negative integer is below zero, of a positive one above. *)
Lemma F64_of_int_neg_lt (z : Z) : z < 0 -> flt (F64.of_int z) F64.zero = true.
Proof.
  intros Hz. destruct z as [|p|p]; try lia. unfold F64.of_int, binary_normalize, F64.prec, F64.emax.
  destruct (binary_round_signed 53 1024 ltac:(lia) true p 0) as [(m' & e' & ->)| ->];
    [vm_compute; discriminate|reflexivity..].
Qed.

Lemma F64_of_int_nonneg_ge (z : Z) : 0 <= z -> flt (F64.of_int z) F64.zero = false.
Proof.
  intros Hz. destruct z as [|p|p]; try lia; [reflexivity|]. unfold F64.of_int, binary_normalize, F64.prec, F64.emax.
  destruct (binary_round_signed 53 1024 ltac:(lia) false p 0) as [(m' & e' & ->)| ->];
    [vm_compute; discriminate|reflexivity..].
Qed.

Lemma F64_of_int_zero_iff (z : Z) :
  (exists s, F64.of_int z = S754_zero s) -> F64.of_int z = S754_zero false.
Proof.
  intros [s H]. destruct z as [|p|p]; [reflexivity| |]; exfalso; revert H;
    unfold F64.of_int, binary_normalize, F64.prec, F64.emax.
  - destruct (binary_round_signed 53 1024 ltac:(lia) false p 0) as [(m' & e' & ->)| ->];
      [vm_compute; discriminate|discriminate..].
  - destruct (binary_round_signed 53 1024 ltac:(lia) true p 0) as [(m' & e' & ->)| ->];
      [vm_compute; discriminate|discriminate..].
Qed.

(** ** Stale handles *)

Section StaleHandles.

Variable sign : f32 -> f32.

Lemma update_voice_stale st h f :
  is_handle_valid (playing_sounds st) h = false -> update_voice st h f = st.
Proof. intros H. unfold update_voice, handle_to_index. now rewrite H. Qed.

Lemma is_handle_valid_lookup vs h :
  is_handle_valid vs h = true ->
  exists v, vs !! Z.to_nat (Z.land h PLAYING_SOUNDS_MASK) = Some v /\
            uint32 (version v) = Z.land h (uint32 (Z.lnot PLAYING_SOUNDS_MASK)) /\
            0 < Z.land h PLAYING_SOUNDS_MASK.
Proof.
  unfold is_handle_valid. destruct (vs !! _) as [v|]; [|discriminate].
  intros [H1 H2]%andb_true_iff. exists v. split; [reflexivity|]. lia.
Qed.

(** After the version of the slot has moved on by 128 the handle no
    longer resolves. *)
Lemma advanced_version_invalid vs h v v' :
  vs !! Z.to_nat (Z.land h PLAYING_SOUNDS_MASK) = Some v' ->
  uint32 (version v) = Z.land h (uint32 (Z.lnot PLAYING_SOUNDS_MASK)) ->
  version v' = int32 (version v + MAX_PLAYING_SOUNDS) ->
  is_handle_valid vs h = false.
Proof.
  intros Hl Hv Hv'. unfold is_handle_valid. rewrite Hl, Hv', uint32_int32, <- Hv.
  unfold uint32, wrap_u, MAX_PLAYING_SOUNDS. change (2 ^ 32) with 4294967296.
  apply andb_false_iff. left. apply Z.eqb_neq.
  Z.to_euclidean_division_equations. lia.
Qed.

(** C1, as the code has it.  If [h] is valid and its voice holds an
    asset and is not in stop-fade, [stop_sound h] advances the version of
    that voice by 128 (as a 32-bit [int]) and [h] is no longer valid;
    afterwards [set_sound_pitch], [set_sound_volume], [set_sound_pan],
    [set_sound_play_pos] and [stop_sound] with [h] leave the whole state
    unchanged, [get_sound_play_pos h] is 0 and [is_playing h] is false. *)
Theorem stop_sound_invalidates st h v a :
  is_handle_valid (playing_sounds st) h = true ->
  playing_sounds st !! Z.to_nat (Z.land h PLAYING_SOUNDS_MASK) = Some v ->
  sound v = Some a ->
  stopMode v = false ->
  (exists v',
      playing_sounds (stop_sound sign st h) !! Z.to_nat (Z.land h PLAYING_SOUNDS_MASK) = Some v' /\
      version v' = int32 (version v + MAX_PLAYING_SOUNDS) /\
      (INT_MIN <= version v <= INT_MAX - MAX_PLAYING_SOUNDS ->
       version v' = version v + MAX_PLAYING_SOUNDS)) /\
  is_handle_valid (playing_sounds (stop_sound sign st h)) h = false /\
  (forall x, set_sound_pitch (stop_sound sign st h) h x = stop_sound sign st h) /\
  (forall x, set_sound_volume (stop_sound sign st h) h x = stop_sound sign st h) /\
  (forall x, set_sound_pan (stop_sound sign st h) h x = stop_sound sign st h) /\
  (forall x, set_sound_play_pos (stop_sound sign st h) h x = stop_sound sign st h) /\
  stop_sound sign (stop_sound sign st h) h = stop_sound sign st h /\
  get_sound_play_pos (stop_sound sign st h) h = F32.zero /\
  is_playing (stop_sound sign st h) h = false.
Proof.
  intros Hvalid Hl Hs Hm.
  destruct (is_handle_valid_lookup _ _ Hvalid) as (v0 & Hl0 & Hver & Hidx).
  rewrite Hl in Hl0. injection Hl0 as <-.
  destruct (setStopMode_live sign (assets st) v a Hs Hm) as (Hv' & _).
  assert (Hl' : playing_sounds (stop_sound sign st h) !! Z.to_nat (Z.land h PLAYING_SOUNDS_MASK)
                = Some (setStopMode sign (assets st) v)).
  { unfold stop_sound, update_voice, handle_to_index. rewrite Hvalid. cbn.
    rewrite list_lookup_alter_eq, Hl. cbn. now rewrite Hs, Hm. }
  assert (Hinv : is_handle_valid (playing_sounds (stop_sound sign st h)) h = false).
  { eapply advanced_version_invalid; eauto. }
  split.
  { eexists. split; [exact Hl'|]. split; [exact Hv'|].
    intros Hr. rewrite Hv'. apply int32_small. unfold MAX_PLAYING_SOUNDS in *. lia. }
  split; [exact Hinv|].
  repeat split; intros;
    try (unfold set_sound_pitch, set_sound_volume, set_sound_pan, set_sound_play_pos, stop_sound at 1;
         now apply update_voice_stale).
  - unfold get_sound_play_pos, handle_to_index. now rewrite Hinv.
  - unfold is_playing, handle_to_index. now rewrite Hinv.
Qed.

End StaleHandles.

(** C1 as stated fails: in the initial state the handle 5 is valid (slot 5
    has version 0), its slot is empty, and [stop_sound] returns at its
    guard: the version is not advanced, the handle stays valid and
    [is_playing] answers true. *)
Lemma stop_sound_keeps_handle_of_empty_slot :
  is_handle_valid (playing_sounds initialize) 5 = true /\
  stop_sound sign_ref initialize 5 = initialize /\
  is_handle_valid (playing_sounds (stop_sound sign_ref initialize 5)) 5 = true /\
  is_playing (stop_sound sign_ref initialize 5) 5 = true.
Proof. vm_compute. repeat split. Qed.

(** The amended statement at the handle returned for scenario S1. *)
Lemma stop_sound_invalidates_S1 :
  is_handle_valid (playing_sounds playing_S1) handle_S1 = true /\
  is_handle_valid (playing_sounds (stop_sound sign_ref playing_S1 handle_S1)) handle_S1 = false /\
  is_playing (stop_sound sign_ref playing_S1 handle_S1) handle_S1 = false.
Proof.
  assert (Hv : is_handle_valid (playing_sounds playing_S1) handle_S1 = true)
    by (vm_compute; reflexivity).
  split; [exact Hv|].
  eassert (Hl : playing_sounds playing_S1 !! Z.to_nat (Z.land handle_S1 PLAYING_SOUNDS_MASK) = Some _)
    by (vm_compute; reflexivity).
  pose proof (stop_sound_invalidates sign_ref playing_S1 handle_S1 _ 7%nat Hv Hl eq_refl eq_refl) as H.
  split; [apply H | apply H].
Defined.

(** C10 at the voice of scenario S1 after it was stopped: a second
    [setStopMode] leaves it as it is. *)
Lemma setStopMode_idempotent_S1 :
  stopMode stopped_voice_S1 = true /\
  setStopMode sign_ref (assets stopped_S1) stopped_voice_S1 = stopped_voice_S1 /\
  version (setStopMode sign_ref (assets stopped_S1) stopped_voice_S1) = 256.
Proof.
  assert (Hm : stopMode stopped_voice_S1 = true) by (vm_compute; reflexivity).
  split; [exact Hm|].
  destruct (setStopMode_idempotent sign_ref (assets stopped_S1) stopped_voice_S1 (or_introl Hm))
    as (E & Hver & _).
  split.
  - rewrite E. vm_compute. reflexivity.
  - rewrite Hver. vm_compute. reflexivity.
Defined.

(** ** Allocation and [play_sound_internal] *)

Lemma scan_empty_Some vs i n j :
  scan_empty vs i n = Some j ->
  (i <= j < i + n)%nat /\ exists v, vs !! j = Some v /\ isEmpty v = true.
Proof.
  revert i. induction n as [|n IH]; intros i; cbn; [discriminate|].
  destruct (vs !! i) as [v|] eqn:Hv; [|discriminate].
  destruct (isEmpty v) eqn:He.
  - intros [= <-]. split; [lia|eauto].
  - intros H. destruct (IH _ H) as [? ?]. split; [lia|assumption].
Qed.

Lemma scan_empty_None vs i n :
  scan_empty vs i n = None <->
  (forall j v, (i <= j < i + n)%nat -> vs !! j = Some v -> isEmpty v = false).
Proof.
  revert i. induction n as [|n IH]; intros i; cbn.
  - split; [intros _ j v ?; lia|reflexivity].
  - destruct (vs !! i) as [v|] eqn:Hv.
    + destruct (isEmpty v) eqn:He.
      * split; [discriminate|]. intros H. specialize (H i v). rewrite H in He; [discriminate|lia|assumption].
      * rewrite IH. split; intros H j w Hj Hw.
        -- destruct (decide (j = i)) as [->|]; [congruence|]. apply (H j w); [lia|assumption].
        -- apply (H j w); [lia|assumption].
    + split; [|reflexivity]. intros _ j w Hj Hw.
      assert (i < length vs)%nat; [|apply lookup_ge_None in Hv; lia].
      apply lookup_lt_Some in Hw. lia.
Qed.

Lemma allocate_None vs :
  (allocate_playing_sound vs).1 = None <-> pool_full vs.
Proof.
  unfold allocate_playing_sound, pool_full.
  destruct (scan_empty vs 1 _) as [j|] eqn:E; cbn.
  - split; [discriminate|]. intros H.
    destruct (scan_empty_Some _ _ _ _ E) as (Hj & v & Hv & He).
    rewrite (H j v) in He; [discriminate| |assumption].
    change (Z.to_nat MAX_PLAYING_SOUNDS) with 128%nat in Hj. lia.
  - split; [|reflexivity]. intros _. pose proof (proj1 (scan_empty_None _ _ _) E) as E'.
    intros i v Hi. apply E'. change (Z.to_nat MAX_PLAYING_SOUNDS) with 128%nat. lia.
Qed.

Lemma allocate_Some vs idx :
  (allocate_playing_sound vs).1 = Some idx ->
  (1 <= idx < 128)%nat /\
  exists v, vs !! idx = Some v /\ isEmpty v = true /\
    (allocate_playing_sound vs).2 =
      alter (λ v, set_version (int32 (version v + MAX_PLAYING_SOUNDS)) v) idx vs.
Proof.
  unfold allocate_playing_sound.
  destruct (scan_empty vs 1 _) as [j|] eqn:E; cbn; [|discriminate].
  intros [= ->]. destruct (scan_empty_Some _ _ _ _ E) as (Hj & v & Hv & He).
  change (Z.to_nat MAX_PLAYING_SOUNDS) with 128%nat in Hj.
  split; [lia|]. eauto.
Qed.

(** The voice that a successful [play_sound_internal] writes, field by
    field. *)
Lemma play_success st a vol pit pn t0 t1 lp df idx :
  (allocate_playing_sound (playing_sounds st)).1 = Some idx ->
  2 < PcmSound.samples (target (assets st) a) ->
  exists v v',
    playing_sounds st !! idx = Some v /\ isEmpty v = true /\
    playing_sounds (play_sound_internal st a vol pit pn t0 t1 lp df).1 !! idx = Some v' /\
    (play_sound_internal st a vol pit pn t0 t1 lp df).2 = uint32 (Z.lor (Z.of_nat idx) (version v')) /\
    master_volume (play_sound_internal st a vol pit pn t0 t1 lp df).1 = master_volume st /\
    version v' = int32 (version v + MAX_PLAYING_SOUNDS) /\
    sound v' = Some a /\
    pitch v' = clamp pit c_0_00001 (F32.of_int 1000) /\
    pan v' = clamp pn (SFopp F32.one) F32.one /\
    volume v' = clamp vol F32.zero (F32.of_int 100000) /\
    volumeL v' = F32.mul (F32.mul (master_volume st) (volume v'))
                   (fmin (F32.add F32.one (pan v')) F32.one) /\
    volumeR v' = F32.mul (F32.mul (master_volume st) (volume v'))
                   (fmin (F32.sub F32.one (pan v')) F32.one) /\
    startPos v' =
      clamp (F64.of_int (f2i64 (F32.mul t0 (F32.of_int (PcmSound.frequency (target (assets st) a))))))
        F64.zero (F64.of_int (int32 (PcmSound.samples (target (assets st) a) - 1))) /\
    stopPos v' =
      clamp (F64.of_int (f2i64 (F32.mul t1 (F32.of_int (PcmSound.frequency (target (assets st) a))))))
        (startPos v') (F64.of_int (int32 (PcmSound.samples (target (assets st) a) - 1))) /\
    pos v' =
      (if flt df F32.zero
       then fmin (F64.of_int (f2i (F32.mul (SFopp df)
                                     (F32.of_int (PcmSound.frequency (target (assets st) a))))))
              (stopPos v')
       else startPos v') /\
    timeToStart v' = f2d (fmax df F32.zero) /\
    waitingStart v' = fne (timeToStart v') F64.zero /\
    stopMode v' = false /\ loop v' = lp /\
    channels v' = PcmSound.channels (target (assets st) a).
Proof.
  intros Ha Hs. destruct (allocate_Some _ _ Ha) as (Hi & v & Hv & He & Hvs).
  unfold play_sound_internal.
  destruct (allocate_playing_sound (playing_sounds st)) as [o vs] eqn:E. cbn in Ha, Hvs. subst o vs.
  apply Z.leb_gt in Hs. rewrite Hs. cbn [fst snd].
  assert (Hlen : (idx < length (playing_sounds st))%nat) by (eapply lookup_lt_Some; eauto).
  rewrite list_lookup_alter_eq, Hv. cbn [fmap option_fmap option_map default].
  eexists v, _. split; [reflexivity|]. split; [assumption|].
  split. { cbn. apply list_lookup_insert_eq. now rewrite length_alter. }
  cbn. repeat split.
Qed.

Lemma zero_handle_invalid vs : is_handle_valid vs no_handle = false.
Proof.
  unfold is_handle_valid, no_handle. change (Z.land 0 PLAYING_SOUNDS_MASK) with 0.
  destruct (vs !! Z.to_nat 0); [apply andb_false_r|reflexivity].
Qed.

Lemma issued_handle_resolves vs idx v' :
  (1 <= idx < 128)%nat -> vs !! idx = Some v' -> version v' mod 128 = 0 ->
  handle_to_index vs (uint32 (Z.lor (Z.of_nat idx) (version v'))) = Some idx.
Proof.
  intros Hi Hv Hal.
  destruct (handle_bits (Z.of_nat idx) (version v')) as [Hlo Hhi]; [lia|assumption|].
  unfold handle_to_index, is_handle_valid. rewrite Hlo, Hhi, Nat2Z.id, Hv.
  rewrite Z.eqb_refl. cbn. destruct (0 <? Z.of_nat idx) eqn:E; [reflexivity|].
  apply Z.ltb_ge in E. lia.
Qed.

(** C9. [play_sound_internal] returns an invalid handle exactly when no
    slot is free or the asset has fewer than 3 samples; in every other case
    the handle it returns resolves to the slot that was allocated. *)
Theorem play_handle_valid_iff st a vol pit pn t0 t1 lp df :
  versions_aligned (playing_sounds st) ->
  (is_handle_valid (playing_sounds (play_sound_internal st a vol pit pn t0 t1 lp df).1)
     (play_sound_internal st a vol pit pn t0 t1 lp df).2 = false
   <-> pool_full (playing_sounds st) \/ PcmSound.samples (target (assets st) a) < 3) /\
  (forall idx,
      (allocate_playing_sound (playing_sounds st)).1 = Some idx ->
      2 < PcmSound.samples (target (assets st) a) ->
      handle_to_index (playing_sounds (play_sound_internal st a vol pit pn t0 t1 lp df).1)
        (play_sound_internal st a vol pit pn t0 t1 lp df).2 = Some idx).
Proof.
  intros Hal.
  assert (Hok : forall idx,
      (allocate_playing_sound (playing_sounds st)).1 = Some idx ->
      2 < PcmSound.samples (target (assets st) a) ->
      handle_to_index (playing_sounds (play_sound_internal st a vol pit pn t0 t1 lp df).1)
        (play_sound_internal st a vol pit pn t0 t1 lp df).2 = Some idx).
  { intros idx Ha Hs.
    destruct (play_success st a vol pit pn t0 t1 lp df idx Ha Hs)
      as (v & v' & Hv & _ & Hv' & -> & _ & Hver & _).
    destruct (allocate_Some _ _ Ha) as (Hi & _).
    apply issued_handle_resolves; [assumption..|].
    rewrite Hver. apply int32_mod_128.
    unfold versions_aligned in Hal. rewrite Forall_lookup in Hal. specialize (Hal _ _ Hv).
    unfold MAX_PLAYING_SOUNDS. cbn in Hal. Z.to_euclidean_division_equations. lia. }
  split; [|exact Hok].
  destruct (allocate_playing_sound (playing_sounds st)).1 as [idx|] eqn:Ha.
  - destruct (Z.lt_ge_cases 2 (PcmSound.samples (target (assets st) a))) as [Hs|Hs].
    + specialize (Hok idx eq_refl Hs). unfold handle_to_index in Hok.
      destruct (is_handle_valid _ _); [|discriminate].
      split; [discriminate|]. intros [Hf|Hlt]; [|lia].
      apply allocate_None in Hf. congruence.
    + split; [right; lia|intros _].
      unfold play_sound_internal.
      destruct (allocate_playing_sound (playing_sounds st)) as [o vs]. cbn in Ha. subst o.
      apply Z.leb_le in Hs. rewrite Hs. apply zero_handle_invalid.
  - split; [intros _; left; now apply allocate_None|intros _].
    unfold play_sound_internal.
    destruct (allocate_playing_sound (playing_sounds st)) as [o vs]. cbn in Ha. subst o.
    apply zero_handle_invalid.
Qed.

Lemma versions_aligned_initialize : versions_aligned (playing_sounds initialize).
Proof. apply Forall_replicate. reflexivity. Qed.

(** C9 at scenario S1: the first play on the initial table. *)
Lemma play_handle_valid_S1 :
  versions_aligned (playing_sounds state_S1) /\
  handle_to_index (playing_sounds playing_S1) handle_S1 = Some 1%nat.
Proof.
  assert (H : versions_aligned (playing_sounds state_S1)) by exact versions_aligned_initialize.
  split; [exact H|].
  refine (proj2 (play_handle_valid_iff state_S1 7 F32.one F32.one F32.zero F32.zero
                   (F32.of_int 1000000) false F32.zero H) 1%nat _ _);
    vm_compute; reflexivity.
Defined.


(** ** Frame positions of [play_sound_internal] *)

(** Truncation and floor of a finite value differ only below zero. *)
Lemma trunc_floor (p : spec_float) (zt zf : Z) :
  SFtrunc p = Some zt -> SFfloor p = Some zf ->
  zt = zf \/ (zf < 0 /\ zf <= zt <= 0).
Proof.
  destruct p as [s|s| |[] m e]; cbn; try discriminate; intros [= <-] [= <-]; auto.
  right. destruct (Z.le_gt_cases 0 e) as [He|He].
  - rewrite !Z.shiftl_mul_pow2 by assumption.
    assert (0 < 2 ^ e) by (apply Z.pow_pos_nonneg; lia). nia.
  - rewrite !Z.shiftl_div_pow2 by lia.
    assert (0 < 2 ^ (- e)) by (apply Z.pow_pos_nonneg; lia).
    generalize dependent (2 ^ (- e)). intros P HP.
    Z.to_euclidean_division_equations. nia.
Qed.

Lemma f2i64_in_range (p : spec_float) (z : Z) :
  SFtrunc p = Some z -> INT64_MIN <= z <= INT64_MAX -> f2i64 p = z.
Proof.
  intros Hp Hz. unfold f2i64. rewrite Hp.
  replace ((INT64_MIN <=? z) && (z <=? INT64_MAX)) with true; [reflexivity|].
  symmetry. apply andb_true_iff. split; apply Z.leb_le; lia.
Qed.

(** A value below zero is below every value that is at least zero. *)
Lemma flt_neg_nonneg (x lo : spec_float) :
  flt x F64.zero = true -> fle F64.zero lo = true -> flt x lo = true.
Proof.
  unfold flt, fle, SFltb, SFleb, F64.zero.
  destruct x as [[]|[]| |[] m e], lo as [[]|[]| |[] m' e']; cbn; congruence.
Qed.

Lemma fle_zero_not_lt (lo : spec_float) :
  fle F64.zero lo = true -> flt F64.zero lo = false -> exists s, lo = S754_zero s.
Proof.
  unfold flt, fle, SFltb, SFleb, F64.zero.
  destruct lo as [s|[]| |[] m' e']; cbn; try congruence. eauto.
Qed.

Lemma f2i64_out_of_range (p : spec_float) :
  (forall z, SFtrunc p = Some z -> z < INT64_MIN \/ INT64_MAX < z) -> f2i64 p = INT64_MIN.
Proof.
  intros H. unfold f2i64. destruct (SFtrunc p) as [z|]; [|reflexivity].
  destruct (H z eq_refl) as [Hz|Hz].
  - replace (INT64_MIN <=? z) with false by (symmetry; apply Z.leb_gt; lia). reflexivity.
  - replace (z <=? INT64_MAX) with false by (symmetry; apply Z.leb_gt; lia).
    now rewrite andb_false_r.
Qed.

(** With [lo] at least zero, clamping the truncated and the floored value
    give the same. *)
Lemma clamp_trunc_floor (p lo hi : spec_float) (zt zf : Z) :
  SFtrunc p = Some zt -> SFfloor p = Some zf ->
  INT64_MIN <= zt <= INT64_MAX ->
  fle F64.zero lo = true ->
  ((exists s, lo = S754_zero s) -> lo = S754_zero false) ->
  flt hi F64.zero = false ->
  clamp (F64.of_int (f2i64 p)) lo hi = clamp (F64.of_int zf) lo hi.
Proof.
  intros Ht Hf Hr Hlo Hz Hhi.
  rewrite (f2i64_in_range p zt) by assumption.
  destruct (trunc_floor p zt zf Ht Hf) as [->|(Hneg & Hle & Hle')]; [reflexivity|].
  assert (E : clamp (F64.of_int zf) lo hi = lo).
  { unfold clamp. now rewrite (flt_neg_nonneg _ lo (F64_of_int_neg_lt zf Hneg) Hlo). }
  rewrite E. destruct (Z.eq_dec zt 0) as [->|Hne].
  - change (F64.of_int 0) with F64.zero. unfold clamp.
    destruct (flt F64.zero lo) eqn:E1; [reflexivity|].
    rewrite Hhi. symmetry. apply Hz. now apply fle_zero_not_lt.
  - unfold clamp. rewrite (flt_neg_nonneg _ lo (F64_of_int_neg_lt zt ltac:(lia)) Hlo).
    reflexivity.
Qed.

Lemma clamp_zero_false (v lo hi : spec_float) :
  ((exists s, v = S754_zero s) -> v = S754_zero false) ->
  ((exists s, lo = S754_zero s) -> lo = S754_zero false) ->
  ((exists s, hi = S754_zero s) -> hi = S754_zero false) ->
  (exists s, clamp v lo hi = S754_zero s) -> clamp v lo hi = S754_zero false.
Proof. unfold clamp. destruct (flt v lo); [auto|]. destruct (flt hi v); auto. Qed.

Lemma clamp_nan lo hi : clamp S754_nan lo hi = S754_nan.
Proof. unfold clamp, flt, SFltb. cbn. now destruct hi. Qed.

Lemma clamp_below (z : Z) lo hi :
  z < 0 -> fle F64.zero lo = true -> clamp (F64.of_int z) lo hi = lo.
Proof.
  intros Hz Hlo. unfold clamp. now rewrite (flt_neg_nonneg _ lo (F64_of_int_neg_lt z Hz) Hlo).
Qed.

(** The frame positions of a successful play are ordered, whatever the
    arguments. *)
Lemma play_positions_ordered st a vol pit pn t0 t1 lp df idx v' :
  (allocate_playing_sound (playing_sounds st)).1 = Some idx ->
  2 < PcmSound.samples (target (assets st) a) <= INT_MAX ->
  playing_sounds (play_sound_internal st a vol pit pn t0 t1 lp df).1 !! idx = Some v' ->
  fle F64.zero (startPos v') = true /\
  fle (startPos v') (stopPos v') = true /\
  fle (stopPos v') (F64.of_int (PcmSound.samples (target (assets st) a) - 1)) = true.
Proof.
  intros Ha Hs Hl.
  destruct (play_success st a vol pit pn t0 t1 lp df idx Ha (proj1 Hs))
    as (v & w & _ & _ & Hv' & _ & _ & _ & _ & _ & _ & _ & _ & _ & Hstart & Hstop & _).
  rewrite Hl in Hv'. injection Hv' as <-.
  set (S := PcmSound.samples (target (assets st) a)) in *.
  rewrite (int32_small (S - 1)) in Hstart, Hstop by (unfold INT_MIN, INT_MAX in *; lia).
  set (last := F64.of_int (S - 1)) in *.
  assert (Hrange : 0 <= S - 1 < 2 ^ 53).
  { unfold INT_MAX in Hs. change (2 ^ 31) with 2147483648 in Hs.
    change (2 ^ 53) with 9007199254740992. lia. }
  assert (Hlast : fle F64.zero last = true).
  { change F64.zero with (F64.of_int 0). unfold last. rewrite fle_int by lia.
    apply Z.leb_le. lia. }
  destruct (clamp_bounds (F64.of_int (f2i64 (F32.mul t0
              (F32.of_int (PcmSound.frequency (target (assets st) a)))))) F64.zero last)
    as (H1 & H2 & H3); [apply of_int_not_nan|exact Hlast|].
  rewrite <- Hstart in H1, H2, H3.
  destruct (clamp_bounds (F64.of_int (f2i64 (F32.mul t1
              (F32.of_int (PcmSound.frequency (target (assets st) a)))))) (startPos v') last)
    as (H4 & H5 & H6); [apply of_int_not_nan|exact H2|].
  rewrite <- Hstop in H4, H5, H6.
  auto.
Qed.

(** C8, as the code has it.  A successful play stores [pitch], [pan] and
    [volume] as [clamp] leaves them: inside [1e-5, 1000], [-1, 1] and
    [0, 1e5] for every argument other than NaN, and NaN for a NaN
    argument.  [startPos] and [stopPos] always satisfy [0 <= startPos <=
    stopPos <= samples - 1].  When the product [t * frequency] cut to a whole
    number fits [int64_t], they are [floor(t * frequency)] clamped to
    [0, samples - 1] and to [startPos, samples - 1]; when the product is
    NaN, infinite or outside [int64_t], the conversion gives the smallest
    [int64_t], so [startPos] is 0 and [stopPos] is [startPos]. *)
Theorem play_clamps_inputs st a vol pit pn t0 t1 lp df idx :
  (allocate_playing_sound (playing_sounds st)).1 = Some idx ->
  2 < PcmSound.samples (target (assets st) a) <= INT_MAX ->
  exists v',
    playing_sounds (play_sound_internal st a vol pit pn t0 t1 lp df).1 !! idx = Some v' /\
    pitch v' = clamp pit c_0_00001 (F32.of_int 1000) /\
    pan v' = clamp pn (SFopp F32.one) F32.one /\
    volume v' = clamp vol F32.zero (F32.of_int 100000) /\
    (pit <> S754_nan ->
     fle c_0_00001 (pitch v') = true /\ fle (pitch v') (F32.of_int 1000) = true) /\
    (pn <> S754_nan ->
     fle (SFopp F32.one) (pan v') = true /\ fle (pan v') F32.one = true) /\
    (vol <> S754_nan ->
     fle F32.zero (volume v') = true /\ fle (volume v') (F32.of_int 100000) = true) /\
    (pit = S754_nan -> pitch v' = S754_nan) /\
    (pn = S754_nan -> pan v' = S754_nan) /\
    (vol = S754_nan -> volume v' = S754_nan) /\
    fle F64.zero (startPos v') = true /\
    fle (startPos v') (stopPos v') = true /\
    fle (stopPos v') (F64.of_int (PcmSound.samples (target (assets st) a) - 1)) = true /\
    (forall zt zf,
        SFtrunc (F32.mul t0 (F32.of_int (PcmSound.frequency (target (assets st) a)))) = Some zt ->
        INT64_MIN <= zt <= INT64_MAX ->
        SFfloor (F32.mul t0 (F32.of_int (PcmSound.frequency (target (assets st) a)))) = Some zf ->
        startPos v' =
          clamp (F64.of_int zf) F64.zero
            (F64.of_int (PcmSound.samples (target (assets st) a) - 1))) /\
    (forall zt zf,
        SFtrunc (F32.mul t1 (F32.of_int (PcmSound.frequency (target (assets st) a)))) = Some zt ->
        INT64_MIN <= zt <= INT64_MAX ->
        SFfloor (F32.mul t1 (F32.of_int (PcmSound.frequency (target (assets st) a)))) = Some zf ->
        stopPos v' =
          clamp (F64.of_int zf) (startPos v')
            (F64.of_int (PcmSound.samples (target (assets st) a) - 1))) /\
    ((forall zt,
        SFtrunc (F32.mul t0 (F32.of_int (PcmSound.frequency (target (assets st) a)))) = Some zt ->
        zt < INT64_MIN \/ INT64_MAX < zt) ->
     startPos v' = F64.zero) /\
    ((forall zt,
        SFtrunc (F32.mul t1 (F32.of_int (PcmSound.frequency (target (assets st) a)))) = Some zt ->
        zt < INT64_MIN \/ INT64_MAX < zt) ->
     stopPos v' = startPos v').
Proof.
  intros Ha Hs.
  destruct (play_success st a vol pit pn t0 t1 lp df idx Ha (proj1 Hs))
    as (v & v' & _ & _ & Hv' & _ & _ & _ & _ & Hpit & Hpan & Hvol & _ & _ & Hstart & Hstop & _).
  destruct (play_positions_ordered st a vol pit pn t0 t1 lp df idx v' Ha Hs Hv')
    as (H1 & H4 & H5).
  set (S := PcmSound.samples (target (assets st) a)) in *.
  rewrite (int32_small (S - 1)) in Hstart, Hstop by (unfold INT_MIN, INT_MAX in *; lia).
  set (last := F64.of_int (S - 1)) in *.
  assert (Hlast' : flt last F64.zero = false) by (apply F64_of_int_nonneg_ge; lia).
  exists v'. split; [exact Hv'|]. split; [exact Hpit|]. split; [exact Hpan|].
  split; [exact Hvol|].
  split. { intros Hn. rewrite Hpit. split; eapply clamp_bounds; (exact Hn || reflexivity). }
  split. { intros Hn. rewrite Hpan. split; eapply clamp_bounds; (exact Hn || reflexivity). }
  split. { intros Hn. rewrite Hvol. split; eapply clamp_bounds; (exact Hn || reflexivity). }
  split. { intros ->. rewrite Hpit. apply clamp_nan. }
  split. { intros ->. rewrite Hpan. apply clamp_nan. }
  split. { intros ->. rewrite Hvol. apply clamp_nan. }
  split; [exact H1|]. split; [exact H4|]. split; [exact H5|].
  split; [|split; [|split]].
  - intros zt zf Ht Hr Hf. rewrite Hstart. eapply clamp_trunc_floor; eauto.
  - intros zt zf Ht Hr Hf. rewrite Hstop. eapply clamp_trunc_floor; eauto.
    rewrite Hstart. apply clamp_zero_false; try (apply F64_of_int_zero_iff). auto.
  - intros Hout. rewrite Hstart, (f2i64_out_of_range _ Hout).
    apply clamp_below; [reflexivity|reflexivity].
  - intros Hout. rewrite Hstop, (f2i64_out_of_range _ Hout).
    apply clamp_below; [reflexivity|exact H1].
Qed.

(** C8 as stated fails for arguments that are not ordinary numbers: a NaN
    pitch is stored as NaN, inside no interval, and with the end time
    [1e30] the product [end_time * 48000] does not fit [int64_t], so that
    [stopPos] is 0 where [floor(end_time * frequency)] clamped to
    [0, samples - 1] is 999. *)
Lemma play_keeps_nan_and_loses_far_end :
  let t1 := F32.of_int (10 ^ 30) in
  let r := play_sound_internal state_S1 7 F32.one S754_nan F32.zero F32.zero t1 false F32.zero in
  exists v' zf, playing_sounds r.1 !! 1%nat = Some v' /\
    pitch v' = S754_nan /\
    fle c_0_00001 (pitch v') = false /\ fle (pitch v') (F32.of_int 1000) = false /\
    SFfloor (F32.mul t1 (F32.of_int 48000)) = Some zf /\
    clamp (F64.of_int zf) F64.zero (F64.of_int 999) = F64.of_int 999 /\
    stopPos v' = F64.zero.
Proof.
  cbv zeta. eexists. eexists. split; [vm_compute; reflexivity|].
  split; [vm_compute; reflexivity|]. split; [vm_compute; reflexivity|].
  split; [vm_compute; reflexivity|]. split; [vm_compute; reflexivity|].
  split; vm_compute; reflexivity.
Qed.

(** C8 at scenario S1: start 0, end far behind the last frame. *)
Lemma play_clamps_inputs_S1 :
  exists v', playing_sounds playing_S1 !! 1%nat = Some v' /\
    pitch v' = F32.one /\ startPos v' = F64.zero /\ stopPos v' = F64.of_int 999.
Proof.
  destruct (play_clamps_inputs state_S1 7 F32.one F32.one F32.zero F32.zero
              (F32.of_int 1000000) false F32.zero 1%nat)
    as (v' & Hv & Hp & _ & _ & _ & _ & _ & _ & _ & _ & _ & _ & _ & H0 & H1 & _);
    [vm_compute; reflexivity | vm_compute; split; congruence |].
  exists v'. split; [exact Hv|]. split; [rewrite Hp; vm_compute; reflexivity|].
  assert (E0 : startPos v' = F64.zero).
  { rewrite (H0 0 0); [vm_compute; reflexivity.. | | vm_compute; reflexivity].
    vm_compute; split; congruence. }
  split; [exact E0|].
  rewrite (H1 48000000000 48000000000), E0;
    [vm_compute; reflexivity.. | | vm_compute; reflexivity].
  vm_compute; split; congruence.
Defined.


(** ** Deferred start *)

Lemma flt_asym x y : flt x y = true -> flt y x = false.
Proof.
  unfold flt, SFltb. rewrite (SFcompare_swap x y).
  now destruct (SFcompare x y) as [[]|].
Qed.

(** A positive binary32 number is not zero as a double. *)
Lemma f2d_positive (x : f32) :
  F32.valid x = true -> flt F32.zero x = true -> fne (f2d x) F64.zero = true.
Proof.
  intros Hv Hx. destruct x as [s|[]| |[] m e]; try discriminate; try reflexivity.
  now rewrite f2d_finite.
Qed.

Section Deferred.

Variable sign : f32 -> f32.
Variable lerp : f32 -> f32 -> f32 -> f32.

Lemma general_mono_wait_run σ d wL wR adv inv v mix :
  general_mono sign lerp σ d wL wR adv inv v mix =
  (let '(v1, k) := wait_run inv v (length mix) in
   let '(v2, out) := general_mono sign lerp σ d wL wR adv inv v1 (drop k mix) in
   (v2, take k mix ++ out)).
Proof.
  revert v. induction mix as [|[l r] rest IH]; intros v.
  - reflexivity.
  - cbn [length wait_run]. destruct (waitingStart v) eqn:Hw.
    + cbn [general_mono]. rewrite Hw. rewrite (IH (wait_step inv v)).
      destruct (wait_run inv (wait_step inv v) (length rest)) as [v1 k]. cbn [drop take].
      now destruct (general_mono sign lerp σ d wL wR adv inv v1 (drop k rest)).
    + cbn [drop take app]. now destruct (general_mono _ _ _ _ _ _ _ _ _ _).
Qed.

Lemma general_stereo_wait_run σ d wL wR adv inv v mix :
  general_stereo sign lerp σ d wL wR adv inv v mix =
  (let '(v1, k) := wait_run inv v (length mix) in
   let '(v2, out) := general_stereo sign lerp σ d wL wR adv inv v1 (drop k mix) in
   (v2, take k mix ++ out)).
Proof.
  revert v. induction mix as [|[l r] rest IH]; intros v.
  - reflexivity.
  - cbn [length wait_run]. destruct (waitingStart v) eqn:Hw.
    + cbn [general_stereo]. rewrite Hw. rewrite (IH (wait_step inv v)).
      destruct (wait_run inv (wait_step inv v) (length rest)) as [v1 k]. cbn [drop take].
      now destruct (general_stereo sign lerp σ d wL wR adv inv v1 (drop k rest)).
    + cbn [drop take app]. now destruct (general_stereo _ _ _ _ _ _ _ _ _ _).
Qed.

Lemma fast_path_waiting wL wR adv c v : waitingStart v = true -> fast_path wL wR adv c v = false.
Proof. intros Hw. unfold fast_path. rewrite Hw. now destruct (stopMode v). Qed.

(** [mixTo] on a voice that waits for its start. *)
Lemma mixTo_waiting σ m v a d mix f inv bt :
  sound v = Some a -> getData σ a = Some d -> waitingStart v = true ->
  mixTo sign lerp σ m v mix f inv bt =
  if fgt (timeToStart v) bt
  then (set_timeToStart (F64.sub (timeToStart v) bt) v, mix)
  else
    let advance :=
      F64.mul (F64.mul (F64.of_int (PcmSound.frequency (target σ a))) inv) (f2d (pitch v)) in
    let '(v1, k) := wait_run inv v (length mix) in
    let '(v2, out) :=
      (if channels v =? 1
       then general_mono sign lerp σ d (wishVolumeL m v) (wishVolumeR m v) advance inv v1
       else general_stereo sign lerp σ d (wishVolumeL m v) (wishVolumeR m v) advance inv v1)
        (drop k mix) in
    (v2, take k mix ++ out).
Proof.
  intros Hs Hd Hw. unfold mixTo. rewrite Hs, Hd.
  rewrite fast_path_waiting by assumption. rewrite Hw. cbn [andb].
  destruct (fgt (timeToStart v) bt); [reflexivity|].
  destruct (channels v =? 1).
  - apply general_mono_wait_run.
  - apply general_stereo_wait_run.
Qed.

End Deferred.

(** C7 as stated fails for a negative defer: with 48000 Hz and
    [defer_seconds = -0.00001] the code starts at [pos = 0], not at
    [min(-defer_seconds * frequency, stop) = 0.48]. *)
Lemma negative_defer_is_truncated :
  let df := SFopp c_0_00001 in
  let r := play_sound_internal state_S1 7 F32.one F32.one F32.zero F32.zero
             (F32.of_int 1000000) false df in
  exists v', playing_sounds r.1 !! 1%nat = Some v' /\
    pos v' = F64.zero /\
    fmin (f2d (F32.mul (SFopp df) (F32.of_int 48000))) (stopPos v')
      = f2d (F32.mul (SFopp df) (F32.of_int 48000)) /\
    feq (pos v') (fmin (f2d (F32.mul (SFopp df) (F32.of_int 48000))) (stopPos v')) = false.
Proof.
  cbv zeta. eexists. split; [vm_compute; reflexivity|].
  vm_compute. repeat split.
Qed.


(** ** The device callback *)

Section Callback.

Variable sign : f32 -> f32.
Variable lerp : f32 -> f32 -> f32 -> f32.

(** *** A voice without asset is not mixed *)

Lemma mixTo_no_asset σ m v mix f inv bt :
  sound v = None -> mixTo sign lerp σ m v mix f inv bt = (v, mix).
Proof. intros H. unfold mixTo. now rewrite H. Qed.

Lemma mix_voices_no_asset σ m vs mix f inv bt i v :
  vs !! i = Some v -> sound v = None ->
  (mix_voices sign lerp σ m vs mix f inv bt).1 !! i = Some v.
Proof.
  revert i mix. induction vs as [|w vs IH]; intros i mix Hi Hs; [discriminate|].
  cbn [mix_voices].
  destruct (if isEmpty w then (w, mix) else mixTo sign lerp σ m w mix f inv bt) as [w' mix'] eqn:E.
  destruct (mix_voices sign lerp σ m vs mix' f inv bt) as [vs' mix''] eqn:E'.
  destruct i as [|i]; cbn in *.
  - injection Hi as ->. destruct (isEmpty v); [congruence|].
    rewrite mixTo_no_asset in E by assumption. congruence.
  - specialize (IH i mix' Hi Hs). now rewrite E' in IH.
Qed.

Lemma fill_loop_no_asset fuel st out off f inv samples i v :
  playing_sounds st !! i = Some v -> sound v = None ->
  playing_sounds (fill_loop sign lerp fuel st out off f inv samples).1 !! i = Some v.
Proof.
  revert st out off samples. induction fuel as [|fuel IH]; intros st out off samples Hi Hs;
    [assumption|].
  cbn [fill_loop]. destruct (0 <? samples); [|assumption].
  destruct (mix_voices _ _ _ _ _ _ _ _ _) as [vs chunk] eqn:E.
  apply IH; [|assumption]. cbn.
  pose proof (mix_voices_no_asset (assets st) (master_volume st) (playing_sounds st)
                (take (Z.to_nat (Z.min samples 256)) (drop off out)) f inv
                (F64.mul (F64.of_int (Z.min samples 256)) inv) i v Hi Hs) as H.
  now rewrite E in H.
Qed.

(** A voice whose asset reference is null comes out of every callback as
    it went in: [mixTo] returns before it looks at [stopMode]. *)
Lemma fill_buffer_cb_no_asset st f n i v :
  playing_sounds st !! i = Some v -> sound v = None ->
  playing_sounds (fill_buffer_cb sign lerp st f n).1 !! i = Some v.
Proof. intros Hi Hs. unfold fill_buffer_cb. now apply fill_loop_no_asset. Qed.

(** So a voice that [stop_sound] put into stop-fade is still in stop-fade,
    with the gains it was seeded with, after any callback. *)
Lemma stop_fade_frozen st h v a f n :
  is_handle_valid (playing_sounds st) h = true ->
  playing_sounds st !! Z.to_nat (Z.land h PLAYING_SOUNDS_MASK) = Some v ->
  sound v = Some a -> stopMode v = false -> waitingStart v = false ->
  exists v',
    playing_sounds (fill_buffer_cb sign lerp (stop_sound sign st h) f n).1
      !! Z.to_nat (Z.land h PLAYING_SOUNDS_MASK) = Some v' /\
    v' = setStopMode sign (assets st) v /\ stopMode v' = true /\ isEmpty v' = false.
Proof.
  intros Hvalid Hl Hs Hm Hw.
  destruct (setStopMode_live sign (assets st) v a Hs Hm) as (_ & Hs' & _ & Hm').
  rewrite Hw in Hm'. cbn in Hm'.
  exists (setStopMode sign (assets st) v). split; [|split; [reflexivity|split; [assumption|]]].
  - apply fill_buffer_cb_no_asset; [|assumption].
    unfold stop_sound, update_voice, handle_to_index. rewrite Hvalid. cbn.
    rewrite list_lookup_alter_eq, Hl. cbn. now rewrite Hs, Hm.
  - unfold isEmpty. now rewrite Hs', Hm'.
Qed.

(** *** The transport counters *)

Lemma int64_int64_add a b : int64 (int64 a + b) = int64 (a + b).
Proof.
  unfold int64, wrap_s. change (2 ^ (64 - 1)) with 9223372036854775808.
  change (2 ^ 64) with 18446744073709551616.
  Z.to_euclidean_division_equations. lia.
Qed.

Lemma int64_idem a : int64 (int64 a) = int64 a.
Proof.
  unfold int64, wrap_s. change (2 ^ (64 - 1)) with 9223372036854775808.
  change (2 ^ 64) with 18446744073709551616.
  Z.to_euclidean_division_equations. lia.
Qed.

(** The loop adds [counted] to [total_samples_played], whatever the voices
    do. *)
Lemma fill_loop_total fuel st out off f inv samples :
  int64 (total_samples_played (fill_loop sign lerp fuel st out off f inv samples).1)
  = int64 (total_samples_played st + counted fuel samples).
Proof.
  revert st out off samples. induction fuel as [|fuel IH]; intros st out off samples.
  - cbn. f_equal. lia.
  - cbn [fill_loop counted]. destruct (0 <? samples) eqn:E.
    + destruct (mix_voices _ _ _ _ _ _ _ _ _) as [vs chunk].
      rewrite IH. cbn. rewrite int64_int64_add. f_equal. lia.
    + cbn. f_equal. lia.
Qed.

Lemma fill_loop_total_wrapped fuel st out off f inv samples :
  int64 (total_samples_played st) = total_samples_played st ->
  int64 (total_samples_played (fill_loop sign lerp fuel st out off f inv samples).1)
  = total_samples_played (fill_loop sign lerp fuel st out off f inv samples).1.
Proof.
  revert st out off samples. induction fuel as [|fuel IH]; intros st out off samples Hst.
  - exact Hst.
  - cbn [fill_loop]. destruct (0 <? samples) eqn:E; [|exact Hst].
    destruct (mix_voices _ _ _ _ _ _ _ _ _) as [vs chunk].
    apply IH. cbn. apply int64_idem.
Qed.

(** The sum of what the loop adds stays below the number of frames. *)
Lemma counted_lt fuel samples :
  0 < samples <= INT_MAX -> counted fuel samples < samples.
Proof.
  revert samples. induction fuel as [|fuel IH]; intros samples Hs; cbn [counted]; [lia|].
  destruct (0 <? samples) eqn:E; [|lia].
  assert (Hw : int32 (samples - 256) = samples - 256).
  { apply int32_small. unfold INT_MIN, INT_MAX in *. lia. }
  rewrite Hw. destruct (Z.lt_ge_cases 0 (samples - 256)) as [Hpos|Hneg].
  - specialize (IH (samples - 256)). unfold INT_MAX in *. lia.
  - assert (counted fuel (samples - 256) = 0).
    { destruct fuel; cbn [counted]; [reflexivity|].
      destruct (0 <? samples - 256) eqn:E'; [apply Z.ltb_lt in E'; lia|reflexivity]. }
    lia.
Qed.

Lemma counted_gt fuel samples :
  samples <= INT_MAX -> - 256 < counted fuel samples.
Proof.
  revert samples. induction fuel as [|fuel IH]; intros samples Hs; cbn [counted]; [lia|].
  destruct (0 <? samples) eqn:E; [|lia]. apply Z.ltb_lt in E.
  assert (Hw : int32 (samples - 256) = samples - 256).
  { apply int32_small. unfold INT_MIN, INT_MAX in *. lia. }
  rewrite Hw. destruct (Z.lt_ge_cases 0 (samples - 256)) as [Hpos|Hneg].
  - specialize (IH (samples - 256)). unfold INT_MAX in *. lia.
  - assert (counted fuel (samples - 256) = 0).
    { destruct fuel; cbn [counted]; [reflexivity|].
      destruct (0 <? samples - 256) eqn:E'; [apply Z.ltb_lt in E'; lia|reflexivity]. }
    lia.
Qed.

(** For every callback of [n > 0] frames [total_samples_played] grows by
    less than [n]. *)
Lemma fill_buffer_cb_undercounts st f n :
  0 < n <= INT_MAX ->
  - 2 ^ 62 <= total_samples_played st <= 2 ^ 62 ->
  total_samples_played (fill_buffer_cb sign lerp st f n).1 < total_samples_played st + n.
Proof.
  intros Hn Hst. unfold fill_buffer_cb.
  set (r := fill_loop _ _ _ _ _ _ _ _ _).
  assert (H0 : int64 (total_samples_played st) = total_samples_played st).
  { apply int64_small. unfold INT64_MIN, INT64_MAX. lia. }
  pose proof (fill_loop_total_wrapped (Z.to_nat n) st (replicate (Z.to_nat n) silence) 0 f
                (F64.div F64.one (F64.of_int f)) n H0) as H1.
  pose proof (fill_loop_total (Z.to_nat n) st (replicate (Z.to_nat n) silence) 0 f
                (F64.div F64.one (F64.of_int f)) n) as H2.
  fold r in H1, H2. rewrite H1 in H2.
  pose proof (counted_lt (Z.to_nat n) n Hn) as H3.
  pose proof (counted_gt (Z.to_nat n) n (proj2 Hn)) as H4.
  rewrite H2, int64_small; [lia|]. unfold INT64_MIN, INT64_MAX, INT_MAX in *. lia.
Qed.

End Callback.

(** C3 fails on the code.  A callback of 100 frames lowers
    [total_samples_played] by 156 and makes [total_time_played] negative;
    one of 256 frames leaves the sample counter where it was; one of 1000
    frames adds 720. *)
Theorem fill_buffer_cb_miscounts :
  total_samples_played (fill_buffer_cb sign_ref lerp_ref initialize 48000 100).1 = -156 /\
  flt (total_time_played (fill_buffer_cb sign_ref lerp_ref initialize 48000 100).1) F64.zero = true /\
  total_samples_played (fill_buffer_cb sign_ref lerp_ref initialize 48000 256).1 = 0 /\
  total_samples_played (fill_buffer_cb sign_ref lerp_ref initialize 48000 1000).1 = 720.
Proof. vm_compute. repeat split. Qed.

(** C2 fails on the code.  In scenario S4 the pool is full and a play is
    refused; after [stop_sound] on the handle of slot 1 and a callback of
    2560 frames the voice of slot 1 is exactly what [stop_sound] left (in
    stop-fade, gains not at zero, not empty), and a play is still refused. *)
Theorem stop_fade_never_completes_S4 :
  let before := stopped_S4 in
  let after := later_S4 in
  (play_sound_1 (F32.of_int 1000000) full_pool_S4 7).2 = no_handle /\
  is_handle_valid (playing_sounds full_pool_S4) handle_S1 = true /\
  is_handle_valid (playing_sounds before) handle_S1 = false /\
  playing_sounds after !! 1%nat = playing_sounds before !! 1%nat /\
  (stopMode <$> playing_sounds after !! 1%nat) = Some true /\
  (isEmpty <$> playing_sounds after !! 1%nat) = Some false /\
  (feq F32.zero ∘ volumeL <$> playing_sounds after !! 1%nat) = Some false /\
  (play_sound_1 (F32.of_int 1000000) after 7).2 = no_handle.
Proof. vm_compute. repeat split. Qed.

(** ** The guard frame of an asset *)

Lemma length_memcpy d src n : length (memcpy d src n) = length d.
Proof. apply length_imap. Qed.

Lemma length_wr d i x : length (wr d i x) = length d.
Proof. apply length_insert. Qed.

Lemma rd_wr_eq d i x : (Z.to_nat i < length d)%nat -> rd (wr d i x) i = x.
Proof. intros H. unfold rd, wr. now rewrite list_lookup_insert_eq. Qed.

Lemma rd_wr_ne d i j x : Z.to_nat i <> Z.to_nat j -> rd (wr d i x) j = rd d j.
Proof. intros H. unfold rd, wr. now rewrite list_lookup_insert_ne. Qed.

Lemma wr_rd_same d i : wr d i (rd d i) = d.
Proof.
  unfold rd, wr. destruct (d !! Z.to_nat i) as [x|] eqn:E; cbn.
  - now apply list_insert_id.
  - apply list_insert_id'. intros H. apply lookup_lt_is_Some in H. rewrite E in H. now destruct H.
Qed.

(** The assignment [d[n] = d[0]] of the mono paths. *)
Lemma guard_written_mono d n :
  0 <= n -> (Z.to_nat n < length d)%nat ->
  rd (wr d n (rd d 0)) n = rd (wr d n (rd d 0)) 0.
Proof.
  intros Hn Hlen. rewrite rd_wr_eq by assumption.
  destruct (decide (n = 0)) as [->|Hne].
  - now rewrite rd_wr_eq.
  - rewrite rd_wr_ne by lia. reflexivity.
Qed.

(** The assignments [d[n*2] = d[0]; d[n*2+1] = d[1]] of the stereo paths. *)
Lemma guard_written_stereo d n :
  0 <= n -> (Z.to_nat (2 * n + 1) < length d)%nat ->
  let d1 := wr d (2 * n) (rd d 0) in
  let d2 := wr d1 (2 * n + 1) (rd d1 1) in
  rd d2 (2 * n) = rd d2 0 /\ rd d2 (2 * n + 1) = rd d2 1.
Proof.
  intros Hn Hlen d1 d2. subst d1 d2.
  destruct (decide (n = 0)) as [->|Hne].
  - cbn [Z.mul Z.add]. now rewrite !wr_rd_same.
  - set (d1 := wr d (2 * n) (rd d 0)).
    assert (H0 : rd d1 0 = rd d 0) by (apply rd_wr_ne; lia).
    assert (H1 : rd d1 1 = rd d 1) by (apply rd_wr_ne; lia).
    assert (H2 : rd d1 (2 * n) = rd d 0) by (apply rd_wr_eq; lia).
    assert (Hl : length d1 = length d) by apply length_wr.
    split.
    + rewrite (rd_wr_ne d1 (2 * n + 1) (2 * n)) by lia.
      rewrite (rd_wr_ne d1 (2 * n + 1) 0) by lia. congruence.
    + rewrite (rd_wr_eq d1 (2 * n + 1)) by lia.
      rewrite (rd_wr_ne d1 (2 * n + 1) 1) by lia. reflexivity.
Qed.

Lemma length_newData junk n : length (newData junk n) = Z.to_nat n.
Proof. unfold newData. now rewrite length_fmap, length_seq. Qed.

Lemma size_small {A} (l : list A) : Z.of_nat (length l) <= INT_MAX -> size l = Z.of_nat (length l).
Proof.
  intros H. unfold size, uint32, wrap_u. apply Z.mod_small.
  unfold INT_MAX in H. change (2 ^ 32) with 4294967296. change (2 ^ 31) with 2147483648 in H. lia.
Qed.

Lemma length_spread_loop d ptr i n : length (spread_loop d ptr i n) = length d.
Proof.
  revert d i. induction n as [|n IH]; intros d i; cbn; [reflexivity|].
  now rewrite IH, !length_wr.
Qed.

Lemma length_average_loop d ptr i n : length (average_loop d ptr i n) = length d.
Proof.
  revert d i. induction n as [|n IH]; intros d i; cbn; [reflexivity|].
  now rewrite IH, length_wr.
Qed.

(** Writing the guard into a block that is large enough. *)
Lemma guard_frame_mono d f n :
  0 <= n -> (Z.to_nat n < length d)%nat ->
  guard_frame (PcmSound.mk (Some (wr d n (rd d 0))) f n 1).
Proof.
  intros Hn Hl. eexists. split; [reflexivity|]. cbn. split; [intros _|discriminate].
  split; [now rewrite length_wr|]. now apply guard_written_mono.
Qed.

Lemma guard_frame_stereo d f n :
  0 <= n -> (Z.to_nat (2 * n + 1) < length d)%nat ->
  guard_frame
    (PcmSound.mk (Some (wr (wr d (2 * n) (rd d 0)) (2 * n + 1) (rd (wr d (2 * n) (rd d 0)) 1)))
       f n 2).
Proof.
  intros Hn Hl. eexists. split; [reflexivity|]. cbn. split; [discriminate|intros _].
  split; [now rewrite !length_wr|]. now apply guard_written_stereo.
Qed.

Lemma create_sound_guard junk past f data :
  1 <= f -> (0 < length data)%nat -> 4 * (Z.of_nat (length data) + 4) <= INT_MAX ->
  PcmSound.isValid (create_sound junk past f data) = true /\
  allocated (create_sound junk past f data) /\
  guard_frame (create_sound junk past f data).
Proof.
  intros Hf Hpos Hmax. unfold create_sound.
  assert (Hsz : size data = Z.of_nat (length data)) by (apply size_small; lia).
  rewrite Hsz. replace (f <? 1) with false by (symmetry; apply Z.ltb_ge; lia).
  replace (Z.of_nat (length data) =? 0) with false by (symmetry; apply Z.eqb_neq; lia).
  cbn [orb]. rewrite (int32_small (Z.of_nat (length data))) by (unfold INT_MIN, INT_MAX in *; lia).
  unfold PcmSound.getDataMemorySize. cbn [PcmSound.channels PcmSound.samples].
  rewrite int32_small by (unfold INT_MIN, INT_MAX in *; lia).
  set (d := memcpy _ _ _).
  assert (Hlen : length d = Z.to_nat (1 * (Z.of_nat (length data) + 4) * 4)).
  { unfold d. now rewrite length_memcpy, length_newData. }
  split; [reflexivity|]. split.
  - eexists. split; [reflexivity|]. cbn. rewrite length_wr. repeat split; auto; lia.
  - apply guard_frame_mono; lia.
Qed.

Lemma length_interleave (l : list (f32 * f32)) : length (interleave l) = (2 * length l)%nat.
Proof. unfold interleave. induction l as [|p l IH]; cbn in *; [reflexivity|]. rewrite IH. lia. Qed.

Lemma create_sound_stereo_guard junk past f data :
  1 <= f -> (0 < length data)%nat -> 8 * (Z.of_nat (length data) + 4) <= INT_MAX ->
  PcmSound.isValid (create_sound_stereo junk past f data) = true /\
  allocated (create_sound_stereo junk past f data) /\
  guard_frame (create_sound_stereo junk past f data).
Proof.
  intros Hf Hpos Hmax. unfold create_sound_stereo.
  assert (Hsz : size data = Z.of_nat (length data)) by (apply size_small; lia).
  rewrite Hsz. replace (f <? 1) with false by (symmetry; apply Z.ltb_ge; lia).
  replace (Z.of_nat (length data) =? 0) with false by (symmetry; apply Z.eqb_neq; lia).
  cbn [orb]. rewrite (int32_small (Z.of_nat (length data))) by (unfold INT_MIN, INT_MAX in *; lia).
  unfold PcmSound.getDataMemorySize. cbn [PcmSound.channels PcmSound.samples].
  rewrite !int32_small by (unfold INT_MIN, INT_MAX in *; lia).
  set (d := memcpy _ _ _).
  assert (Hlen : length d = Z.to_nat (2 * (Z.of_nat (length data) + 4) * 4)).
  { unfold d. now rewrite length_memcpy, length_newData. }
  replace (Z.of_nat (length data) * 2) with (2 * Z.of_nat (length data)) by lia.
  split; [reflexivity|]. split.
  - eexists. split; [reflexivity|]. cbn. rewrite !length_wr. repeat split; auto; lia.
  - apply guard_frame_stereo; lia.
Qed.

Lemma create_sound_from_file_guard junk f :
  dec_channels f = 1 \/ dec_channels f = 2 ->
  0 <= totalPCMFrameCount f ->
  dec_channels f * (totalPCMFrameCount f + 4) * 4 <= INT_MAX ->
  PcmSound.isValid (create_sound_from_file junk (Some f)) = true /\
  allocated (create_sound_from_file junk (Some f)) /\
  guard_frame (create_sound_from_file junk (Some f)).
Proof.
  intros Hch Hn Hmax. unfold create_sound_from_file.
  assert (Hc32 : int32 (dec_channels f) = dec_channels f)
    by (apply int32_small; unfold INT_MIN, INT_MAX; lia).
  assert (Hn32 : int32 (totalPCMFrameCount f) = totalPCMFrameCount f)
    by (apply int32_small; unfold INT_MIN, INT_MAX in *; lia).
  unfold PcmSound.getDataMemorySize. cbn [PcmSound.channels PcmSound.samples PcmSound.frequency].
  rewrite Hc32, Hn32.
  rewrite (int32_small (dec_channels f * _ * 4)) by (unfold INT_MIN, INT_MAX in *; lia).
  set (d := memcpy _ _ _).
  assert (Hlen : length d = Z.to_nat (dec_channels f * (totalPCMFrameCount f + 4) * 4)).
  { unfold d. now rewrite length_memcpy, length_newData. }
  destruct Hch as [Hch|Hch]; rewrite Hch in *; cbn [Z.eqb Pos.eqb negb andb].
  - split; [reflexivity|]. split.
    + eexists. split; [reflexivity|]. cbn. rewrite length_wr. repeat split; auto; lia.
    + apply guard_frame_mono; lia.
  - rewrite (int32_small (totalPCMFrameCount f * 2)) by (unfold INT_MIN, INT_MAX in *; lia).
    rewrite (int32_small (totalPCMFrameCount f * 2 + 1)) by (unfold INT_MIN, INT_MAX in *; lia).
    replace (totalPCMFrameCount f * 2) with (2 * totalPCMFrameCount f) by lia.
    split; [reflexivity|]. split.
    + eexists. split; [reflexivity|]. cbn. rewrite !length_wr. repeat split; auto; lia.
    + apply guard_frame_stereo; lia.
Qed.

Lemma set_sound_data_guard s in_data :
  allocated s ->
  (copy_count s in_data = 0 -> set_sound_data s in_data = s) /\
  (copy_count s in_data <> 0 ->
   allocated (set_sound_data s in_data) /\ guard_frame (set_sound_data s in_data)).
Proof.
  intros (d & Hd & Hn & Hch & Hmax & Hlen). unfold set_sound_data. rewrite Hd.
  split; intros Hc.
  - now rewrite Hc.
  - apply Z.eqb_neq in Hc. rewrite Hc.
    destruct s as [sd sf sn sc]. cbn in *. subst sd.
    destruct Hch as [->| ->]; cbn [Z.eqb Pos.eqb].
    + set (d' := memcpy _ _ _).
      assert (Hlen' : length d' = length d) by apply length_memcpy.
      split.
      * eexists. split; [reflexivity|]. cbn. rewrite length_wr. repeat split; auto; lia.
      * apply guard_frame_mono; lia.
    + rewrite (int32_small (sn * 2)) by (unfold INT_MIN, INT_MAX in *; lia).
      rewrite (int32_small (sn * 2 + 1)) by (unfold INT_MIN, INT_MAX in *; lia).
      replace (sn * 2) with (2 * sn) by lia.
      set (d' := spread_loop _ _ _ _).
      assert (Hlen' : length d' = length d) by apply length_spread_loop.
      split.
      * eexists. split; [reflexivity|]. cbn. rewrite !length_wr. repeat split; auto; lia.
      * apply guard_frame_stereo; lia.
Qed.

Lemma set_sound_data_stereo_guard s in_data :
  allocated s ->
  (copy_count s in_data = 0 -> set_sound_data_stereo s in_data = s) /\
  (copy_count s in_data <> 0 ->
   allocated (set_sound_data_stereo s in_data) /\ guard_frame (set_sound_data_stereo s in_data)).
Proof.
  intros (d & Hd & Hn & Hch & Hmax & Hlen). unfold set_sound_data_stereo. rewrite Hd.
  split; intros Hc.
  - now rewrite Hc.
  - apply Z.eqb_neq in Hc. rewrite Hc.
    destruct s as [sd sf sn sc]. cbn in *. subst sd.
    destruct Hch as [->| ->]; cbn [Z.eqb Pos.eqb].
    + set (d' := average_loop _ _ _ _).
      assert (Hlen' : length d' = length d) by apply length_average_loop.
      split.
      * eexists. split; [reflexivity|]. cbn. rewrite length_wr. repeat split; auto; lia.
      * apply guard_frame_mono; lia.
    + rewrite (int32_small (sn * 2)) by (unfold INT_MIN, INT_MAX in *; lia).
      rewrite (int32_small (sn * 2 + 1)) by (unfold INT_MIN, INT_MAX in *; lia).
      replace (sn * 2) with (2 * sn) by lia.
      set (d' := memcpy _ _ _).
      assert (Hlen' : length d' = length d) by apply length_memcpy.
      split.
      * eexists. split; [reflexivity|]. cbn. rewrite !length_wr. repeat split; auto; lia.
      * apply guard_frame_stereo; lia.
Qed.

(** C5.  Every successful creation ([create_sound], [create_sound_stereo],
    [create_sound_from_file]) returns an asset whose buffer has the guard
    frame ([data[samples] = data[0]] for one channel, [data[2*samples] =
    data[0]] and [data[2*samples+1] = data[1]] for two), and every bulk
    write ([set_sound_data], [set_sound_data_stereo]) into such an asset
    leaves the guard frame in place; a call that copies nothing leaves the
    asset as it was. *)
Theorem guard_frame_invariant :
  (forall junk past f data,
      1 <= f -> (0 < length data)%nat -> 4 * (Z.of_nat (length data) + 4) <= INT_MAX ->
      PcmSound.isValid (create_sound junk past f data) = true /\
      allocated (create_sound junk past f data) /\
      guard_frame (create_sound junk past f data)) /\
  (forall junk past f data,
      1 <= f -> (0 < length data)%nat -> 8 * (Z.of_nat (length data) + 4) <= INT_MAX ->
      PcmSound.isValid (create_sound_stereo junk past f data) = true /\
      allocated (create_sound_stereo junk past f data) /\
      guard_frame (create_sound_stereo junk past f data)) /\
  (forall junk f,
      dec_channels f = 1 \/ dec_channels f = 2 ->
      0 <= totalPCMFrameCount f ->
      dec_channels f * (totalPCMFrameCount f + 4) * 4 <= INT_MAX ->
      PcmSound.isValid (create_sound_from_file junk (Some f)) = true /\
      allocated (create_sound_from_file junk (Some f)) /\
      guard_frame (create_sound_from_file junk (Some f))) /\
  (forall s in_data,
      allocated s ->
      (copy_count s in_data = 0 -> set_sound_data s in_data = s) /\
      (copy_count s in_data <> 0 ->
       allocated (set_sound_data s in_data) /\ guard_frame (set_sound_data s in_data))) /\
  (forall s in_data,
      allocated s ->
      (copy_count s in_data = 0 -> set_sound_data_stereo s in_data = s) /\
      (copy_count s in_data <> 0 ->
       allocated (set_sound_data_stereo s in_data) /\
       guard_frame (set_sound_data_stereo s in_data))).
Proof.
  split; [exact create_sound_guard|].
  split; [exact create_sound_stereo_guard|].
  split; [exact create_sound_from_file_guard|].
  split; [exact set_sound_data_guard|exact set_sound_data_stereo_guard].
Qed.

(** C5 at the asset of scenario S1, and at that asset after a bulk write
    of three samples. *)
Lemma guard_frame_invariant_S1 :
  guard_frame asset_S1 /\
  guard_frame (set_sound_data asset_S1 [F32.one; F32.zero; F32.one]).
Proof.
  destruct guard_frame_invariant as (Hc & _ & _ & Hs & _).
  destruct (Hc zero_memory zero_memory 48000 (replicate 1000 c_0_5)) as (_ & Ha & Hg);
    [vm_compute; congruence | vm_compute; lia | vm_compute; congruence |].
  split; [exact Hg|].
  destruct (Hs asset_S1 [F32.one; F32.zero; F32.one] Ha) as [_ H].
  apply H. vm_compute. discriminate.
Defined.
(** ** What mixing preserves *)

Section Preservation.

Variable sign : f32 -> f32.
Variable lerp : f32 -> f32 -> f32 -> f32.
Variable P : PlayingSound -> Prop.

Hypothesis P_pos : forall v x, P v -> P (set_pos x v).
Hypothesis P_timeToStart : forall v x, P v -> P (set_timeToStart x v).
Hypothesis P_started : forall v, P v -> P (set_waitingStart false v).
Hypothesis P_volumeL : forall v x, P v -> P (set_volumeL x v).
Hypothesis P_volumeR : forall v x, P v -> P (set_volumeR x v).
Hypothesis P_ended : forall σ v, P v -> loop v = false -> P (setStopMode sign σ v).
Hypothesis P_faded : forall v, P v -> stopMode v = true -> P (set_stopMode false v).

Lemma wait_step_keeps inv v : P v -> P (wait_step inv v).
Proof.
  intros H. unfold wait_step. cbv zeta.
  destruct (fle _ _); auto.
Qed.

Lemma play_step_keeps σ wL wR adv v : P v -> P (play_step sign σ wL wR adv v).
Proof.
  intros H. unfold play_step. cbv zeta.
  set (v1 := set_pos _ _).
  assert (H1 : P v1) by (subst v1; auto).
  clearbody v1.
  destruct (fge _ _); [|done].
  destruct (loop v1) eqn:Hl; auto.
Qed.

Lemma fade_step_keeps v :
  P v -> stopMode v = true ->
  P (if faded_out (fade_step v) then set_stopMode false (fade_step v) else fade_step v).
Proof.
  intros H Hs.
  assert (P (fade_step v)) by (unfold fade_step; auto).
  destruct (faded_out _); auto.
Qed.

Lemma general_mono_keeps σ d wL wR adv inv mix v :
  P v -> P (general_mono sign lerp σ d wL wR adv inv v mix).1.
Proof.
  revert v. induction mix as [|[l r] rest IH]; intros v H; [done|].
  cbn [general_mono].
  destruct (waitingStart v) eqn:Hw.
  - specialize (IH (wait_step inv v) (wait_step_keeps inv v H)).
    destruct (general_mono _ _ _ _ _ _ _ _ _ rest); done.
  - destruct (stopMode v) eqn:Hs; cbn [negb].
    + pose proof (fade_step_keeps v H Hs) as H'.
      specialize (IH _ H').
      destruct (general_mono _ _ _ _ _ _ _ _ _ rest); done.
    + specialize (IH _ (play_step_keeps σ wL wR adv v H)).
      destruct (general_mono _ _ _ _ _ _ _ _ _ rest); done.
Qed.

Lemma general_stereo_keeps σ d wL wR adv inv mix v :
  P v -> P (general_stereo sign lerp σ d wL wR adv inv v mix).1.
Proof.
  revert v. induction mix as [|[l r] rest IH]; intros v H; [done|].
  cbn [general_stereo].
  destruct (waitingStart v) eqn:Hw.
  - specialize (IH (wait_step inv v) (wait_step_keeps inv v H)).
    destruct (general_stereo _ _ _ _ _ _ _ _ _ rest); done.
  - destruct (stopMode v) eqn:Hs; cbn [negb].
    + pose proof (fade_step_keeps v H Hs) as H'.
      destruct (faded_out (fade_step v)); [done|].
      specialize (IH _ H').
      destruct (general_stereo _ _ _ _ _ _ _ _ _ rest); done.
    + destruct (sample_stereo _ _ _) as [sl sr].
      specialize (IH _ (play_step_keeps σ wL wR adv v H)).
      destruct (general_stereo _ _ _ _ _ _ _ _ _ rest); done.
Qed.

Lemma mixTo_keeps σ m v mix f inv bt :
  P v -> P (mixTo sign lerp σ m v mix f inv bt).1.
Proof.
  intros H. unfold mixTo. cbv zeta.
  destruct (sound v) as [a|]; [|done].
  destruct (getData σ a) as [d|]; [|done].
  destruct (fast_path _ _ _ _ _).
  { destruct (channels v =? 1).
    - destruct (fast_mono _ _ _ _ _ _ _); cbn; auto.
    - destruct (fast_stereo _ _ _ _ _ _ _); cbn; auto. }
  destruct (_ && _); [cbn; auto|].
  destruct (channels v =? 1).
  - apply general_mono_keeps, H.
  - apply general_stereo_keeps, H.
Qed.

Lemma mix_voices_keeps σ m vs mix f inv bt i v :
  vs !! i = Some v -> P v ->
  exists v', (mix_voices sign lerp σ m vs mix f inv bt).1 !! i = Some v' /\ P v'.
Proof.
  revert mix i. induction vs as [|w rest IH]; intros mix i Hi H; [done|].
  cbn [mix_voices].
  destruct i as [|i]; cbn in Hi.
  - injection Hi as ->.
    destruct (isEmpty v).
    + destruct (mix_voices _ _ _ _ rest _ _ _ _); cbn. eauto.
    + pose proof (mixTo_keeps σ m v mix f inv bt H) as H'.
      destruct (mixTo _ _ _ _ _ _ _ _ _) as [v' mix'].
      destruct (mix_voices _ _ _ _ rest _ _ _ _); cbn. eauto.
  - destruct (if isEmpty w then _ else _) as [w' mix'].
    specialize (IH mix' i Hi H).
    destruct (mix_voices _ _ _ _ rest _ _ _ _); cbn. exact IH.
Qed.

Lemma fill_loop_keeps fuel st out off f inv samples i v :
  playing_sounds st !! i = Some v -> P v ->
  exists v', playing_sounds (fill_loop sign lerp fuel st out off f inv samples).1 !! i = Some v'
             /\ P v'.
Proof.
  revert st out off samples v.
  induction fuel as [|fuel IH]; intros st out off samples v Hi H; [cbn; eauto|].
  cbn [fill_loop].
  destruct (0 <? samples); [|cbn; eauto].
  cbv zeta.
  destruct (mix_voices_keeps (assets st) (master_volume st) (playing_sounds st)
              (take (Z.to_nat (Z.min samples 256)) (drop off out)) f inv
              (F64.mul (F64.of_int (Z.min samples 256)) inv) i v Hi H) as (v' & Hv' & HP).
  destruct (mix_voices _ _ _ _ _ _ _ _ _) as [vs chunk].
  eapply IH; [|exact HP]. exact Hv'.
Qed.

Lemma fill_buffer_cb_keeps st f n i v :
  playing_sounds st !! i = Some v -> P v ->
  exists v', playing_sounds (fill_buffer_cb sign lerp st f n).1 !! i = Some v' /\ P v'.
Proof.
  intros Hi H. unfold fill_buffer_cb. now apply fill_loop_keeps with v.
Qed.

End Preservation.

(** ** The invariant of the voice table *)

Lemma voice_ok_pos v x : voice_ok v -> voice_ok (set_pos x v).
Proof. now destruct v. Qed.
Lemma voice_ok_timeToStart v x : voice_ok v -> voice_ok (set_timeToStart x v).
Proof. now destruct v. Qed.
Lemma voice_ok_waitingStart v x : voice_ok v -> voice_ok (set_waitingStart x v).
Proof. now destruct v. Qed.
Lemma voice_ok_volumeL v x : voice_ok v -> voice_ok (set_volumeL x v).
Proof. now destruct v. Qed.
Lemma voice_ok_volumeR v x : voice_ok v -> voice_ok (set_volumeR x v).
Proof. now destruct v. Qed.
Lemma voice_ok_pitch v x : voice_ok v -> voice_ok (set_pitch x v).
Proof. now destruct v. Qed.
Lemma voice_ok_volume v x : voice_ok v -> voice_ok (set_volume x v).
Proof. now destruct v. Qed.
Lemma voice_ok_pan v x : voice_ok v -> voice_ok (set_pan x v).
Proof. now destruct v. Qed.
Lemma voice_ok_faded v : voice_ok v -> voice_ok (set_stopMode false v).
Proof. destruct v. intros [H _]. split; [exact H|discriminate]. Qed.
Lemma voice_ok_bump v :
  voice_ok v -> voice_ok (set_version (int32 (version v + MAX_PLAYING_SOUNDS)) v).
Proof.
  intros [H1 H2]. split; [|exact H2].
  cbn. apply int32_mod_128. change MAX_PLAYING_SOUNDS with 128.
  rewrite Z.add_mod, H1 by lia. reflexivity.
Qed.

Lemma voice_ok_setStopMode sign σ v : voice_ok v -> voice_ok (setStopMode sign σ v).
Proof.
  intros H. destruct (sound v) as [a|] eqn:Hs.
  - destruct (stopMode v) eqn:Hm.
    + rewrite setStopMode_early by auto. now apply voice_ok_waitingStart.
    + destruct (setStopMode_live sign σ v a Hs Hm) as (Hv & Hn & _ & _).
      split; [|now intros _].
      rewrite Hv. apply (voice_ok_bump v H).
  - rewrite setStopMode_early by auto. now apply voice_ok_waitingStart.
Qed.

Lemma voice_ok_zero : voice_ok zero_voice.
Proof. split; [reflexivity|discriminate]. Qed.

Lemma table_ok_initialize : table_ok (playing_sounds initialize).
Proof.
  split; [apply length_replicate|].
  apply Forall_replicate, voice_ok_zero.
Qed.

Lemma table_ok_alter f i vs :
  (forall v, voice_ok v -> voice_ok (f v)) -> table_ok vs -> table_ok (alter f i vs).
Proof.
  intros Hf [Hl Hv]. split; [now rewrite length_alter|].
  apply Forall_alter; [exact Hv|]. intros v _. apply Hf.
Qed.

Lemma table_ok_fmap f vs :
  (forall v, voice_ok v -> voice_ok (f v)) -> table_ok vs -> table_ok (f <$> vs).
Proof.
  intros Hf [Hl Hv]. split; [now rewrite length_fmap|].
  apply Forall_fmap. eapply Forall_impl; [exact Hv|]. exact Hf.
Qed.

Lemma table_ok_update_voice st h f :
  (forall v, voice_ok v -> voice_ok (f v)) ->
  table_ok (playing_sounds st) -> table_ok (playing_sounds (update_voice st h f)).
Proof.
  intros Hf H. unfold update_voice.
  destruct (handle_to_index _ _); [|exact H].
  cbn. now apply table_ok_alter.
Qed.

Lemma table_ok_allocate vs : table_ok vs -> table_ok (allocate_playing_sound vs).2.
Proof.
  intros H. unfold allocate_playing_sound.
  destruct (scan_empty _ _ _); [|exact H].
  cbn. apply table_ok_alter; [|exact H]. exact voice_ok_bump.
Qed.

Lemma table_ok_play st a vol pit pn t0 t1 lp df :
  table_ok (playing_sounds st) ->
  table_ok (playing_sounds (play_sound_internal st a vol pit pn t0 t1 lp df).1).
Proof.
  intros H. unfold play_sound_internal.
  pose proof (table_ok_allocate _ H) as H'.
  destruct (allocate_playing_sound (playing_sounds st)) as [[idx|] vs]; cbn in H'; [|exact H'].
  destruct (_ <=? 2); [exact H'|]. cbn.
  destruct H' as [Hl Hv].
  split; [now rewrite length_insert|].
  apply Forall_insert; [exact Hv|].
  split; [|discriminate]. cbn.
  destruct (vs !! idx) as [w|] eqn:Hw; [|reflexivity].
  cbn. rewrite Forall_lookup in Hv. now destruct (Hv _ _ Hw).
Qed.

Lemma length_mix_voices sign lerp σ m vs mix f inv bt :
  length (mix_voices sign lerp σ m vs mix f inv bt).1 = length vs.
Proof.
  revert mix. induction vs as [|v rest IH]; intros mix; [done|].
  cbn [mix_voices].
  destruct (if isEmpty v then _ else _) as [v' mix'].
  specialize (IH mix').
  destruct (mix_voices _ _ _ _ rest _ _ _ _). cbn in *. now rewrite IH.
Qed.

Lemma length_fill_loop sign lerp fuel st out off f inv samples :
  length (playing_sounds (fill_loop sign lerp fuel st out off f inv samples).1)
  = length (playing_sounds st).
Proof.
  revert st out off samples.
  induction fuel as [|fuel IH]; intros st out off samples; [done|].
  cbn [fill_loop]. destruct (0 <? samples); [|done]. cbv zeta.
  pose proof (length_mix_voices sign lerp (assets st) (master_volume st) (playing_sounds st)
                (take (Z.to_nat (Z.min samples 256)) (drop off out)) f inv
                (F64.mul (F64.of_int (Z.min samples 256)) inv)) as Hl.
  destruct (mix_voices _ _ _ _ _ _ _ _ _) as [vs chunk].
  rewrite IH. exact Hl.
Qed.

Lemma table_ok_fill_buffer_cb sign lerp st f n :
  table_ok (playing_sounds st) ->
  table_ok (playing_sounds (fill_buffer_cb sign lerp st f n).1).
Proof.
  intros [Hl Hv].
  assert (Hlen : length (playing_sounds (fill_buffer_cb sign lerp st f n).1)
                 = length (playing_sounds st)).
  { unfold fill_buffer_cb. apply length_fill_loop. }
  split; [now rewrite Hlen|].
  apply Forall_lookup. intros i v' Hi.
  assert (Hlt : (i < length (playing_sounds st))%nat).
  { rewrite <- Hlen. eapply lookup_lt_Some, Hi. }
  destruct (lookup_lt_is_Some_2 _ _ Hlt) as [v Hv0].
  rewrite Forall_lookup in Hv.
  destruct (fill_buffer_cb_keeps sign lerp voice_ok
              voice_ok_pos voice_ok_timeToStart
              (λ v, voice_ok_waitingStart v false)
              voice_ok_volumeL voice_ok_volumeR
              (λ σ v H _, voice_ok_setStopMode sign σ v H)
              (λ v H _, voice_ok_faded v H)
              st f n i v Hv0 (Hv _ _ Hv0)) as (v'' & Hv'' & Hok).
  congruence.
Qed.

Section TableInvariant.

Variable sign : f32 -> f32.
Variable lerp : f32 -> f32 -> f32 -> f32.

(** Every operation keeps the voice table well formed. *)
Lemma table_ok_operations (st : State) :
  table_ok (playing_sounds st) ->
  (forall a vol pit pn t0 t1 lp df,
      table_ok (playing_sounds (play_sound_internal st a vol pit pn t0 t1 lp df).1)) /\
  (forall h, table_ok (playing_sounds (stop_sound sign st h))) /\
  table_ok (playing_sounds (stop_all_sounds sign st)) /\
  (forall h x, table_ok (playing_sounds (set_sound_pitch st h x))) /\
  (forall h x, table_ok (playing_sounds (set_sound_volume st h x))) /\
  (forall h x, table_ok (playing_sounds (set_sound_pan st h x))) /\
  (forall h x, table_ok (playing_sounds (set_sound_play_pos st h x))) /\
  (forall x, table_ok (playing_sounds (set_master_volume st x))) /\
  (forall a, table_ok (playing_sounds (delete_sound sign st a))) /\
  (forall a, table_ok (playing_sounds (destroy_sound sign st a))) /\
  (forall this b, table_ok (playing_sounds (move_construct sign st this b))) /\
  (forall this b, table_ok (playing_sounds (move_assign sign st this b))) /\
  (forall f n, table_ok (playing_sounds (fill_buffer_cb sign lerp st f n).1)) /\
  (forall init n, table_ok (playing_sounds (miniaudio_data_callback sign lerp init st n).1)).
Proof.
  intros H.
  assert (Hstop : forall σ v, voice_ok v -> voice_ok (setStopMode sign σ v))
    by (intros; now apply voice_ok_setStopMode).
  repeat match goal with |- _ /\ _ => split end; intros.
  - now apply table_ok_play.
  - apply table_ok_update_voice; [|exact H].
    intros v Hv. destruct (sound v); [|exact Hv]. destruct (stopMode v); auto.
  - apply table_ok_fmap; [|exact H].
    intros v Hv. destruct (isEmpty v); auto.
  - apply table_ok_update_voice; [|exact H]. intros v. apply voice_ok_pitch.
  - apply table_ok_update_voice; [|exact H]. intros v. apply voice_ok_volume.
  - apply table_ok_update_voice; [|exact H]. intros v. apply voice_ok_pan.
  - apply table_ok_update_voice; [|exact H].
    intros v Hv. destruct (sound v); [|exact Hv]. destruct (stopMode v); [exact Hv|].
    now apply voice_ok_pos.
  - exact H.
  - apply table_ok_fmap; [|exact H].
    intros v Hv. destruct (_ && _); auto.
  - unfold destroy_sound. destruct (PcmSound.isValid _); [|exact H].
    apply table_ok_fmap; [|exact H].
    intros v Hv. destruct (_ && _); auto.
  - apply table_ok_fmap; [|exact H].
    intros v Hv. destruct (_ && _); auto.
  - apply table_ok_fmap; [|exact H].
    intros v Hv. destruct (_ && _); auto.
  - now apply table_ok_fill_buffer_cb.
  - unfold miniaudio_data_callback. destruct init; [|exact H].
    now apply table_ok_fill_buffer_cb.
Qed.

Lemma table_ok_do_call st c :
  table_ok (playing_sounds st) -> table_ok (playing_sounds (do_call sign lerp st c)).
Proof.
  intros H. destruct c; cbn [do_call]; now apply table_ok_operations.
Qed.

(** X1. The voice table stays well formed.  Whatever calls of the control
    surface, operations on the lifetime of assets and device callbacks
    follow one another, the table has its 128 slots, every version is a
    multiple of 128, so that the index bits of a handle are never
    disturbed, and no voice in stop-fade holds an asset pointer. *)
Theorem table_ok_preserved cs st :
  table_ok (playing_sounds st) -> table_ok (playing_sounds (do_calls sign lerp st cs)).
Proof.
  revert st. induction cs as [|c cs IH]; intros st H; [exact H|].
  cbn [do_calls foldl]. apply IH. now apply table_ok_do_call.
Qed.

End TableInvariant.
(** ** The fate of a voice across a callback *)

Lemma is_handle_valid_same_version vs vs' h v v' :
  vs !! Z.to_nat (Z.land h PLAYING_SOUNDS_MASK) = Some v ->
  vs' !! Z.to_nat (Z.land h PLAYING_SOUNDS_MASK) = Some v' ->
  version v' = version v ->
  is_handle_valid vs' h = is_handle_valid vs h.
Proof.
  intros Hv Hv' He. unfold is_handle_valid. cbv zeta.
  now rewrite Hv, Hv', He.
Qed.

Section Fate.

Variable sign : f32 -> f32.
Variable lerp : f32 -> f32 -> f32 -> f32.

(** X2. A looping voice is never released by the mixer: after a callback
    of any length it still holds its asset, is not in stop-fade, has the
    version it had, and every handle resolves as before. *)
Theorem looping_voice_survives st f n i v a :
  playing_sounds st !! i = Some v ->
  sound v = Some a -> stopMode v = false -> loop v = true ->
  exists v',
    playing_sounds (fill_buffer_cb sign lerp st f n).1 !! i = Some v' /\
    sound v' = Some a /\ stopMode v' = false /\ loop v' = true /\
    version v' = version v /\ isEmpty v' = false /\
    (forall h, Z.to_nat (Z.land h PLAYING_SOUNDS_MASK) = i ->
       is_handle_valid (playing_sounds (fill_buffer_cb sign lerp st f n).1) h
       = is_handle_valid (playing_sounds st) h).
Proof.
  intros Hi Hs Hm Hl.
  destruct (fill_buffer_cb_keeps sign lerp
              (λ w, loop w = true /\ sound w = Some a /\ stopMode w = false /\
                    version w = version v)) with (st := st) (f := f) (n := n) (i := i) (v := v)
    as (v' & Hv' & Hl' & Hs' & Hm' & Hver).
  - intros w x Hw. destruct w. exact Hw.
  - intros w x Hw. destruct w. exact Hw.
  - intros w Hw. destruct w. exact Hw.
  - intros w x Hw. destruct w. exact Hw.
  - intros w x Hw. destruct w. exact Hw.
  - intros σ w (Hw & _) Hw'. congruence.
  - intros w (_ & _ & Hw & _) Hw'. congruence.
  - exact Hi.
  - done.
  - exists v'. repeat split; try done.
    + unfold isEmpty. now rewrite Hs'.
    + intros h <-. now apply is_handle_valid_same_version with v v'.
Qed.

(** X3. A handle never outlives its voice.  A handle that is valid for a
    voice holding an asset is, after a callback, either still valid for
    that voice, which still holds the asset, or the voice has ended: its
    version has advanced by 128 and the handle is no longer valid. *)
Theorem callback_handle_fate st f n h v a :
  is_handle_valid (playing_sounds st) h = true ->
  playing_sounds st !! Z.to_nat (Z.land h PLAYING_SOUNDS_MASK) = Some v ->
  sound v = Some a -> stopMode v = false ->
  exists v',
    playing_sounds (fill_buffer_cb sign lerp st f n).1
      !! Z.to_nat (Z.land h PLAYING_SOUNDS_MASK) = Some v' /\
    ((is_handle_valid (playing_sounds (fill_buffer_cb sign lerp st f n).1) h = true /\
      version v' = version v /\ sound v' = Some a /\ stopMode v' = false) \/
     (is_handle_valid (playing_sounds (fill_buffer_cb sign lerp st f n).1) h = false /\
      version v' = int32 (version v + MAX_PLAYING_SOUNDS) /\ sound v' = None)).
Proof.
  intros Hh Hi Hs Hm.
  destruct (fill_buffer_cb_keeps sign lerp
              (λ w, (version w = version v /\ sound w = Some a /\ stopMode w = false) \/
                    (version w = int32 (version v + MAX_PLAYING_SOUNDS) /\ sound w = None)))
    with (st := st) (f := f) (n := n)
         (i := Z.to_nat (Z.land h PLAYING_SOUNDS_MASK)) (v := v)
    as (v' & Hv' & HP).
  - intros w x Hw. destruct w. exact Hw.
  - intros w x Hw. destruct w. exact Hw.
  - intros w Hw. destruct w. exact Hw.
  - intros w x Hw. destruct w. exact Hw.
  - intros w x Hw. destruct w. exact Hw.
  - intros σ w [(Hw1 & Hw2 & Hw3)|(Hw1 & Hw2)] _.
    + destruct (setStopMode_live sign σ w a Hw2 Hw3) as (Hv1 & Hv2 & _).
      right. split; [congruence|exact Hv2].
    + rewrite setStopMode_early by auto. now right.
  - intros w [(Hw1 & Hw2 & Hw3)|(Hw1 & Hw2)] Hw'; [congruence|]. now right.
  - exact Hi.
  - now left.
  - exists v'. split; [exact Hv'|].
    destruct HP as [(H1 & H2 & H3)|(H1 & H2)]; [left|right].
    + repeat split; try done.
      rewrite <- Hh. now apply is_handle_valid_same_version with v v'.
    + repeat split; try done.
      destruct (is_handle_valid_lookup _ _ Hh) as (w & Hw & Hver & _).
      assert (w = v) as -> by congruence.
      now apply advanced_version_invalid with v v'.
Qed.

End Fate.

(** ** Silence *)

Section Silence.

Variable sign : f32 -> f32.
Variable lerp : f32 -> f32 -> f32 -> f32.

Lemma mix_voices_idle σ m vs mix f inv bt :
  Forall (λ v, sound v = None) vs ->
  mix_voices sign lerp σ m vs mix f inv bt = (vs, mix).
Proof.
  induction 1 as [|v rest Hv _ IH]; [done|].
  cbn [mix_voices].
  rewrite mixTo_no_asset by exact Hv.
  replace (if isEmpty v then (v, mix) else (v, mix)) with (v, mix) by now destruct (isEmpty v).
  now rewrite IH.
Qed.

Lemma chunk_put_back {A} (out : list A) off count :
  take off out ++ take count (drop off out) ++ drop (off + count) out = out.
Proof.
  rewrite <- drop_drop, take_drop. apply take_drop.
Qed.

Lemma fill_loop_idle fuel st out off f inv samples :
  Forall (λ v, sound v = None) (playing_sounds st) ->
  (fill_loop sign lerp fuel st out off f inv samples).2 = out /\
  playing_sounds (fill_loop sign lerp fuel st out off f inv samples).1 = playing_sounds st /\
  assets (fill_loop sign lerp fuel st out off f inv samples).1 = assets st /\
  master_volume (fill_loop sign lerp fuel st out off f inv samples).1 = master_volume st.
Proof.
  revert st out off samples.
  induction fuel as [|fuel IH]; intros st out off samples H; [done|].
  cbn [fill_loop]. destruct (0 <? samples); [|done]. cbv zeta.
  rewrite mix_voices_idle by exact H.
  rewrite chunk_put_back.
  match goal with
  | |- context [fill_loop _ _ _ ?s ?o ?k _ _ ?n] =>
      destruct (IH s o k n H) as (E1 & E2 & E3 & E4)
  end.
  rewrite E1, E2, E3, E4. done.
Qed.

(** X4. With no voice holding an asset the callback delivers silence: the
    buffer is [n] frames of zeros and the voice table, the assets and the
    master volume are as before.  The device callback does the same, and
    also whenever the device is not initialised. *)
Theorem idle_callback_is_silent st f n :
  Forall (λ v, sound v = None) (playing_sounds st) ->
  (fill_buffer_cb sign lerp st f n).2 = replicate (Z.to_nat n) silence /\
  playing_sounds (fill_buffer_cb sign lerp st f n).1 = playing_sounds st /\
  assets (fill_buffer_cb sign lerp st f n).1 = assets st /\
  master_volume (fill_buffer_cb sign lerp st f n).1 = master_volume st /\
  (forall init, 0 <= n <= INT_MAX ->
     (miniaudio_data_callback sign lerp init st n).2 = replicate (Z.to_nat n) silence /\
     playing_sounds (miniaudio_data_callback sign lerp init st n).1 = playing_sounds st).
Proof.
  intros H.
  assert (Hcb : forall f n,
    (fill_buffer_cb sign lerp st f n).2 = replicate (Z.to_nat n) silence /\
    playing_sounds (fill_buffer_cb sign lerp st f n).1 = playing_sounds st /\
    assets (fill_buffer_cb sign lerp st f n).1 = assets st /\
    master_volume (fill_buffer_cb sign lerp st f n).1 = master_volume st).
  { intros f' n'. unfold fill_buffer_cb. now apply fill_loop_idle. }
  destruct (Hcb f n) as (H1 & H2 & H3 & H4).
  repeat split; try done.
  - unfold miniaudio_data_callback. destruct init; [|done].
    rewrite int32_small by (unfold INT_MIN; lia). apply Hcb.
  - unfold miniaudio_data_callback. destruct init; [|done].
    apply Hcb.
Qed.

Lemma stopped_voice_has_no_asset σ v :
  voice_ok v -> sound (setStopMode sign σ v) = None.
Proof.
  intros [_ H]. destruct (sound v) as [a|] eqn:Hs.
  - destruct (stopMode v) eqn:Hm.
    + specialize (H eq_refl). congruence.
    + now destruct (setStopMode_live sign σ v a Hs Hm) as (_ & ? & _).
  - rewrite setStopMode_early by auto. now destruct v.
Qed.

Lemma stopped_voice_not_waiting σ v : waitingStart (setStopMode sign σ v) = false.
Proof.
  destruct (sound v) as [a|] eqn:Hs.
  - destruct (stopMode v) eqn:Hm.
    + rewrite setStopMode_early by auto. now destruct v.
    + now destruct (setStopMode_live sign σ v a Hs Hm) as (_ & _ & ? & _).
  - rewrite setStopMode_early by auto. now destruct v.
Qed.

Lemma stop_all_sounds_no_asset st :
  table_ok (playing_sounds st) ->
  Forall (λ v, sound v = None /\ waitingStart v = false) (playing_sounds (stop_all_sounds sign st)).
Proof.
  intros [_ H]. unfold stop_all_sounds. cbn.
  apply Forall_fmap. eapply Forall_impl; [exact H|].
  intros v Hv. cbn.
  destruct (isEmpty v) eqn:He.
  - unfold isEmpty in He. destruct (sound v); [done|].
    split; [done|]. destruct (stopMode v); [done|]. now destruct (waitingStart v).
  - split; [now apply stopped_voice_has_no_asset|apply stopped_voice_not_waiting].
Qed.

(** X5. [stop_all_sounds] cuts every voice off at once.  Afterwards no
    voice holds an asset pointer or waits for a deferred start, the next
    callback delivers pure silence whatever its length, and deleting any
    asset changes no voice. *)
Theorem stop_all_sounds_silences st :
  table_ok (playing_sounds st) ->
  Forall (λ v, sound v = None /\ waitingStart v = false)
    (playing_sounds (stop_all_sounds sign st)) /\
  (forall f n,
     (fill_buffer_cb sign lerp (stop_all_sounds sign st) f n).2
     = replicate (Z.to_nat n) silence) /\
  (forall a,
     playing_sounds (delete_sound sign (stop_all_sounds sign st) a)
     = playing_sounds (stop_all_sounds sign st)).
Proof.
  intros H.
  pose proof (stop_all_sounds_no_asset st H) as Hn.
  split; [exact Hn|].
  assert (Hn' : Forall (λ v, sound v = None) (playing_sounds (stop_all_sounds sign st))).
  { eapply Forall_impl; [exact Hn|]. now intros v [? _]. }
  split.
  - intros f n. unfold fill_buffer_cb. now apply fill_loop_idle.
  - intros a. unfold delete_sound at 1. cbn.
    rewrite <- (list_fmap_id (playing_sounds (stop_all_sounds sign st))) at 2.
    apply Forall_fmap_ext_1.
    eapply Forall_impl; [exact Hn'|].
    intros v Hv. cbn. rewrite bool_decide_eq_false_2 by congruence. done.
Qed.

End Silence.

Lemma idle_callback_is_silent_S1 :
  (fill_buffer_cb sign_ref lerp_ref state_S1 48000 480).2 = replicate 480 silence.
Proof.
  apply (idle_callback_is_silent sign_ref lerp_ref state_S1 48000 480).
  apply Forall_replicate. reflexivity.
Defined.

Lemma stop_all_sounds_silences_S1 :
  table_ok (playing_sounds playing_S1) /\
  (fill_buffer_cb sign_ref lerp_ref (stop_all_sounds sign_ref playing_S1) 48000 480).2
  = replicate 480 silence.
Proof.
  assert (H : table_ok (playing_sounds playing_S1)).
  { apply table_ok_play. exact table_ok_initialize. }
  split; [exact H|].
  apply (stop_all_sounds_silences sign_ref lerp_ref playing_S1 H).
Defined.

(** ** Slots and handles at [play] *)

Lemma scan_empty_lowest vs i n j :
  scan_empty vs i n = Some j ->
  forall k w, (i <= k < j)%nat -> vs !! k = Some w -> isEmpty w = false.
Proof.
  revert i. induction n as [|n IH]; intros i H k w Hk Hw; [done|].
  cbn in H. destruct (vs !! i) as [v|] eqn:Hv; [|done].
  destruct (isEmpty v) eqn:He.
  - injection H as <-. lia.
  - destruct (decide (k = i)) as [->|Hne]; [congruence|].
    apply (IH (S i) H k w); [lia|exact Hw].
Qed.

Lemma land_mask_range h : 0 <= Z.land h PLAYING_SOUNDS_MASK < 128.
Proof. rewrite land_mask. apply Z.mod_pos_bound. lia. Qed.

(** What a play that returns a handle other than [no_handle] has done. *)
Lemma play_issued st a vol pit pn t0 t1 lp df :
  versions_aligned (playing_sounds st) ->
  (play_sound_internal st a vol pit pn t0 t1 lp df).2 <> no_handle ->
  exists idx v v',
    (allocate_playing_sound (playing_sounds st)).1 = Some idx /\
    (1 <= idx < 128)%nat /\
    playing_sounds st !! idx = Some v /\ isEmpty v = true /\
    playing_sounds (play_sound_internal st a vol pit pn t0 t1 lp df).1 !! idx = Some v' /\
    version v' = int32 (version v + MAX_PLAYING_SOUNDS) /\
    Z.land (play_sound_internal st a vol pit pn t0 t1 lp df).2 PLAYING_SOUNDS_MASK
      = Z.of_nat idx /\
    Z.land (play_sound_internal st a vol pit pn t0 t1 lp df).2
      (uint32 (Z.lnot PLAYING_SOUNDS_MASK)) = uint32 (version v') /\
    (forall j, j <> idx ->
       playing_sounds (play_sound_internal st a vol pit pn t0 t1 lp df).1 !! j
       = playing_sounds st !! j).
Proof.
  intros Hal Hh.
  destruct (allocate_playing_sound (playing_sounds st)).1 as [idx|] eqn:Ha.
  2:{ exfalso. apply Hh. unfold play_sound_internal.
      destruct (allocate_playing_sound (playing_sounds st)) as [[i|] vs]; [done|]. done. }
  destruct (Z_lt_le_dec 2 (PcmSound.samples (target (assets st) a))) as [Hs|Hs].
  2:{ exfalso. apply Hh. unfold play_sound_internal.
      destruct (allocate_playing_sound (playing_sounds st)) as [[i|] vs]; [|done].
      cbv zeta. rewrite (proj2 (Z.leb_le _ _) Hs). done. }
  destruct (allocate_Some _ _ Ha) as (Hr & v0 & Hv0 & He0 & Hvs).
  destruct (play_success st a vol pit pn t0 t1 lp df idx Ha Hs)
    as (v & v' & Hv & He & Hv' & Hh' & _ & Hver & _).
  assert (Hmod : version v' mod 128 = 0).
  { rewrite Hver. apply int32_mod_128.
    unfold versions_aligned in Hal. rewrite Forall_lookup in Hal.
    specialize (Hal _ _ Hv). cbn in Hal.
    change MAX_PLAYING_SOUNDS with 128. rewrite Z.add_mod, Hal by lia. reflexivity. }
  assert (Hidx : 0 <= Z.of_nat idx < 128) by lia.
  destruct (handle_bits (Z.of_nat idx) (version v') Hidx Hmod) as [Hb1 Hb2].
  exists idx, v, v'. rewrite Hh'.
  repeat split; try done; try lia.
  intros j Hj. unfold play_sound_internal.
  destruct (allocate_playing_sound (playing_sounds st)) as [[i|] vs] eqn:Hall; [|done].
  cbn in Ha, Hvs. injection Ha as ->. subst vs.
  cbv zeta. rewrite (proj2 (Z.leb_gt _ _) Hs). cbn.
  rewrite list_lookup_insert_ne by done.
  now rewrite list_lookup_alter_ne by done.
Qed.

(** X6. [play] takes the lowest free slot, and never slot 0.  The index
    in a handle that [play] returns is between 1 and 127; that slot was
    empty, every slot below it (from 1 on) was not, and the handle
    resolves to that slot. *)
Theorem play_takes_lowest_free_slot st a vol pit pn t0 t1 lp df :
  versions_aligned (playing_sounds st) ->
  (play_sound_internal st a vol pit pn t0 t1 lp df).2 <> no_handle ->
  let h := (play_sound_internal st a vol pit pn t0 t1 lp df).2 in
  let idx := Z.to_nat (Z.land h PLAYING_SOUNDS_MASK) in
  (1 <= idx < 128)%nat /\
  (exists v, playing_sounds st !! idx = Some v /\ isEmpty v = true) /\
  (forall j w, (1 <= j < idx)%nat -> playing_sounds st !! j = Some w -> isEmpty w = false) /\
  handle_to_index (playing_sounds (play_sound_internal st a vol pit pn t0 t1 lp df).1) h
    = Some idx.
Proof.
  intros Hal Hh. cbv zeta.
  destruct (play_issued st a vol pit pn t0 t1 lp df Hal Hh)
    as (i & v & v' & Ha & Hr & Hv & He & Hv' & Hver & Hb1 & Hb2 & _).
  rewrite Hb1, Nat2Z.id.
  split; [exact Hr|]. split; [eauto|]. split.
  - intros j w Hj Hw.
    unfold allocate_playing_sound in Ha.
    destruct (scan_empty (playing_sounds st) 1 (Z.to_nat MAX_PLAYING_SOUNDS - 1)) as [k|] eqn:Hsc;
      [|done].
    cbn in Ha. injection Ha as ->.
    apply (scan_empty_lowest _ _ _ _ Hsc j w); [lia|exact Hw].
  - unfold handle_to_index, is_handle_valid. cbv zeta.
    rewrite Hb1, Nat2Z.id, Hv', Hb2, Z.eqb_refl.
    cbn [andb]. destruct (0 <? Z.of_nat i) eqn:E; [done|]. apply Z.ltb_ge in E. lia.
Qed.

(** X7. Issuing a handle retires the earlier handles of the slot it
    reuses, and no others.  After a play that returns a handle [h'], every
    handle with the same slot index that was valid before is invalid (so
    none of them equals [h']), handles of other slots are valid exactly as
    before, [h'] itself is valid and reported as playing, and the voices
    of the other slots are untouched. *)
Theorem play_retires_old_handles st a vol pit pn t0 t1 lp df :
  versions_aligned (playing_sounds st) ->
  (play_sound_internal st a vol pit pn t0 t1 lp df).2 <> no_handle ->
  let st' := (play_sound_internal st a vol pit pn t0 t1 lp df).1 in
  let h' := (play_sound_internal st a vol pit pn t0 t1 lp df).2 in
  is_handle_valid (playing_sounds st') h' = true /\
  is_playing st' h' = true /\
  (forall h, Z.land h PLAYING_SOUNDS_MASK = Z.land h' PLAYING_SOUNDS_MASK ->
     is_handle_valid (playing_sounds st) h = true ->
     is_handle_valid (playing_sounds st') h = false /\ h <> h') /\
  (forall h, Z.land h PLAYING_SOUNDS_MASK <> Z.land h' PLAYING_SOUNDS_MASK ->
     is_handle_valid (playing_sounds st') h = is_handle_valid (playing_sounds st) h) /\
  (forall j, j <> Z.to_nat (Z.land h' PLAYING_SOUNDS_MASK) ->
     playing_sounds st' !! j = playing_sounds st !! j).
Proof.
  intros Hal Hh st' h'.
  destruct (play_issued st a vol pit pn t0 t1 lp df Hal Hh)
    as (i & v & v' & Ha & Hr & Hv & He & Hv' & Hver & Hb1 & Hb2 & Hother).
  fold h' in Hb1, Hb2. fold st' in Hv', Hother.
  assert (Hvalid : is_handle_valid (playing_sounds st') h' = true).
  { unfold is_handle_valid. cbv zeta. rewrite Hb1, Nat2Z.id, Hv', Hb2, Z.eqb_refl.
    cbn [andb]. apply Z.ltb_lt. lia. }
  split; [exact Hvalid|]. split.
  { unfold is_playing, handle_to_index. rewrite Hvalid, Hb1, Nat2Z.id, Hv'. cbn.
    destruct (Z_lt_le_dec 2 (PcmSound.samples (target (assets st) a))) as [Hs|Hs].
    - destruct (play_success st a vol pit pn t0 t1 lp df i Ha Hs)
        as (w & w' & _ & _ & Hw' & _ & _ & _ & _ & _ & _ & _ & _ & _ & _ & _ & _ & _ & _ &
            Hsm & _).
      fold st' in Hw'. assert (w' = v') as -> by congruence.
      now rewrite Hsm.
    - exfalso. apply Hh. unfold play_sound_internal.
      destruct (allocate_playing_sound (playing_sounds st)) as [[k|] vs]; [|done].
      cbv zeta. now rewrite (proj2 (Z.leb_le _ _) Hs). }
  split.
  - intros h Hidx Hold.
    assert (Hnew : is_handle_valid (playing_sounds st') h = false).
    { destruct (is_handle_valid_lookup _ _ Hold) as (w & Hw & Hwv & _).
      rewrite Hidx, Hb1, Nat2Z.id in Hw.
      assert (w = v) as -> by congruence.
      apply advanced_version_invalid with v v'; [|exact Hwv|exact Hver].
      now rewrite Hidx, Hb1, Nat2Z.id. }
    split; [exact Hnew|]. intros ->. congruence.
  - split.
    + intros h Hidx. unfold is_handle_valid. cbv zeta.
      rewrite Hother; [reflexivity|].
      pose proof (land_mask_range h). rewrite Hb1 in Hidx. lia.
    + intros j Hj. apply Hother. rewrite Hb1, Nat2Z.id in Hj. exact Hj.
Qed.

(** X8. A refused play starts nothing.  When [play] returns [no_handle],
    every slot keeps its voice unchanged except, at most, for its version,
    and the assets, the master volume and the counters are untouched. *)
Theorem refused_play_starts_nothing st a vol pit pn t0 t1 lp df :
  versions_aligned (playing_sounds st) ->
  (play_sound_internal st a vol pit pn t0 t1 lp df).2 = no_handle ->
  let st' := (play_sound_internal st a vol pit pn t0 t1 lp df).1 in
  (forall i v, playing_sounds st !! i = Some v ->
     exists v', playing_sounds st' !! i = Some v' /\ set_version (version v') v = v' /\
                (version v' <> version v -> isEmpty v = true)) /\
  assets st' = assets st /\ master_volume st' = master_volume st /\
  total_samples_played st' = total_samples_played st /\
  total_time_played st' = total_time_played st.
Proof.
  intros Hal Hh st'.
  assert (Hcase : playing_sounds st' = (allocate_playing_sound (playing_sounds st)).2 /\
                  assets st' = assets st /\ master_volume st' = master_volume st /\
                  total_samples_played st' = total_samples_played st /\
                  total_time_played st' = total_time_played st).
  { destruct (allocate_playing_sound (playing_sounds st)).1 as [idx|] eqn:Ha.
    - destruct (Z_lt_le_dec 2 (PcmSound.samples (target (assets st) a))) as [Hs|Hs].
      + exfalso.
        destruct (play_success st a vol pit pn t0 t1 lp df idx Ha Hs)
          as (v & v' & Hv & _ & _ & Hh' & _ & Hver & _).
        destruct (allocate_Some _ _ Ha) as (Hr & _).
        assert (Hmod : version v' mod 128 = 0).
        { rewrite Hver. apply int32_mod_128.
          unfold versions_aligned in Hal. rewrite Forall_lookup in Hal.
          specialize (Hal _ _ Hv). cbn in Hal.
          change MAX_PLAYING_SOUNDS with 128. rewrite Z.add_mod, Hal by lia. reflexivity. }
        assert (Hidx : 0 <= Z.of_nat idx < 128) by lia.
        destruct (handle_bits (Z.of_nat idx) (version v') Hidx Hmod) as [Hb1 _].
        rewrite <- Hh', Hh in Hb1.
        change (Z.land no_handle PLAYING_SOUNDS_MASK) with 0 in Hb1. lia.
      + subst st'. unfold play_sound_internal.
        destruct (allocate_playing_sound (playing_sounds st)) as [[i|] vs]; [|done].
        cbv zeta. rewrite (proj2 (Z.leb_le _ _) Hs). done.
    - subst st'. unfold play_sound_internal.
      destruct (allocate_playing_sound (playing_sounds st)) as [[i|] vs]; done. }
  destruct Hcase as (Hvs & Hrest). split; [|exact Hrest].
  intros i v Hv. rewrite Hvs. unfold allocate_playing_sound.
  destruct (scan_empty _ _ _) as [k|] eqn:Hsc; cbn.
  - destruct (decide (i = k)) as [->|Hne].
    + rewrite list_lookup_alter_eq, Hv. cbn. eexists. split; [reflexivity|].
      split; [now destruct v|]. intros _.
      destruct (scan_empty_Some _ _ _ _ Hsc) as (_ & w & Hw & He). congruence.
    + rewrite list_lookup_alter_ne by done. exists v. split; [exact Hv|].
      split; [now destruct v|]. done.
  - exists v. split; [exact Hv|]. split; [now destruct v|]. done.
Qed.

(** ** Releasing assets *)

Section Release.

Variable sign : f32 -> f32.

Lemma stop_if_keeps_others (c : PlayingSound -> bool) σ (vs : list PlayingSound) (i : nat) v :
  vs !! i = Some v -> c v = false ->
  ((λ v, if c v then setStopMode sign σ v else v) <$> vs) !! i = Some v.
Proof.
  intros Hv Hc. rewrite list_lookup_fmap, Hv. cbn. now rewrite Hc.
Qed.

Lemma stop_if_releases (c : PlayingSound -> bool) (a : nat) σ (vs : list PlayingSound) :
  Forall voice_ok vs ->
  (forall v, sound v = Some a -> c v = true) ->
  Forall (λ v, sound v <> Some a) ((λ v, if c v then setStopMode sign σ v else v) <$> vs).
Proof.
  intros Hok Hc. apply Forall_fmap. eapply Forall_impl; [exact Hok|].
  intros v Hv. cbn.
  destruct (c v) eqn:E.
  - rewrite stopped_voice_has_no_asset by exact Hv. done.
  - intros Hs. specialize (Hc v Hs). congruence.
Qed.

Lemma hit_one v a :
  sound v = Some a -> bool_decide (sound v = Some a) && negb (isEmpty v) = true.
Proof.
  intros Hs. rewrite bool_decide_eq_true_2 by exact Hs.
  unfold isEmpty. now rewrite Hs.
Qed.

Lemma miss_one v a :
  sound v <> Some a -> bool_decide (sound v = Some a) && negb (isEmpty v) = false.
Proof. intros Hs. now rewrite bool_decide_eq_false_2 by exact Hs. Qed.

(** X9. Deleting an asset leaves no voice pointing at it.  After
    [delete_sound] no voice holds the deleted asset's address, voices of
    other assets are as before, the asset is invalid with 0 samples, other
    assets are untouched, and every later play of the deleted asset is
    refused.  The destructor does the same. *)
Theorem delete_sound_releases st a :
  table_ok (playing_sounds st) ->
  let st' := delete_sound sign st a in
  Forall (λ v, sound v <> Some a) (playing_sounds st') /\
  (forall i v, playing_sounds st !! i = Some v -> sound v <> Some a ->
     playing_sounds st' !! i = Some v) /\
  PcmSound.isValid (target (assets st') a) = false /\
  PcmSound.samples (target (assets st') a) = 0 /\
  (forall b, b <> a -> assets st' !! b = assets st !! b) /\
  (forall vol pit pn t0 t1 lp df,
     (play_sound_internal st' a vol pit pn t0 t1 lp df).2 = no_handle) /\
  (PcmSound.isValid (target (assets st) a) = true -> destroy_sound sign st a = st').
Proof.
  intros [_ Hok] st'.
  assert (Hs : PcmSound.samples (target (assets st') a) = 0).
  { subst st'. unfold delete_sound, target. cbn.
    rewrite lookup_alter_eq. now destruct (assets st !! a). }
  repeat split.
  - apply (stop_if_releases _ a); [exact Hok|]. intros v. apply hit_one.
  - intros i v Hv Hne. apply stop_if_keeps_others; [exact Hv|]. now apply miss_one.
  - subst st'. unfold delete_sound, target. cbn.
    rewrite lookup_alter_eq. now destruct (assets st !! a).
  - exact Hs.
  - intros b Hb. subst st'. unfold delete_sound. cbn. now rewrite lookup_alter_ne.
  - intros. unfold play_sound_internal.
    destruct (allocate_playing_sound (playing_sounds st')) as [[i|] vs]; [|done].
    cbv zeta. rewrite Hs. done.
  - intros Hv. unfold destroy_sound. now rewrite Hv.
Qed.

(** X10. Moving an asset leaves no voice pointing at the objects involved.
    After the move constructor no voice holds the address of the source;
    after the move assignment none holds the address of the source or of
    the destination.  In both cases the destination has the source's
    buffer, frequency, sample count and channel count, and the source is
    left without a buffer. *)
Theorem move_releases st this b :
  table_ok (playing_sounds st) ->
  Forall (λ v, sound v <> Some b) (playing_sounds (move_construct sign st this b)) /\
  Forall (λ v, sound v <> Some b /\ sound v <> Some this)
    (playing_sounds (move_assign sign st this b)) /\
  (this <> b ->
   target (assets (move_construct sign st this b)) this = target (assets st) b /\
   target (assets (move_assign sign st this b)) this = target (assets st) b) /\
  PcmSound.isValid (target (assets (move_construct sign st this b)) b) = false /\
  PcmSound.isValid (target (assets (move_assign sign st this b)) b) = false.
Proof.
  intros [_ Hok].
  split; [|split; [|split; [|split]]].
  - apply (stop_if_releases _ b); [exact Hok|]. intros v. apply hit_one.
  - apply Forall_and. split.
    + apply (stop_if_releases _ b); [exact Hok|]. intros v Hs.
      rewrite (bool_decide_eq_true_2 (sound v = Some b)) by exact Hs.
      rewrite orb_true_r. unfold isEmpty. now rewrite Hs.
    + apply (stop_if_releases _ this); [exact Hok|]. intros v Hs.
      rewrite (bool_decide_eq_true_2 (sound v = Some this)) by exact Hs.
      unfold isEmpty. now rewrite Hs.
  - intros Hne. unfold move_construct, move_assign, target. cbn.
    rewrite lookup_alter_ne by done. rewrite lookup_insert_eq. cbn.
    split; now destruct (default PcmSound.empty (assets st !! b)).
  - unfold move_construct, target. cbn. rewrite lookup_alter_eq.
    destruct (decide (this = b)) as [->|Hne].
    + now rewrite lookup_insert_eq.
    + rewrite lookup_insert_ne by done. now destruct (assets st !! b).
  - unfold move_assign, target. cbn. rewrite lookup_alter_eq.
    destruct (decide (this = b)) as [->|Hne].
    + now rewrite lookup_insert_eq.
    + rewrite lookup_insert_ne by done. now destruct (assets st !! b).
Qed.

(** X11. Stopping a deferred voice before it has started releases its slot
    at once: the slot is empty, the handle is invalid and the pool is not
    full.  A voice that had started keeps its slot, in stop-fade. *)
Theorem stop_sound_frees_waiting st h v a :
  is_handle_valid (playing_sounds st) h = true ->
  playing_sounds st !! Z.to_nat (Z.land h PLAYING_SOUNDS_MASK) = Some v ->
  sound v = Some a -> stopMode v = false ->
  exists v',
    playing_sounds (stop_sound sign st h) !! Z.to_nat (Z.land h PLAYING_SOUNDS_MASK) = Some v' /\
    is_handle_valid (playing_sounds (stop_sound sign st h)) h = false /\
    sound v' = None /\
    (waitingStart v = true ->
     isEmpty v' = true /\ ~ pool_full (playing_sounds (stop_sound sign st h))) /\
    (waitingStart v = false -> isEmpty v' = false /\ stopMode v' = true).
Proof.
  intros Hh Hv Hs Hm.
  destruct (is_handle_valid_lookup _ _ Hh) as (w & Hw & Hver & Hpos).
  assert (w = v) as -> by congruence.
  destruct (setStopMode_live sign (assets st) v a Hs Hm) as (H1 & H2 & H3 & H4).
  assert (Hv' : playing_sounds (stop_sound sign st h) !! Z.to_nat (Z.land h PLAYING_SOUNDS_MASK)
                = Some (setStopMode sign (assets st) v)).
  { unfold stop_sound, update_voice, handle_to_index. rewrite Hh. cbn.
    rewrite list_lookup_alter_eq, Hv. cbn. now rewrite Hs, Hm. }
  exists (setStopMode sign (assets st) v).
  split; [exact Hv'|]. split; [|split; [exact H2|split]].
  - now apply advanced_version_invalid with v (setStopMode sign (assets st) v).
  - intros Hw'. rewrite Hw' in H4. cbn in H4.
    assert (He : isEmpty (setStopMode sign (assets st) v) = true).
    { unfold isEmpty. now rewrite H2, H4, H3. }
    split; [exact He|]. intros Hfull.
    pose proof (land_mask_range h) as Hr.
    assert (Hi : (1 <= Z.to_nat (Z.land h PLAYING_SOUNDS_MASK) < 128)%nat) by lia.
    rewrite (Hfull _ _ Hi Hv') in He. done.
  - intros Hw'. rewrite Hw' in H4. cbn in H4.
    split; [|exact H4]. unfold isEmpty. now rewrite H2, H4.
Qed.

End Release.

(** ** The setters *)

Lemma update_voice_lookup st h f v :
  is_handle_valid (playing_sounds st) h = true ->
  playing_sounds st !! Z.to_nat (Z.land h PLAYING_SOUNDS_MASK) = Some v ->
  playing_sounds (update_voice st h f) !! Z.to_nat (Z.land h PLAYING_SOUNDS_MASK) = Some (f v) /\
  (forall j, j <> Z.to_nat (Z.land h PLAYING_SOUNDS_MASK) ->
     playing_sounds (update_voice st h f) !! j = playing_sounds st !! j).
Proof.
  intros Hh Hv. unfold update_voice, handle_to_index. rewrite Hh. cbn. split.
  - now rewrite list_lookup_alter_eq, Hv.
  - intros j Hj. now rewrite list_lookup_alter_ne.
Qed.

Lemma update_voice_keeps_handles st h f h' :
  (forall v, version (f v) = version v) ->
  is_handle_valid (playing_sounds (update_voice st h f)) h'
  = is_handle_valid (playing_sounds st) h'.
Proof.
  intros Hf. unfold update_voice.
  destruct (handle_to_index _ _) as [idx|]; [|done]. cbn.
  unfold is_handle_valid. cbv zeta.
  destruct (decide (Z.to_nat (Z.land h' PLAYING_SOUNDS_MASK) = idx)) as [<-|Hne].
  - rewrite list_lookup_alter_eq.
    destruct (playing_sounds st !! _) as [v|]; [|done]. cbn. now rewrite Hf.
  - now rewrite list_lookup_alter_ne.
Qed.

Lemma update_voice_keeps_playing st h f h' :
  (forall v, version (f v) = version v) ->
  (forall v, stopMode (f v) = stopMode v) ->
  is_playing (update_voice st h f) h' = is_playing st h'.
Proof.
  intros Hf Hm. unfold is_playing, handle_to_index.
  rewrite update_voice_keeps_handles by exact Hf.
  destruct (is_handle_valid _ _); [|done].
  unfold update_voice, handle_to_index.
  destruct (is_handle_valid _ h); [|done]. cbn.
  destruct (decide (Z.to_nat (Z.land h' PLAYING_SOUNDS_MASK)
                    = Z.to_nat (Z.land h PLAYING_SOUNDS_MASK))) as [<-|Hne].
  - rewrite list_lookup_alter_eq.
    destruct (playing_sounds st !! _) as [v|]; [|done]. cbn. now rewrite Hm.
  - now rewrite list_lookup_alter_ne.
Qed.

Lemma seek_keeps_version σ x v :
  version (match sound v with
           | None => v
           | Some a =>
               if stopMode v then v
               else set_pos (clamp (f2d (ffloor F32.prec F32.emax
                               (F32.mul (F32.of_int (PcmSound.frequency (target σ a))) x)))
                               (startPos v) (stopPos v)) v
           end) = version v /\
  stopMode (match sound v with
            | None => v
            | Some a =>
                if stopMode v then v
                else set_pos (clamp (f2d (ffloor F32.prec F32.emax
                                (F32.mul (F32.of_int (PcmSound.frequency (target σ a))) x)))
                                (startPos v) (stopPos v)) v
            end) = stopMode v.
Proof.
  destruct (sound v); [|done].
  destruct (stopMode v) eqn:E; cbn; rewrite ?E; done.
Qed.

(** X12. The setters never invalidate a handle and never start or stop a
    voice.  After [set_sound_pitch], [set_sound_volume], [set_sound_pan],
    [set_sound_play_pos] or [set_master_volume], with any handle and any
    value, every handle is valid exactly as before and [is_playing] answers
    as before. *)
Theorem setters_keep_handles st h x h' :
  (is_handle_valid (playing_sounds (set_sound_pitch st h x)) h'
     = is_handle_valid (playing_sounds st) h' /\
   is_playing (set_sound_pitch st h x) h' = is_playing st h') /\
  (is_handle_valid (playing_sounds (set_sound_volume st h x)) h'
     = is_handle_valid (playing_sounds st) h' /\
   is_playing (set_sound_volume st h x) h' = is_playing st h') /\
  (is_handle_valid (playing_sounds (set_sound_pan st h x)) h'
     = is_handle_valid (playing_sounds st) h' /\
   is_playing (set_sound_pan st h x) h' = is_playing st h') /\
  (is_handle_valid (playing_sounds (set_sound_play_pos st h x)) h'
     = is_handle_valid (playing_sounds st) h' /\
   is_playing (set_sound_play_pos st h x) h' = is_playing st h') /\
  (is_handle_valid (playing_sounds (set_master_volume st x)) h'
     = is_handle_valid (playing_sounds st) h' /\
   is_playing (set_master_volume st x) h' = is_playing st h').
Proof.
  repeat split;
    try (apply update_voice_keeps_handles; now intros []);
    try (apply update_voice_keeps_playing; now intros []).
  - apply update_voice_keeps_handles. intros v. apply seek_keeps_version.
  - apply update_voice_keeps_playing; intros v; apply seek_keeps_version.
Qed.

(** ** Seeking *)

Lemma float_of_pos_bounded_f32 (n : positive) :
  Zpos (digits2_pos n) <= 24 ->
  bounded 24 128 (int_mantissa 24 n) (Zpos (digits2_pos n) - 24) = true.
Proof.
  intros H. unfold bounded, canonical_mantissa, fexp, emin.
  rewrite int_mantissa_digits by assumption.
  apply andb_true_iff. split; [apply Z.eqb_eq|apply Z.leb_le]; lia.
Qed.

(** [float(n)] of an integer below 2^24 is exact. *)
Lemma F32_of_int_nonneg (k : Z) :
  0 <= k < 2 ^ 24 ->
  F32.of_int k = match k with Zpos n => float_of_pos 24 false n | _ => S754_zero false end.
Proof.
  intros Hk. destruct k as [|n|n]; [reflexivity| |lia].
  unfold F32.of_int, binary_normalize.
  assert (Hd : Zpos (digits2_pos n) <= 24) by (apply digits_le_of_lt; lia).
  apply binary_round_value; [now apply float_of_pos_bounded_f32|].
  rewrite Z.min_r by lia. rewrite Z.sub_diag, Z.mul_1_r, int_mantissa_value by assumption.
  f_equal. f_equal. lia.
Qed.

Lemma SFmul_not_nan prec emax x y :
  is_number x -> is_number y -> SFmul prec emax x y <> S754_nan.
Proof.
  destruct x as [sx|sx| |sx mx ex], y as [sy|sy| |sy my ey]; cbn; try done.
  intros _ _. apply binary_round_aux_not_nan.
Qed.

Lemma binary_normalize_not_nan prec emax z e s : binary_normalize prec emax z e s <> S754_nan.
Proof.
  destruct z as [|p|p]; cbn [binary_normalize]; [discriminate| |];
    unfold binary_round; destruct (shl_align _ _ _) as [mz ez]; apply binary_round_aux_not_nan.
Qed.

Lemma ffloor_not_nan prec emax x : x <> S754_nan -> ffloor prec emax x <> S754_nan.
Proof.
  destruct x as [s|s| |s m e]; cbn; try done.
  intros _. destruct (0 <=? e); [done|]. apply binary_normalize_not_nan.
Qed.

Lemma f2d_not_nan x : x <> S754_nan -> f2d x <> S754_nan.
Proof.
  destruct x as [s|s| |s m e]; cbn; try done.
  intros _. unfold binary_round. destruct (shl_align _ _ _) as [mz ez].
  apply binary_round_aux_not_nan.
Qed.

(** X13. [set_sound_play_pos] keeps the position between [startPos] and
    [stopPos].  For a valid handle of a voice that holds an asset and is
    not in stop-fade, and a finite time, the new position is a number with
    [startPos <= pos <= stopPos]; nothing else about the voice changes. *)
Theorem set_sound_play_pos_clamps st h v a x :
  is_handle_valid (playing_sounds st) h = true ->
  playing_sounds st !! Z.to_nat (Z.land h PLAYING_SOUNDS_MASK) = Some v ->
  sound v = Some a -> stopMode v = false ->
  fle (startPos v) (stopPos v) = true ->
  0 <= PcmSound.frequency (target (assets st) a) < 2 ^ 24 ->
  is_number x ->
  exists p,
    playing_sounds (set_sound_play_pos st h x) !! Z.to_nat (Z.land h PLAYING_SOUNDS_MASK)
      = Some (set_pos p v) /\
    p <> S754_nan /\
    fle (startPos v) p = true /\ fle p (stopPos v) = true.
Proof.
  intros Hh Hv Hs Hm Hle Hf Hx.
  eexists. split.
  - unfold set_sound_play_pos.
    rewrite (proj1 (update_voice_lookup st h _ v Hh Hv)).
    rewrite Hs, Hm. reflexivity.
  - assert (Hp : f2d (ffloor F32.prec F32.emax
                  (F32.mul (F32.of_int (PcmSound.frequency (target (assets st) a))) x))
                 <> S754_nan).
    { apply f2d_not_nan, ffloor_not_nan, SFmul_not_nan; [|exact Hx].
      rewrite F32_of_int_nonneg by exact Hf.
      now destruct (PcmSound.frequency _). }
    destruct (clamp_bounds _ _ _ Hp Hle) as (H1 & H2 & H3). done.
Qed.

(** ** Sample data in and out *)

Lemma lookup_memcpy d src n (i : nat) :
  memcpy d src n !! i = (λ x, if decide (i < n)%nat then src i else x) <$> d !! i.
Proof. unfold memcpy. apply list_lookup_imap. Qed.

Lemma rd_lookup d (i : nat) x : d !! i = Some x -> rd d (Z.of_nat i) = x.
Proof. intros H. unfold rd. now rewrite Nat2Z.id, H. Qed.

(** A copy of [min (length out) (length data)] floats. *)
Lemma memcpy_prefix (out data : list f32) (src : nat -> f32) :
  (forall i x, data !! i = Some x -> src i = x) ->
  memcpy out src (length out `min` length data)
  = take (length out) data ++ drop (length data) out.
Proof.
  intros Hsrc. apply list_eq. intros i. rewrite lookup_memcpy.
  destruct (decide (i < length out)%nat) as [Hi|Hi].
  - destruct (lookup_lt_is_Some_2 _ _ Hi) as [y Hy]. rewrite Hy. cbn.
    destruct (decide (i < length out `min` length data)%nat) as [Hc|Hc].
    + rewrite lookup_app_l by (rewrite length_take; lia).
      rewrite lookup_take_lt by lia.
      destruct (lookup_lt_is_Some_2 data i ltac:(lia)) as [x Hx].
      rewrite Hx. f_equal. now apply Hsrc.
    + rewrite lookup_app_r by (rewrite length_take; lia).
      rewrite length_take, lookup_drop, <- Hy. f_equal. lia.
  - rewrite (lookup_ge_None_2 out i) by lia. cbn. symmetry.
    apply lookup_ge_None_2. rewrite length_app, length_take, length_drop. lia.
Qed.

Lemma copy_count_min {A} (s : PcmSound.t) (l : list A) :
  0 <= PcmSound.samples s -> Z.of_nat (length l) <= INT_MAX ->
  copy_count s l = Z.of_nat (length l `min` Z.to_nat (PcmSound.samples s)).
Proof.
  intros Hs Hl. unfold copy_count. rewrite size_small by exact Hl.
  rewrite int32_small by (unfold INT_MIN, INT_MAX in *; lia).
  destruct (_ <? _) eqn:E; [apply Z.ltb_lt in E|apply Z.ltb_ge in E]; lia.
Qed.

(** The buffer of a mono asset made by [create_sound]. *)
Lemma create_sound_data junk past f data :
  1 <= f -> (0 < length data)%nat -> 4 * (Z.of_nat (length data) + 4) <= INT_MAX ->
  exists d,
    create_sound junk past f data = PcmSound.mk (Some d) f (Z.of_nat (length data)) 1 /\
    (forall i x, data !! i = Some x -> d !! i = Some x).
Proof.
  intros Hf Hpos Hmax. unfold create_sound.
  assert (Hsz : size data = Z.of_nat (length data)) by (apply size_small; lia).
  rewrite Hsz. replace (f <? 1) with false by (symmetry; apply Z.ltb_ge; lia).
  replace (Z.of_nat (length data) =? 0) with false by (symmetry; apply Z.eqb_neq; lia).
  cbn [orb]. rewrite (int32_small (Z.of_nat (length data))) by (unfold INT_MIN, INT_MAX in *; lia).
  unfold PcmSound.getDataMemorySize. cbn [PcmSound.channels PcmSound.samples].
  rewrite int32_small by (unfold INT_MIN, INT_MAX in *; lia).
  eexists. split; [reflexivity|].
  intros i x Hx. pose proof (lookup_lt_Some _ _ _ Hx) as Hi.
  unfold wr.
  assert (Z.to_nat (Z.of_nat (length data)) <> i) by (clear - Hi; lia).
  rewrite list_lookup_insert_ne by assumption.
  rewrite lookup_memcpy.
  destruct (lookup_lt_is_Some_2 (newData junk (1 * (Z.of_nat (length data) + 4) * 4)) i) as [y Hy].
  { rewrite length_newData. lia. }
  rewrite Hy. cbn. rewrite Z.div_mul by lia.
  rewrite decide_True by (clear - Hi; lia).
  unfold read_past. now rewrite Hx.
Qed.

Lemma interleave_cons p l : interleave (p :: l) = p.1 :: p.2 :: interleave l.
Proof. reflexivity. Qed.

Lemma interleave_app l1 l2 : interleave (l1 ++ l2) = interleave l1 ++ interleave l2.
Proof. induction l1 as [|p l1 IH]; [done|]. cbn [app]. rewrite !interleave_cons, IH. done. Qed.

Lemma pairs_interleave l : pairs (interleave l) = l.
Proof.
  induction l as [|[a b] l IH]; [done|].
  rewrite interleave_cons. cbn [pairs fst snd]. now rewrite IH.
Qed.

Lemma take_interleave (n : nat) l : take (2 * n) (interleave l) = interleave (take n l).
Proof.
  revert l. induction n as [|n IH]; intros l; [done|].
  destruct l as [|p l]; [done|].
  replace (2 * S n)%nat with (S (S (2 * n))) by lia.
  rewrite interleave_cons. cbn [take]. rewrite interleave_cons. now rewrite IH.
Qed.

Lemma drop_interleave (n : nat) l : drop (2 * n) (interleave l) = interleave (drop n l).
Proof.
  revert l. induction n as [|n IH]; intros l; [done|].
  destruct l as [|p l]; [done|].
  replace (2 * S n)%nat with (S (S (2 * n))) by lia.
  rewrite interleave_cons. cbn [drop]. now rewrite IH.
Qed.

Lemma lookup_interleave l (i : nat) p :
  l !! i = Some p ->
  interleave l !! (2 * i)%nat = Some p.1 /\ interleave l !! (2 * i + 1)%nat = Some p.2.
Proof.
  revert i. induction l as [|q l IH]; intros i H; [done|].
  rewrite interleave_cons. destruct i as [|i]; cbn in H.
  - injection H as ->. done.
  - replace (2 * S i)%nat with (S (S (2 * i))) by lia.
    replace (S (S (2 * i)) + 1)%nat with (S (S (2 * i + 1))) by lia.
    cbn. now apply IH.
Qed.

(** The buffer of a stereo asset made by [create_sound_stereo]. *)
Lemma create_sound_stereo_data junk past f data :
  1 <= f -> (0 < length data)%nat -> 8 * (Z.of_nat (length data) + 4) <= INT_MAX ->
  exists d,
    create_sound_stereo junk past f data = PcmSound.mk (Some d) f (Z.of_nat (length data)) 2 /\
    (forall i x, interleave data !! i = Some x -> d !! i = Some x).
Proof.
  intros Hf Hpos Hmax. unfold create_sound_stereo.
  assert (Hsz : size data = Z.of_nat (length data)) by (apply size_small; lia).
  rewrite Hsz. replace (f <? 1) with false by (symmetry; apply Z.ltb_ge; lia).
  replace (Z.of_nat (length data) =? 0) with false by (symmetry; apply Z.eqb_neq; lia).
  cbn [orb]. rewrite (int32_small (Z.of_nat (length data))) by (unfold INT_MIN, INT_MAX in *; lia).
  unfold PcmSound.getDataMemorySize. cbn [PcmSound.channels PcmSound.samples].
  rewrite !int32_small by (unfold INT_MIN, INT_MAX in *; lia).
  eexists. split; [reflexivity|].
  intros i x Hx. pose proof (lookup_lt_Some _ _ _ Hx) as Hi.
  rewrite length_interleave in Hi.
  unfold wr.
  assert (Z.to_nat (Z.of_nat (length data) * 2) <> i) by (clear - Hi; lia).
  assert (Z.to_nat (Z.of_nat (length data) * 2 + 1) <> i) by (clear - Hi; lia).
  rewrite !list_lookup_insert_ne by assumption.
  rewrite lookup_memcpy.
  destruct (lookup_lt_is_Some_2 (newData junk (2 * (Z.of_nat (length data) + 4) * 4)) i) as [y Hy].
  { rewrite length_newData. lia. }
  rewrite Hy. cbn. rewrite Z.div_mul by lia.
  rewrite decide_True by (clear - Hi; lia).
  unfold read_past. now rewrite Hx.
Qed.

Lemma lookup_of_rd d (j : nat) :
  (j < length d)%nat -> d !! j = Some (rd d (Z.of_nat j)).
Proof.
  intros H. destruct (lookup_lt_is_Some_2 _ _ H) as [x Hx].
  now rewrite (rd_lookup _ _ _ Hx).
Qed.

Lemma rd_memcpy_in d src n (j : nat) :
  (j < n)%nat -> (j < length d)%nat -> rd (memcpy d src n) (Z.of_nat j) = src j.
Proof.
  intros Hn Hl. apply rd_lookup. rewrite lookup_memcpy.
  destruct (lookup_lt_is_Some_2 _ _ Hl) as [x ->]. cbn. now rewrite decide_True.
Qed.

Lemma rd_memcpy_out d src n (j : nat) :
  (n <= j)%nat -> rd (memcpy d src n) (Z.of_nat j) = rd d (Z.of_nat j).
Proof.
  intros Hn. unfold rd. rewrite Nat2Z.id, lookup_memcpy.
  destruct (d !! j); [|done]. cbn. now rewrite decide_False by lia.
Qed.

(** The loop that writes every sample to both channels. *)
Lemma spread_loop_out d ptr i n j :
  0 <= i -> 0 <= j -> j < 2 * i \/ 2 * (i + Z.of_nat n) <= j ->
  rd (spread_loop d ptr i n) j = rd d j.
Proof.
  revert d i. induction n as [|n IH]; intros d i Hi Hj Hout; [done|].
  cbn [spread_loop]. rewrite IH by lia.
  rewrite !rd_wr_ne by lia. done.
Qed.

Lemma spread_loop_in d ptr i n k :
  0 <= i -> i <= k < i + Z.of_nat n -> (Z.to_nat (2 * k + 1) < length d)%nat ->
  rd (spread_loop d ptr i n) (2 * k) = rd ptr k /\
  rd (spread_loop d ptr i n) (2 * k + 1) = rd ptr k.
Proof.
  revert d i. induction n as [|n IH]; intros d i Hi Hk Hl; [lia|].
  cbn [spread_loop].
  destruct (decide (k = i)) as [->|Hne].
  - rewrite !spread_loop_out by lia.
    replace (i * 2) with (2 * i) by lia.
    rewrite rd_wr_ne by lia. rewrite rd_wr_eq by (rewrite ?length_wr; lia).
    rewrite rd_wr_eq by (rewrite ?length_wr; lia). done.
  - apply IH; [lia|lia|]. now rewrite !length_wr.
Qed.

(** The loop that stores the mean of the two channels. *)
Lemma average_loop_out d ptr i n j :
  0 <= i -> 0 <= j -> j < i \/ i + Z.of_nat n <= j ->
  rd (average_loop d ptr i n) j = rd d j.
Proof.
  revert d i. induction n as [|n IH]; intros d i Hi Hj Hout; [done|].
  cbn [average_loop]. rewrite IH by lia.
  rewrite !rd_wr_ne by lia. done.
Qed.

Lemma average_loop_in d ptr i n k :
  0 <= i -> i <= k < i + Z.of_nat n -> (Z.to_nat k < length d)%nat ->
  rd (average_loop d ptr i n) k
  = F32.mul (F32.add (rd ptr (2 * k)) (rd ptr (2 * k + 1))) c_0_5.
Proof.
  revert d i. induction n as [|n IH]; intros d i Hi Hk Hl; [lia|].
  cbn [average_loop].
  destruct (decide (k = i)) as [->|Hne].
  - rewrite average_loop_out by lia.
    rewrite rd_wr_eq by lia. now replace (i * 2) with (2 * i) by lia.
  - apply IH; [lia|lia|]. now rewrite !length_wr.
Qed.

Lemma lookup_pairs l (i : nat) a b :
  l !! (2 * i)%nat = Some a -> l !! (2 * i + 1)%nat = Some b -> pairs l !! i = Some (a, b).
Proof.
  revert l. induction i as [|i IH]; intros l Ha Hb.
  - destruct l as [|x [|y l]]; cbn in *; congruence.
  - destruct l as [|x [|y l]]; [done|done|].
    replace (2 * S i)%nat with (S (S (2 * i))) in Ha by lia.
    replace (2 * S i + 1)%nat with (S (S (2 * i + 1))) in Hb by lia.
    cbn in Ha, Hb. cbn. now apply IH.
Qed.

(** What the getters deliver at index [i], for either channel count. *)
Lemma get_sound_data_lookup s d out (i : nat) :
  PcmSound.data s = Some d -> 0 <= PcmSound.samples s ->
  Z.of_nat (length out) <= INT_MAX ->
  (i < length out)%nat -> Z.of_nat i < PcmSound.samples s ->
  (PcmSound.channels s = 1 -> get_sound_data s out !! i = Some (rd d (Z.of_nat i))) /\
  (PcmSound.channels s = 2 ->
   get_sound_data s out !! i
   = Some (F32.mul (F32.add (rd d (2 * Z.of_nat i)) (rd d (2 * Z.of_nat i + 1))) c_0_5)).
Proof.
  intros Hd Hs Hout Hi His. unfold get_sound_data. rewrite Hd.
  rewrite copy_count_min by assumption.
  replace (Z.of_nat _ =? 0) with false by (symmetry; apply Z.eqb_neq; lia).
  rewrite Nat2Z.id.
  split; intros ->; cbn [Z.eqb Pos.eqb].
  - rewrite lookup_memcpy. destruct (lookup_lt_is_Some_2 _ _ Hi) as [y ->]. cbn.
    now rewrite decide_True by lia.
  - rewrite lookup_of_rd by now rewrite length_average_loop.
    f_equal. apply average_loop_in; lia.
Qed.

Lemma get_sound_data_stereo_lookup s d (out : list (f32 * f32)) (i : nat) :
  PcmSound.data s = Some d -> 0 <= PcmSound.samples s ->
  Z.of_nat (length out) <= INT_MAX ->
  (i < length out)%nat -> Z.of_nat i < PcmSound.samples s ->
  (PcmSound.channels s = 1 ->
   get_sound_data_stereo s out !! i = Some (rd d (Z.of_nat i), rd d (Z.of_nat i))) /\
  (PcmSound.channels s = 2 ->
   get_sound_data_stereo s out !! i
   = Some (rd d (2 * Z.of_nat i), rd d (2 * Z.of_nat i + 1))).
Proof.
  intros Hd Hs Hout Hi His. unfold get_sound_data_stereo. rewrite Hd.
  rewrite copy_count_min by assumption.
  replace (Z.of_nat _ =? 0) with false by (symmetry; apply Z.eqb_neq; lia).
  split; intros ->; cbn [Z.eqb Pos.eqb].
  - apply lookup_pairs.
    + rewrite lookup_of_rd by (rewrite length_spread_loop, length_interleave; lia).
      f_equal. replace (Z.of_nat (2 * i)) with (2 * Z.of_nat i) by lia.
      apply spread_loop_in; [lia|lia|]. rewrite length_interleave. lia.
    + rewrite lookup_of_rd by (rewrite length_spread_loop, length_interleave; lia).
      f_equal. replace (Z.of_nat (2 * i + 1)) with (2 * Z.of_nat i + 1) by lia.
      apply spread_loop_in; [lia|lia|]. rewrite length_interleave. lia.
  - apply lookup_pairs.
    + rewrite lookup_memcpy.
      destruct (lookup_lt_is_Some_2 (interleave out) (2 * i)) as [y ->];
        [rewrite length_interleave; lia|]. cbn.
      rewrite decide_True by lia. f_equal. f_equal. lia.
    + rewrite lookup_memcpy.
      destruct (lookup_lt_is_Some_2 (interleave out) (2 * i + 1)) as [y ->];
        [rewrite length_interleave; lia|]. cbn.
      rewrite decide_True by lia. f_equal. f_equal. lia.
Qed.

(** The buffer of an asset made from a decoded file. *)
Lemma create_sound_from_file_data junk f :
  dec_channels f = 1 \/ dec_channels f = 2 ->
  0 <= totalPCMFrameCount f ->
  dec_channels f * (totalPCMFrameCount f + 4) * 4 <= INT_MAX ->
  exists d,
    create_sound_from_file junk (Some f)
    = PcmSound.mk (Some d) (int32 (sampleRate f)) (totalPCMFrameCount f) (dec_channels f) /\
    (forall j, 0 <= j < dec_channels f * totalPCMFrameCount f ->
       rd d j = rd (pSampleData f) j).
Proof.
  intros Hch Hn Hmax. unfold create_sound_from_file.
  assert (Hc32 : int32 (dec_channels f) = dec_channels f)
    by (apply int32_small; unfold INT_MIN, INT_MAX; lia).
  assert (Hn32 : int32 (totalPCMFrameCount f) = totalPCMFrameCount f)
    by (apply int32_small; unfold INT_MIN, INT_MAX in *; lia).
  unfold PcmSound.getDataMemorySize. cbn [PcmSound.channels PcmSound.samples PcmSound.frequency].
  rewrite Hc32, Hn32.
  rewrite (int32_small (dec_channels f * _ * 4)) by (unfold INT_MIN, INT_MAX in *; lia).
  set (d := memcpy _ _ _).
  assert (Hlen : length d = Z.to_nat (dec_channels f * (totalPCMFrameCount f + 4) * 4)).
  { unfold d. now rewrite length_memcpy, length_newData. }
  assert (Hd : forall j, 0 <= j < dec_channels f * totalPCMFrameCount f ->
                 rd d j = rd (pSampleData f) j).
  { intros j Hj. rewrite <- (Z2Nat.id j) at 1 by lia. unfold d.
    rewrite rd_memcpy_in; [|lia|rewrite length_newData; lia].
    unfold compose. now rewrite Z2Nat.id by lia. }
  destruct Hch as [Hch|Hch]; rewrite Hch in *; cbn [Z.eqb Pos.eqb negb andb].
  - eexists. split; [reflexivity|]. intros j Hj.
    rewrite rd_wr_ne by lia. now apply Hd.
  - rewrite (int32_small (totalPCMFrameCount f * 2)) by (unfold INT_MIN, INT_MAX in *; lia).
    rewrite (int32_small (totalPCMFrameCount f * 2 + 1)) by (unfold INT_MIN, INT_MAX in *; lia).
    eexists. split; [reflexivity|]. intros j Hj.
    rewrite !rd_wr_ne by lia. now apply Hd.
Qed.

Lemma create_from_file_get junk f (i : nat) :
  0 <= totalPCMFrameCount f ->
  dec_channels f * (totalPCMFrameCount f + 4) * 4 <= INT_MAX ->
  Z.of_nat i < totalPCMFrameCount f ->
  (forall out : list f32,
     dec_channels f = 1 -> Z.of_nat (length out) <= INT_MAX -> (i < length out)%nat ->
     get_sound_data (create_sound_from_file junk (Some f)) out !! i
     = Some (rd (pSampleData f) (Z.of_nat i))) /\
  (forall out : list (f32 * f32),
     dec_channels f = 2 -> Z.of_nat (length out) <= INT_MAX -> (i < length out)%nat ->
     get_sound_data_stereo (create_sound_from_file junk (Some f)) out !! i
     = Some (rd (pSampleData f) (2 * Z.of_nat i), rd (pSampleData f) (2 * Z.of_nat i + 1))).
Proof.
  intros Hn Hmax Hi. split; intros out Hch Hout Hlt.
  - destruct (create_sound_from_file_data junk f (or_introl Hch) Hn Hmax) as (d & -> & Hd).
    rewrite (proj1 (get_sound_data_lookup (PcmSound.mk (Some d) _ _ _) d out i
                      eq_refl Hn Hout Hlt Hi)) by exact Hch.
    f_equal. apply Hd. lia.
  - destruct (create_sound_from_file_data junk f (or_intror Hch) Hn Hmax) as (d & -> & Hd).
    rewrite (proj2 (get_sound_data_stereo_lookup (PcmSound.mk (Some d) _ _ _) d out i
                      eq_refl Hn Hout Hlt Hi)) by exact Hch.
    rewrite !Hd by lia. reflexivity.
Qed.

(** X14. What is put into an asset at creation is what the getters return.
    [get_sound_data] on an asset made by [create_sound] overwrites the
    first [min (length out) (length data)] elements of the array with the
    samples given at creation and leaves the rest; likewise
    [get_sound_data_stereo] after [create_sound_stereo].  From an asset
    made by [create_sound_from_file] the getter of the file's channel
    layout returns the decoded samples. *)
Theorem create_get_round_trip junk past f :
  (forall (data out : list f32),
     1 <= f -> (0 < length data)%nat -> 4 * (Z.of_nat (length data) + 4) <= INT_MAX ->
     Z.of_nat (length out) <= INT_MAX ->
     get_sound_data (create_sound junk past f data) out
     = take (length out) data ++ drop (length data) out) /\
  (forall (data out : list (f32 * f32)),
     1 <= f -> (0 < length data)%nat -> 8 * (Z.of_nat (length data) + 4) <= INT_MAX ->
     Z.of_nat (length out) <= INT_MAX ->
     get_sound_data_stereo (create_sound_stereo junk past f data) out
     = take (length out) data ++ drop (length data) out) /\
  (forall file (i : nat),
     0 <= totalPCMFrameCount file ->
     dec_channels file * (totalPCMFrameCount file + 4) * 4 <= INT_MAX ->
     Z.of_nat i < totalPCMFrameCount file ->
     (forall out : list f32,
        dec_channels file = 1 -> Z.of_nat (length out) <= INT_MAX -> (i < length out)%nat ->
        get_sound_data (create_sound_from_file junk (Some file)) out !! i
        = Some (rd (pSampleData file) (Z.of_nat i))) /\
     (forall out : list (f32 * f32),
        dec_channels file = 2 -> Z.of_nat (length out) <= INT_MAX -> (i < length out)%nat ->
        get_sound_data_stereo (create_sound_from_file junk (Some file)) out !! i
        = Some (rd (pSampleData file) (2 * Z.of_nat i),
                rd (pSampleData file) (2 * Z.of_nat i + 1)))).
Proof.
  split; [|split]; [| |intros file i; apply create_from_file_get];
    intros data out Hf Hpos Hmax Hout.
  - destruct (create_sound_data junk past f data Hf Hpos Hmax) as (d & -> & Hd).
    unfold get_sound_data. cbn [PcmSound.data PcmSound.channels].
    rewrite copy_count_min by (cbn; lia). cbn [PcmSound.samples].
    rewrite Nat2Z.id.
    destruct (Z.of_nat _ =? 0) eqn:E.
    + apply Z.eqb_eq in E.
      assert (length out = 0%nat) as Hz by lia.
      destruct out; [|done]. now rewrite drop_nil, app_nil_r.
    + cbn [Z.eqb Pos.eqb]. rewrite Nat2Z.id.
      apply memcpy_prefix. intros i x Hx. cbn. apply rd_lookup. now apply Hd.
  - destruct (create_sound_stereo_data junk past f data Hf Hpos Hmax) as (d & -> & Hd).
    unfold get_sound_data_stereo. cbn [PcmSound.data PcmSound.channels].
    rewrite copy_count_min by (cbn; lia). cbn [PcmSound.samples].
    rewrite Nat2Z.id.
    destruct (Z.of_nat _ =? 0) eqn:E.
    + apply Z.eqb_eq in E.
      assert (length out = 0%nat) as Hz by lia.
      destruct out; [|done]. now rewrite drop_nil, app_nil_r.
    + cbn [Z.eqb Pos.eqb].
      replace (Z.to_nat (2 * Z.of_nat (length out `min` length data)))
        with (length (interleave out) `min` length (interleave data))%nat
        by (rewrite !length_interleave; lia).
      rewrite (memcpy_prefix _ (interleave data)).
      * rewrite !length_interleave, take_interleave, drop_interleave, <- interleave_app.
        apply pairs_interleave.
      * intros i x Hx. cbn. apply rd_lookup. now apply Hd.
Qed.

(** ** [(x + x) * 0.5f] *)

Lemma c_0_5_value : c_0_5 = S754_finite false 8388608 (-24).
Proof. reflexivity. Qed.

Lemma bounded_f32_cases m e :
  bounded 24 128 m e = true ->
  e <= 104 /\ -149 <= e /\
  (Zpos (digits2_pos m) = 24 \/ (e = -149 /\ Zpos (digits2_pos m) < 24)).
Proof.
  unfold bounded, canonical_mantissa, fexp, emin. intros H.
  apply andb_true_iff in H as [H1 H2]. apply Z.eqb_eq in H1. apply Z.leb_le in H2.
  lia.
Qed.

Lemma bounded_f32_intro m e :
  -149 <= e <= 104 ->
  (Zpos (digits2_pos m) = 24 \/ (e = -149 /\ Zpos (digits2_pos m) <= 24)) ->
  bounded 24 128 m e = true.
Proof.
  intros He Hd. unfold bounded, canonical_mantissa, fexp, emin.
  apply andb_true_iff. split; [apply Z.eqb_eq|apply Z.leb_le]; lia.
Qed.

Lemma F32_add_self s m e :
  bounded 24 128 m e = true -> e < 104 ->
  F32.add (S754_finite s m e) (S754_finite s m e)
  = if Zpos (digits2_pos m) =? 24 then S754_finite s m (e + 1)
    else S754_finite s (m~0) e.
Proof.
  intros Hb He.
  destruct (bounded_f32_cases m e Hb) as (_ & Hlo & Hd).
  assert (Hadd : F32.add (S754_finite s m e) (S754_finite s m e)
                 = binary_round 24 128 s (m~0) e).
  { unfold F32.add, SFadd. rewrite Z.min_id. unfold shl_align. rewrite Z.sub_diag.
    cbn [fst]. destruct s; cbn [cond_Zopp].
    - change (- Z.pos m + - Z.pos m) with (Z.neg (m + m)). now rewrite Pos.add_diag.
    - change (Z.pos m + Z.pos m) with (Z.pos (m + m)). now rewrite Pos.add_diag. }
  rewrite Hadd.
  destruct (Zpos (digits2_pos m) =? 24) eqn:E.
  - apply Z.eqb_eq in E.
    apply binary_round_value.
    + apply bounded_f32_intro; lia.
    + rewrite Z.min_l by lia. rewrite Z.sub_diag.
      replace (e + 1 - e) with 1 by lia.
      rewrite Pos2Z.inj_xO. lia.
  - apply Z.eqb_neq in E.
    apply binary_round_value.
    + apply bounded_f32_intro; [lia|]. right. cbn [digits2_pos]. lia.
    + reflexivity.
Qed.

Lemma average_of_twice (x : f32) :
  F32.valid x = true -> below_2_127 x -> F32.mul (F32.add x x) c_0_5 = x.
Proof.
  destruct x as [[]|[]| |s m e]; try reflexivity.
  cbn [F32.valid valid_binary below_2_127]. unfold F32.valid. cbn [valid_binary].
  intros Hb He.
  rewrite F32_add_self by assumption.
  destruct (bounded_f32_cases m e Hb) as (_ & Hlo & Hd).
  rewrite c_0_5_value.
  destruct (Zpos (digits2_pos m) =? 24) eqn:E.
  - unfold F32.mul, SFmul. rewrite xorb_false_r.
    replace (e + 1 + -24) with (e - 23) by lia.
    apply (round_aux_value F32.prec F32.emax s (m * 8388608) m e 23); [exact Hb|lia|].
    rewrite Pos2Z.inj_mul. reflexivity.
  - unfold F32.mul, SFmul. rewrite xorb_false_r.
    replace (e + -24) with (e - 24) by lia.
    apply (round_aux_value F32.prec F32.emax s (m~0 * 8388608) m e 24); [exact Hb|lia|].
    rewrite Pos2Z.inj_mul, (Pos2Z.inj_xO m).
    change (2 ^ 24) with 16777216. lia.
Qed.

(** What the bulk setters leave at frame [i] of the buffer. *)
Lemma set_sound_data_stored s (inp : list f32) (i : nat) x :
  allocated s -> Z.of_nat (length inp) <= INT_MAX ->
  inp !! i = Some x -> Z.of_nat i < PcmSound.samples s ->
  exists d',
    PcmSound.data (set_sound_data s inp) = Some d' /\
    PcmSound.samples (set_sound_data s inp) = PcmSound.samples s /\
    PcmSound.channels (set_sound_data s inp) = PcmSound.channels s /\
    (PcmSound.channels s = 1 -> rd d' (Z.of_nat i) = x) /\
    (PcmSound.channels s = 2 ->
     rd d' (2 * Z.of_nat i) = x /\ rd d' (2 * Z.of_nat i + 1) = x).
Proof.
  intros (d & Hd & Hs & Hc & Hmax & Hlen) Hin Hx Hi.
  pose proof (lookup_lt_Some _ _ _ Hx) as Hlt.
  unfold set_sound_data. rewrite Hd.
  rewrite copy_count_min by assumption.
  replace (Z.of_nat _ =? 0) with false by (symmetry; apply Z.eqb_neq; lia).
  rewrite Nat2Z.id.
  destruct Hc as [Hc|Hc]; rewrite Hc in *; cbn [Z.eqb Pos.eqb].
  - eexists. split; [reflexivity|]. split; [reflexivity|]. split; [reflexivity|].
    split; [intros _|intros; lia].
    rewrite rd_wr_ne by lia.
    rewrite rd_memcpy_in by lia. cbn. now apply rd_lookup.
  - assert (H32 : forall z, 0 <= z <= 2 * PcmSound.samples s + 1 -> int32 z = z).
    { intros z Hz. apply int32_small. unfold INT_MIN, INT_MAX in *. lia. }
    rewrite !H32 by lia.
    eexists. split; [reflexivity|]. split; [reflexivity|]. split; [reflexivity|].
    split; [intros; lia|intros _].
    rewrite !rd_wr_ne by lia.
    rewrite <- (rd_lookup _ _ _ Hx).
    apply spread_loop_in; lia.
Qed.

Lemma set_sound_data_stereo_stored s (inp : list (f32 * f32)) (i : nat) x :
  allocated s -> Z.of_nat (length inp) <= INT_MAX ->
  inp !! i = Some x -> Z.of_nat i < PcmSound.samples s ->
  exists d',
    PcmSound.data (set_sound_data_stereo s inp) = Some d' /\
    PcmSound.samples (set_sound_data_stereo s inp) = PcmSound.samples s /\
    PcmSound.channels (set_sound_data_stereo s inp) = PcmSound.channels s /\
    (PcmSound.channels s = 1 -> rd d' (Z.of_nat i) = F32.mul (F32.add x.1 x.2) c_0_5) /\
    (PcmSound.channels s = 2 ->
     rd d' (2 * Z.of_nat i) = x.1 /\ rd d' (2 * Z.of_nat i + 1) = x.2).
Proof.
  intros (d & Hd & Hs & Hc & Hmax & Hlen) Hin Hx Hi.
  pose proof (lookup_lt_Some _ _ _ Hx) as Hlt.
  destruct (lookup_interleave _ _ _ Hx) as [Hx1 Hx2].
  unfold set_sound_data_stereo. rewrite Hd.
  rewrite copy_count_min by assumption.
  replace (Z.of_nat _ =? 0) with false by (symmetry; apply Z.eqb_neq; lia).
  destruct Hc as [Hc|Hc]; rewrite Hc in *; cbn [Z.eqb Pos.eqb].
  - eexists. split; [reflexivity|]. split; [reflexivity|]. split; [reflexivity|].
    split; [intros _|intros; lia].
    rewrite rd_wr_ne by lia.
    rewrite average_loop_in by lia.
    replace (2 * Z.of_nat i) with (Z.of_nat (2 * i)) by lia.
    rewrite (rd_lookup _ _ _ Hx1).
    replace (Z.of_nat (2 * i) + 1) with (Z.of_nat (2 * i + 1)) by lia.
    now rewrite (rd_lookup _ _ _ Hx2).
  - assert (H32 : forall z, 0 <= z <= 2 * PcmSound.samples s + 1 -> int32 z = z).
    { intros z Hz. apply int32_small. unfold INT_MIN, INT_MAX in *. lia. }
    rewrite !H32 by lia.
    eexists. split; [reflexivity|]. split; [reflexivity|]. split; [reflexivity|].
    split; [intros; lia|intros _].
    rewrite !rd_wr_ne by lia.
    replace (2 * Z.of_nat i) with (Z.of_nat (2 * i)) by lia.
    replace (Z.of_nat (2 * i) + 1) with (Z.of_nat (2 * i + 1)) by lia.
    rewrite !rd_memcpy_in by lia. unfold compose.
    now rewrite (rd_lookup _ _ _ Hx1), (rd_lookup _ _ _ Hx2).
Qed.

(** X15. What the bulk setters write, the getters of the same channel
    layout return.  For an allocated asset of one channel,
    [get_sound_data] after [set_sound_data] delivers the sample written at
    every index that is inside the asset and inside both arrays; for an
    asset of two channels [get_sound_data_stereo] after
    [set_sound_data_stereo] does. *)
Theorem set_get_round_trip s (i : nat) :
  allocated s -> Z.of_nat i < PcmSound.samples s ->
  (forall (inp out : list f32) x,
     PcmSound.channels s = 1 ->
     Z.of_nat (length inp) <= INT_MAX -> Z.of_nat (length out) <= INT_MAX ->
     inp !! i = Some x -> (i < length out)%nat ->
     get_sound_data (set_sound_data s inp) out !! i = Some x) /\
  (forall (inp out : list (f32 * f32)) x,
     PcmSound.channels s = 2 ->
     Z.of_nat (length inp) <= INT_MAX -> Z.of_nat (length out) <= INT_MAX ->
     inp !! i = Some x -> (i < length out)%nat ->
     get_sound_data_stereo (set_sound_data_stereo s inp) out !! i = Some x).
Proof.
  intros Hal Hi.
  assert (Hs : 0 <= PcmSound.samples s) by (destruct Hal as (? & ? & ? & _); lia).
  split; intros inp out x Hc Hin Hout Hx Hlt.
  - destruct (set_sound_data_stored s inp i x Hal Hin Hx Hi) as (d' & Hd' & Hs' & Hc' & H1 & _).
    rewrite (proj1 (get_sound_data_lookup _ d' out i Hd' ltac:(lia) Hout Hlt ltac:(lia)))
      by congruence.
    now rewrite H1.
  - destruct (set_sound_data_stereo_stored s inp i x Hal Hin Hx Hi)
      as (d' & Hd' & Hs' & Hc' & _ & H2).
    rewrite (proj2 (get_sound_data_stereo_lookup _ d' out i Hd' ltac:(lia) Hout Hlt ltac:(lia)))
      by congruence.
    destruct (H2 Hc) as [-> ->]. now destruct x.
Qed.

(** X16. Conversion between the channel layouts.  Mono samples written
    into a two-channel asset are stored on both channels: the stereo getter
    returns the pair [(x, x)], and the mono getter, which averages the
    channels, returns [x] itself for every sample of magnitude below 2^127.
    Stereo frames written into a one-channel asset are stored, and read
    back, as the mean [(l + r) * 0.5f]; the stereo getter repeats it on
    both channels. *)
Theorem channel_conversion s (i : nat) :
  allocated s -> Z.of_nat i < PcmSound.samples s ->
  (forall (inp : list f32) x,
     PcmSound.channels s = 2 -> Z.of_nat (length inp) <= INT_MAX -> inp !! i = Some x ->
     (forall out : list (f32 * f32),
        Z.of_nat (length out) <= INT_MAX -> (i < length out)%nat ->
        get_sound_data_stereo (set_sound_data s inp) out !! i = Some (x, x)) /\
     (forall out : list f32,
        Z.of_nat (length out) <= INT_MAX -> (i < length out)%nat ->
        F32.valid x = true -> below_2_127 x ->
        get_sound_data (set_sound_data s inp) out !! i = Some x)) /\
  (forall (inp : list (f32 * f32)) x,
     PcmSound.channels s = 1 -> Z.of_nat (length inp) <= INT_MAX -> inp !! i = Some x ->
     (forall out : list f32,
        Z.of_nat (length out) <= INT_MAX -> (i < length out)%nat ->
        get_sound_data (set_sound_data_stereo s inp) out !! i
        = Some (F32.mul (F32.add x.1 x.2) c_0_5)) /\
     (forall out : list (f32 * f32),
        Z.of_nat (length out) <= INT_MAX -> (i < length out)%nat ->
        get_sound_data_stereo (set_sound_data_stereo s inp) out !! i
        = Some (F32.mul (F32.add x.1 x.2) c_0_5, F32.mul (F32.add x.1 x.2) c_0_5))).
Proof.
  intros Hal Hi.
  assert (Hs : 0 <= PcmSound.samples s) by (destruct Hal as (? & ? & ? & _); lia).
  split; intros inp x Hc Hin Hx.
  - destruct (set_sound_data_stored s inp i x Hal Hin Hx Hi) as (d' & Hd' & Hs' & Hc' & _ & H2).
    destruct (H2 Hc) as [Ha Hb].
    split; intros out Hout Hlt.
    + rewrite (proj2 (get_sound_data_stereo_lookup _ d' out i Hd' ltac:(lia) Hout Hlt ltac:(lia)))
        by congruence.
      now rewrite Ha, Hb.
    + intros Hv Hb127.
      rewrite (proj2 (get_sound_data_lookup _ d' out i Hd' ltac:(lia) Hout Hlt ltac:(lia)))
        by congruence.
      rewrite Ha, Hb. f_equal. now apply average_of_twice.
  - destruct (set_sound_data_stereo_stored s inp i x Hal Hin Hx Hi)
      as (d' & Hd' & Hs' & Hc' & H1 & _).
    split; intros out Hout Hlt.
    + rewrite (proj1 (get_sound_data_lookup _ d' out i Hd' ltac:(lia) Hout Hlt ltac:(lia)))
        by congruence.
      now rewrite H1.
    + rewrite (proj1 (get_sound_data_stereo_lookup _ d' out i Hd' ltac:(lia) Hout Hlt ltac:(lia)))
        by congruence.
      now rewrite H1.
Qed.

(** ** The fast path at unit gain *)

Lemma F32_add_zero_l (s : f32) : s <> S754_zero true -> F32.add F32.zero s = s.
Proof. destruct s as [[]|[]| |sg m e]; try done. Qed.

Section FastPath.

Variable sign : f32 -> f32.
Variable lerp : f32 -> f32 -> f32 -> f32.

Lemma sample_mono_int d k :
  0 <= k < 2 ^ 32 ->
  lerp (rd d k) (rd d (uint32 (k + 1))) F32.zero = rd d k ->
  sample_mono lerp d (F64.of_int k) = rd d k.
Proof.
  intros Hk Hl. unfold sample_mono. cbv zeta.
  rewrite d2u_int by exact Hk.
  rewrite F64_sub_int_diag by lia. exact Hl.
Qed.

Lemma drop_rd d (k : nat) :
  (k < length d)%nat -> drop k d = rd d (Z.of_nat k) :: drop (S k) d.
Proof.
  intros H. destruct (lookup_lt_is_Some_2 _ _ H) as [x Hx].
  rewrite (rd_lookup _ _ _ Hx). now apply drop_S.
Qed.

Lemma fast_mono_identity d (c k : nat) :
  Z.of_nat (k + c) < 2 ^ 32 -> (k + c <= length d)%nat ->
  Forall clean_sample (take c (drop k d)) ->
  (forall j, (k <= j < k + c)%nat ->
     lerp (rd d (Z.of_nat j)) (rd d (uint32 (Z.of_nat j + 1))) F32.zero = rd d (Z.of_nat j)) ->
  fast_mono lerp d F32.one F32.one F64.one (F64.of_int (Z.of_nat k)) (replicate c silence)
  = (F64.of_int (Z.of_nat (k + c)), dup <$> take c (drop k d)).
Proof.
  revert k. induction c as [|c IH]; intros k Hk Hlen Hclean Hlerp.
  - cbn. now rewrite Nat.add_0_r.
  - cbn [replicate fast_mono]. unfold silence at 1.
    rewrite (drop_rd d k) in * by lia. cbn [take] in *.
    apply Forall_cons in Hclean as [[Hv Hz] Hclean].
    rewrite sample_mono_int by (try apply Hlerp; lia).
    assert (Hone : F64.one = F64.of_int 1) by reflexivity.
    rewrite Hone at 2. rewrite F64_add_int by lia.
    replace (Z.of_nat k + 1) with (Z.of_nat (S k)) by lia.
    rewrite (IH (S k)); [|lia|lia|exact Hclean|intros j Hj; apply Hlerp; lia].
    rewrite F32_mul_one by exact Hv. rewrite F32_add_zero_l by exact Hz.
    cbn [fmap list_fmap]. do 2 f_equal. lia.
Qed.

End FastPath.

Lemma unit_voice_advance ch σ m inv v a k stop k' :
  unit_voice ch σ m inv v a k stop ->
  unit_voice ch σ m inv (set_pos (F64.of_int k') v) a k' stop.
Proof. unfold unit_voice. destruct v; cbn. intuition. Qed.

Lemma unit_voice_not_empty ch σ m inv v a k stop :
  unit_voice ch σ m inv v a k stop -> isEmpty v = false.
Proof. intros (Hs & _). unfold isEmpty. now rewrite Hs. Qed.

Lemma set_pos_same v : set_pos (pos v) v = v.
Proof. now destruct v. Qed.

Lemma set_pos_set_pos x y v : set_pos x (set_pos y v) = set_pos x v.
Proof. now destruct v. Qed.

Section UnitGain.

Variable sign : f32 -> f32.
Variable lerp : f32 -> f32 -> f32 -> f32.

Lemma mixTo_unit σ m f inv bt v a d (k c : nat) stop :
  unit_voice 1 σ m inv v a (Z.of_nat k) stop -> getData σ a = Some d ->
  Z.of_nat (k + c) < stop < 2 ^ 32 -> (k + c <= length d)%nat ->
  Forall clean_sample (take c (drop k d)) ->
  (forall j, (k <= j < k + c)%nat ->
     lerp (rd d (Z.of_nat j)) (rd d (uint32 (Z.of_nat j + 1))) F32.zero = rd d (Z.of_nat j)) ->
  mixTo sign lerp σ m v (replicate c silence) f inv bt
  = (set_pos (F64.of_int (Z.of_nat (k + c))) v, dup <$> take c (drop k d)).
Proof.
  intros (Hs & Hc & Hm & Hw & HvL & HvR & HwL & HwR & Hadv & Hp & Hst) Hd Hk Hlen Hclean Hlerp.
  unfold mixTo. cbv zeta. rewrite Hs, Hd, Hadv.
  assert (Hfast : fast_path (wishVolumeL m v) (wishVolumeR m v) F64.one
                    (Z.of_nat (length (replicate c silence))) v = true).
  { unfold fast_path. rewrite Hm, Hw, HvL, HvR, HwL, HwR, Hp, Hst, length_replicate.
    rewrite F64_mul_one_l by (apply F64_valid_int; lia).
    rewrite F64_add_int by lia. rewrite flt_int by lia.
    replace (Z.of_nat k + Z.of_nat c <? stop) with true by (symmetry; apply Z.ltb_lt; lia).
    reflexivity. }
  rewrite Hfast, Hc, HvL, HvR, Hp. cbn [Z.eqb Pos.eqb].
  rewrite (fast_mono_identity lerp d c k) by (try assumption; lia).
  reflexivity.
Qed.

Lemma mix_voices_all_empty σ m vs mix f inv bt :
  Forall (λ w, isEmpty w = true) vs ->
  mix_voices sign lerp σ m vs mix f inv bt = (vs, mix).
Proof.
  induction 1 as [|w rest Hw _ IH]; [done|].
  cbn [mix_voices]. now rewrite Hw, IH.
Qed.

Lemma mix_voices_single σ m vs mix f inv bt (i : nat) v :
  vs !! i = Some v -> isEmpty v = false ->
  (forall j w, j <> i -> vs !! j = Some w -> isEmpty w = true) ->
  mix_voices sign lerp σ m vs mix f inv bt
  = (<[i := (mixTo sign lerp σ m v mix f inv bt).1]> vs,
     (mixTo sign lerp σ m v mix f inv bt).2).
Proof.
  revert i. induction vs as [|w rest IH]; intros i Hv He Ho; [done|].
  cbn [mix_voices]. destruct i as [|i]; cbn in Hv.
  - injection Hv as ->. rewrite He.
    destruct (mixTo _ _ _ _ _ _ _ _ _) as [v' mix'].
    rewrite mix_voices_all_empty; [done|].
    apply Forall_lookup. intros j w Hw. apply (Ho (S j) w); [lia|exact Hw].
  - rewrite (Ho 0%nat w) by (done || lia).
    rewrite (IH i Hv He); [done|].
    intros j w' Hj Hw'. apply (Ho (S j) w'); [lia|exact Hw'].
Qed.

Lemma fill_loop_unit f d a (i : nat) stop :
  forall fuel st done (k n : nat) v,
    (n <= fuel)%nat -> Z.of_nat n <= INT_MAX ->
    playing_sounds st !! i = Some v ->
    (forall j w, j <> i -> playing_sounds st !! j = Some w -> isEmpty w = true) ->
    getData (assets st) a = Some d ->
    unit_voice 1 (assets st) (master_volume st) (F64.div F64.one (F64.of_int f)) v a
      (Z.of_nat k) stop ->
    Z.of_nat (k + n) < stop < 2 ^ 32 -> (k + n <= length d)%nat ->
    Forall clean_sample (take n (drop k d)) ->
    (forall j, (k <= j < k + n)%nat ->
       lerp (rd d (Z.of_nat j)) (rd d (uint32 (Z.of_nat j + 1))) F32.zero = rd d (Z.of_nat j)) ->
    (fill_loop sign lerp fuel st (done ++ replicate n silence) (length done) f
       (F64.div F64.one (F64.of_int f)) (Z.of_nat n)).2
    = done ++ (dup <$> take n (drop k d)) /\
    playing_sounds
      (fill_loop sign lerp fuel st (done ++ replicate n silence) (length done) f
         (F64.div F64.one (F64.of_int f)) (Z.of_nat n)).1
    = <[i := set_pos (F64.of_int (Z.of_nat (k + n))) v]> (playing_sounds st).
Proof.
  induction fuel as [|fuel IH]; intros st done k n v Hfuel Hmax Hv Ho Hd Hu Hk Hlen Hclean Hlerp.
  { assert (n = 0%nat) as -> by lia. cbn. rewrite Nat.add_0_r.
    split; [done|].
    destruct Hu as (_ & _ & _ & _ & _ & _ & _ & _ & _ & Hp & _).
    rewrite <- Hp, set_pos_same. symmetry. now apply list_insert_id. }
  cbn [fill_loop].
  destruct (0 <? Z.of_nat n) eqn:Hn.
  2:{ apply Z.ltb_ge in Hn. assert (n = 0%nat) as -> by lia. cbn. rewrite Nat.add_0_r.
      split; [done|].
      destruct Hu as (_ & _ & _ & _ & _ & _ & _ & _ & _ & Hp & _).
      rewrite <- Hp, set_pos_same. symmetry. now apply list_insert_id. }
  apply Z.ltb_lt in Hn. cbv zeta.
  set (c := Z.to_nat (Z.min (Z.of_nat n) 256)).
  assert (Hc : (c = n `min` 256)%nat) by (unfold c; lia).
  clearbody c.
  rewrite drop_app_length.
  rewrite take_replicate.
  replace (c `min` n)%nat with c by lia.
  rewrite (mix_voices_single _ _ _ _ _ _ _ i v Hv (unit_voice_not_empty _ _ _ _ _ _ _ _ Hu) Ho).
  rewrite (mixTo_unit (assets st) (master_volume st) f _ _ v a d k c stop Hu Hd);
    [|lia|lia| |intros j Hj; apply Hlerp; lia].
  2:{ replace c with (c `min` n)%nat by lia. rewrite <- take_take.
      now apply Forall_take. }
  cbn [fst snd].
  rewrite take_app_length.
  rewrite drop_app_add, drop_replicate.
  set (st' := mkState _ _ _ _ _).
  set (v' := set_pos (F64.of_int (Z.of_nat (k + c))) v).
  destruct (decide (n <= 256)%nat) as [Hsmall|Hbig].
  - (* the last chunk *)
    assert (c = n) as Hcn by lia. clear Hc. subst c.
    replace (n - n)%nat with 0%nat by lia. cbn [replicate]. rewrite app_nil_r.
    assert (Hend : int32 (Z.of_nat n - 256) <= 0).
    { rewrite int32_small by (unfold INT_MIN, INT_MAX in *; lia). lia. }
    destruct fuel as [|fuel']; cbn [fill_loop].
    + done.
    + replace (0 <? int32 (Z.of_nat n - 256)) with false by (symmetry; apply Z.ltb_ge; lia).
      done.
  - (* a full chunk, more to come *)
    assert (c = 256%nat) as Hcn by lia. clear Hc.
    assert (Hrest : int32 (Z.of_nat n - 256) = Z.of_nat (n - 256)).
    { rewrite int32_small by (unfold INT_MIN, INT_MAX in *; lia). lia. }
    rewrite Hrest.
    replace (n - c)%nat with (n - 256)%nat by lia.
    assert (Hoff : (length done + Z.to_nat 256 = length (done ++ (dup <$> take c (drop k d))))%nat).
    { rewrite length_app, length_fmap, length_take, length_drop. lia. }
    rewrite Hoff, app_assoc.
    assert (Hv' : playing_sounds st' !! i = Some v').
    { subst st'. cbn. apply list_lookup_insert_eq. now apply lookup_lt_Some in Hv. }
    destruct (IH st' (done ++ (dup <$> take c (drop k d))) (k + c)%nat (n - 256)%nat v')
      as [E1 E2]; try assumption.
    + lia.
    + lia.
    + intros j w Hj Hw. subst st'. cbn in Hw.
      rewrite list_lookup_insert_ne in Hw by done. now apply (Ho j w).
    + subst st' v'. cbn [assets master_volume].
      now apply (unit_voice_advance _ _ _ _ v a (Z.of_nat k) stop).
    + lia.
    + lia.
    + replace (take n (drop k d))
        with (take c (drop k d) ++ take (n - 256) (drop (k + c) d)) in Hclean.
      * now apply Forall_app in Hclean as [_ ?].
      * rewrite <- drop_drop, take_take_drop. f_equal. lia.
    + intros j Hj. apply Hlerp. lia.
    + rewrite E1, E2. split.
      * rewrite <- app_assoc. f_equal. rewrite <- fmap_app. f_equal.
        rewrite <- drop_drop. rewrite take_take_drop. f_equal. lia.
      * subst st' v'. cbn. rewrite list_insert_insert_eq, set_pos_set_pos.
        now replace (k + c + (n - 256))%nat with (k + n)%nat by lia.
Qed.

(** X17. A single one-channel voice at unit gain is passed through
    unchanged.  When one voice plays alone at unit gains and unit advance
    from an integer position, with the end of its range still ahead, a
    callback of [n] frames delivers exactly the next [n] samples of the
    asset, each on both channels, and moves the position on by [n]. *)
Theorem single_voice_identity st f (n k i : nat) v a d stop :
  playing_sounds st !! i = Some v ->
  (forall j w, j <> i -> playing_sounds st !! j = Some w -> isEmpty w = true) ->
  getData (assets st) a = Some d ->
  unit_voice 1 (assets st) (master_volume st) (F64.div F64.one (F64.of_int f)) v a
    (Z.of_nat k) stop ->
  Z.of_nat n <= INT_MAX ->
  Z.of_nat (k + n) < stop < 2 ^ 32 -> (k + n <= length d)%nat ->
  Forall clean_sample (take n (drop k d)) ->
  (forall j, (k <= j < k + n)%nat ->
     lerp (rd d (Z.of_nat j)) (rd d (uint32 (Z.of_nat j + 1))) F32.zero = rd d (Z.of_nat j)) ->
  (fill_buffer_cb sign lerp st f (Z.of_nat n)).2 = dup <$> take n (drop k d) /\
  playing_sounds (fill_buffer_cb sign lerp st f (Z.of_nat n)).1
  = <[i := set_pos (F64.of_int (Z.of_nat (k + n))) v]> (playing_sounds st).
Proof.
  intros Hv Ho Hd Hu Hmax Hk Hlen Hclean Hlerp.
  unfold fill_buffer_cb. cbv zeta. rewrite Nat2Z.id.
  apply (fill_loop_unit f d a i stop n st [] k n v); try assumption. lia.
Qed.

End UnitGain.

(** ** Copies *)

(** What the copy holds: the frames of the source and its guard frame. *)
Lemma copy_sound_data junk b d :
  allocated b -> PcmSound.data b = Some d ->
  exists d',
    copy_sound junk b
    = PcmSound.mk (Some d') (PcmSound.frequency b) (PcmSound.samples b) (PcmSound.channels b) /\
    length d' = length d /\
    (forall j, 0 <= j < PcmSound.channels b * (PcmSound.samples b + 4) -> rd d' j = rd d j).
Proof.
  intros (d0 & Hd0 & Hs & Hc & Hmax & Hlen) Hd.
  assert (d0 = d) as -> by congruence.
  unfold copy_sound. cbv zeta. rewrite Hd. cbn [default].
  unfold PcmSound.getDataMemorySize. cbn [PcmSound.channels PcmSound.samples].
  rewrite int32_small by (unfold INT_MIN, INT_MAX in *; lia).
  rewrite Z.div_mul by lia.
  eexists. split; [reflexivity|]. split.
  - rewrite length_memcpy, length_newData. lia.
  - intros j Hj. rewrite <- (Z2Nat.id j) by lia.
    rewrite rd_memcpy_in; [done|lia|rewrite length_newData; lia].
Qed.

Lemma memcpy_ext out (src src' : nat -> f32) n :
  (forall j, (j < n)%nat -> src j = src' j) -> memcpy out src n = memcpy out src' n.
Proof.
  intros H. unfold memcpy. apply imap_ext. intros j x _. cbn.
  destruct (decide (j < n)%nat); [now apply H|done].
Qed.

Lemma average_loop_ext out d d' i n :
  0 <= i ->
  (forall j, 0 <= j < 2 * (i + Z.of_nat n) -> rd d j = rd d' j) ->
  average_loop out d i n = average_loop out d' i n.
Proof.
  revert out i. induction n as [|n IH]; intros out i Hi H; [done|].
  cbn [average_loop]. rewrite !(H (i * 2)), !(H (i * 2 + 1)) by lia.
  apply IH; [lia|]. intros j Hj. apply H. lia.
Qed.

Lemma spread_loop_ext out d d' i n :
  0 <= i ->
  (forall j, 0 <= j < i + Z.of_nat n -> rd d j = rd d' j) ->
  spread_loop out d i n = spread_loop out d' i n.
Proof.
  revert out i. induction n as [|n IH]; intros out i Hi H; [done|].
  cbn [spread_loop]. rewrite !(H i) by lia.
  apply IH; [lia|]. intros j Hj. apply H. lia.
Qed.

(** The getters read the frames of the asset and nothing else. *)
Lemma getters_ext s s' d d' :
  PcmSound.data s = Some d -> PcmSound.data s' = Some d' ->
  PcmSound.samples s' = PcmSound.samples s -> PcmSound.channels s' = PcmSound.channels s ->
  0 <= PcmSound.samples s ->
  (forall j, 0 <= j < PcmSound.channels s * PcmSound.samples s -> rd d' j = rd d j) ->
  (forall out : list f32,
     Z.of_nat (length out) <= INT_MAX -> get_sound_data s' out = get_sound_data s out) /\
  (forall out : list (f32 * f32),
     Z.of_nat (length out) <= INT_MAX ->
     get_sound_data_stereo s' out = get_sound_data_stereo s out).
Proof.
  intros Hd Hd' Hs Hc Hpos H.
  split; intros out Hout.
  - unfold get_sound_data. rewrite Hd, Hd', Hc.
    rewrite !copy_count_min by (rewrite ?Hs; assumption). rewrite Hs.
    set (c := (length out `min` Z.to_nat (PcmSound.samples s))%nat).
    destruct (Z.of_nat c =? 0); [done|]. rewrite Nat2Z.id.
    destruct (PcmSound.channels s =? 1) eqn:E1.
    + apply Z.eqb_eq in E1. apply memcpy_ext. intros j Hj. cbn. apply H. lia.
    + destruct (PcmSound.channels s =? 2) eqn:E2; [|done].
      apply Z.eqb_eq in E2. apply average_loop_ext; [lia|]. intros j Hj. apply H. lia.
  - unfold get_sound_data_stereo. rewrite Hd, Hd', Hc.
    rewrite !copy_count_min by (rewrite ?Hs; assumption). rewrite Hs.
    set (c := (length out `min` Z.to_nat (PcmSound.samples s))%nat).
    destruct (Z.of_nat c =? 0); [done|].
    destruct (PcmSound.channels s =? 2) eqn:E2.
    + apply Z.eqb_eq in E2. f_equal. apply memcpy_ext. intros j Hj. cbn. apply H. lia.
    + destruct (PcmSound.channels s =? 1) eqn:E1; [|done].
      apply Z.eqb_eq in E1. f_equal. rewrite Nat2Z.id.
      apply spread_loop_ext; [lia|]. intros j Hj. apply H. lia.
Qed.

(** X18. A copy of an asset is an asset of its own with the same content.
    The copy constructor (and the copy assignment) of an allocated asset
    gives an allocated asset with the same frequency, sample count and
    channel count and with the guard frame in place, and the getters
    return from the copy what they return from the source. *)
Theorem copy_sound_faithful junk b :
  allocated b -> guard_frame b ->
  allocated (copy_sound junk b) /\ guard_frame (copy_sound junk b) /\
  PcmSound.frequency (copy_sound junk b) = PcmSound.frequency b /\
  PcmSound.samples (copy_sound junk b) = PcmSound.samples b /\
  PcmSound.channels (copy_sound junk b) = PcmSound.channels b /\
  (forall out : list f32,
     Z.of_nat (length out) <= INT_MAX ->
     get_sound_data (copy_sound junk b) out = get_sound_data b out) /\
  (forall out : list (f32 * f32),
     Z.of_nat (length out) <= INT_MAX ->
     get_sound_data_stereo (copy_sound junk b) out = get_sound_data_stereo b out).
Proof.
  intros Hal Hg.
  pose proof Hal as (d & Hd & Hs & Hc & Hmax & Hlen).
  destruct (copy_sound_data junk b d Hal Hd) as (d' & He & Hlen' & Hrd).
  rewrite He. cbn [PcmSound.frequency PcmSound.samples PcmSound.channels].
  split; [|split; [|split; [done|split; [done|split; [done|]]]]].
  - exists d'. cbn. repeat split; try done. congruence.
  - destruct Hg as (d0 & Hd0 & Hg1 & Hg2).
    assert (d0 = d) as -> by congruence.
    exists d'. cbn. split; [done|]. split; intros Hch.
    + destruct (Hg1 Hch) as [Hl Hgd]. split; [lia|].
      rewrite !Hrd by lia. exact Hgd.
    + destruct (Hg2 Hch) as (Hl & Hga & Hgb). split; [lia|].
      rewrite !Hrd by lia. done.
  - apply (getters_ext b _ d d'); try done.
    intros j Hj. apply Hrd. lia.
Qed.

(** ** The manual critical section *)

(** X19. The manual critical section cannot be entered twice nor left
    without having been entered.  Whatever the order of the calls, the
    calling thread holds the mutex exactly when the flag is set, and then
    exactly once; a second [enter] and a [leave] without [enter] do
    nothing. *)
Theorem critical_section_balanced (calls : list bool) :
  let l := run_calls calls (mkLock 0 false) in
  sound_cs l = (if sound_cs_manual_entered l then 1 else 0)%nat /\
  enter_sound_critical_section (enter_sound_critical_section l)
    = enter_sound_critical_section l /\
  leave_sound_critical_section (leave_sound_critical_section l)
    = leave_sound_critical_section l /\
  leave_sound_critical_section (enter_sound_critical_section l)
    = mkLock 0 false.
Proof.
  cbv zeta.
  assert (H : forall l, sound_cs l = (if sound_cs_manual_entered l then 1 else 0)%nat ->
                        sound_cs (run_calls calls l)
                        = (if sound_cs_manual_entered (run_calls calls l) then 1 else 0)%nat).
  { induction calls as [|c calls IH]; intros l Hl; [exact Hl|].
    cbn. apply IH. destruct l as [n []], c; cbn in *; subst; reflexivity. }
  specialize (H (mkLock 0 false) eq_refl).
  destruct (run_calls calls (mkLock 0 false)) as [n []]; cbn in *; subst; done.
Qed.

(** ** Mixing is additive *)

Lemma add_contrib_none mix : add_contrib mix (replicate (length mix) None) = mix.
Proof.
  unfold add_contrib. induction mix as [|fr mix IH]; [done|].
  cbn. now rewrite IH.
Qed.

Section Additive.

Variable sign : f32 -> f32.
Variable lerp : f32 -> f32 -> f32 -> f32.

Lemma fast_mono_additive d vL vR adv (n : nat) :
  forall p, exists p' cs, length cs = n /\
    forall mix, length mix = n ->
      fast_mono lerp d vL vR adv p mix = (p', add_contrib mix cs).
Proof.
  induction n as [|n IH]; intros p.
  - exists p, []. split; [done|]. intros [|] H; done.
  - destruct (IH (F64.add p adv)) as (p' & cs & Hl & H).
    exists p', (Some (F32.mul (sample_mono lerp d p) vL, F32.mul (sample_mono lerp d p) vR) :: cs).
    split; [cbn; lia|].
    intros [|[l r] mix] Hm; [done|]. cbn [fast_mono].
    rewrite (H mix) by (cbn in Hm; lia). reflexivity.
Qed.

Lemma fast_stereo_additive d vL vR adv (n : nat) :
  forall p, exists p' cs, length cs = n /\
    forall mix, length mix = n ->
      fast_stereo lerp d vL vR adv p mix = (p', add_contrib mix cs).
Proof.
  induction n as [|n IH]; intros p.
  - exists p, []. split; [done|]. intros [|] H; done.
  - destruct (IH (F64.add p adv)) as (p' & cs & Hl & H).
    exists p', (Some (F32.mul (sample_stereo lerp d p).1 vL,
                      F32.mul (sample_stereo lerp d p).2 vR) :: cs).
    split; [cbn; lia|].
    intros [|[l r] mix] Hm; [done|]. cbn [fast_stereo].
    destruct (sample_stereo lerp d p) as [sl sr].
    rewrite (H mix) by (cbn in Hm; lia). reflexivity.
Qed.

Lemma general_mono_additive σ d wL wR adv inv (n : nat) :
  forall v, exists v' cs, length cs = n /\
    forall mix, length mix = n ->
      general_mono sign lerp σ d wL wR adv inv v mix = (v', add_contrib mix cs).
Proof.
  induction n as [|n IH]; intros v.
  - exists v, []. split; [done|]. intros [|] H; done.
  - destruct (waitingStart v) eqn:Hw; [|destruct (stopMode v) eqn:Hs].
    + destruct (IH (wait_step inv v)) as (v' & cs & Hl & H).
      exists v', (None :: cs). split; [cbn; lia|].
      intros [|[l r] mix] Hm; [done|]. cbn [general_mono]. rewrite Hw.
      rewrite (H mix) by (cbn in Hm; lia). reflexivity.
    + set (v1 := if faded_out (fade_step v) then set_stopMode false (fade_step v)
                 else fade_step v).
      destruct (IH v1) as (v' & cs & Hl & H).
      exists v', (Some (volumeL v1, volumeR v1) :: cs). split; [cbn; lia|].
      intros [|[l r] mix] Hm; [done|]. cbn [general_mono]. rewrite Hw, Hs. cbn [negb].
      fold v1. rewrite (H mix) by (cbn in Hm; lia). reflexivity.
    + destruct (IH (play_step sign σ wL wR adv v)) as (v' & cs & Hl & H).
      exists v', (Some (F32.mul (sample_mono lerp d (pos v)) (volumeL v),
                        F32.mul (sample_mono lerp d (pos v)) (volumeR v)) :: cs).
      split; [cbn; lia|].
      intros [|[l r] mix] Hm; [done|]. cbn [general_mono]. rewrite Hw, Hs. cbn [negb].
      rewrite (H mix) by (cbn in Hm; lia). reflexivity.
Qed.

Lemma general_stereo_additive σ d wL wR adv inv (n : nat) :
  forall v, exists v' cs, length cs = n /\
    forall mix, length mix = n ->
      general_stereo sign lerp σ d wL wR adv inv v mix = (v', add_contrib mix cs).
Proof.
  induction n as [|n IH]; intros v.
  - exists v, []. split; [done|]. intros [|] H; done.
  - destruct (waitingStart v) eqn:Hw; [|destruct (stopMode v) eqn:Hs].
    + destruct (IH (wait_step inv v)) as (v' & cs & Hl & H).
      exists v', (None :: cs). split; [cbn; lia|].
      intros [|[l r] mix] Hm; [done|]. cbn [general_stereo]. rewrite Hw.
      rewrite (H mix) by (cbn in Hm; lia). reflexivity.
    + destruct (faded_out (fade_step v)) eqn:Hf.
      * exists (set_stopMode false (fade_step v)), (replicate (S n) None).
        split; [apply length_replicate|].
        intros [|[l r] mix] Hm; [done|]. cbn [general_stereo]. rewrite Hw, Hs. cbn [negb].
        rewrite Hf. rewrite <- Hm. now rewrite add_contrib_none.
      * destruct (IH (fade_step v)) as (v' & cs & Hl & H).
        exists v', (Some (volumeL (fade_step v), volumeR (fade_step v)) :: cs).
        split; [cbn; lia|].
        intros [|[l r] mix] Hm; [done|]. cbn [general_stereo]. rewrite Hw, Hs. cbn [negb].
        rewrite Hf. rewrite (H mix) by (cbn in Hm; lia). reflexivity.
    + destruct (IH (play_step sign σ wL wR adv v)) as (v' & cs & Hl & H).
      exists v', (Some (F32.mul (sample_stereo lerp d (pos v)).1 (volumeL v),
                        F32.mul (sample_stereo lerp d (pos v)).2 (volumeR v)) :: cs).
      split; [cbn; lia|].
      intros [|[l r] mix] Hm; [done|]. cbn [general_stereo]. rewrite Hw, Hs. cbn [negb].
      destruct (sample_stereo lerp d (pos v)) as [sl sr].
      rewrite (H mix) by (cbn in Hm; lia). reflexivity.
Qed.

Lemma mixTo_additive σ m f inv bt (n : nat) v :
  exists v' cs, length cs = n /\
    forall mix, length mix = n ->
      mixTo sign lerp σ m v mix f inv bt = (v', add_contrib mix cs).
Proof.
  assert (Hnone : exists v' cs, length cs = n /\
            forall mix, length mix = n -> (v, mix) = (v', add_contrib mix cs)).
  { exists v, (replicate n None). split; [apply length_replicate|].
    intros mix <-. now rewrite add_contrib_none. }
  unfold mixTo. cbv zeta.
  destruct (sound v) as [a|]; [|exact Hnone].
  destruct (getData σ a) as [d|]; [|exact Hnone].
  set (adv := F64.mul _ _).
  destruct (fast_path (wishVolumeL m v) (wishVolumeR m v) adv (Z.of_nat n) v) eqn:Hfast.
  { destruct (channels v =? 1).
    - destruct (fast_mono_additive d (volumeL v) (volumeR v) adv n (pos v)) as (p' & cs & Hl & H).
      exists (set_pos p' v), cs. split; [exact Hl|].
      intros mix Hm. rewrite Hm, Hfast, (H mix Hm). reflexivity.
    - destruct (fast_stereo_additive d (volumeL v) (volumeR v) adv n (pos v)) as (p' & cs & Hl & H).
      exists (set_pos p' v), cs. split; [exact Hl|].
      intros mix Hm. rewrite Hm, Hfast, (H mix Hm). reflexivity. }
  destruct (waitingStart v && fgt (timeToStart v) bt) eqn:Hlong.
  { exists (set_timeToStart (F64.sub (timeToStart v) bt) v), (replicate n None).
    split; [apply length_replicate|].
    intros mix Hm. rewrite Hm, Hfast. rewrite <- Hm. now rewrite add_contrib_none. }
  destruct (channels v =? 1).
  - destruct (general_mono_additive σ d (wishVolumeL m v) (wishVolumeR m v) adv inv n v)
      as (v' & cs & Hl & H).
    exists v', cs. split; [exact Hl|].
    intros mix Hm. rewrite Hm, Hfast. now apply H.
  - destruct (general_stereo_additive σ d (wishVolumeL m v) (wishVolumeR m v) adv inv n v)
      as (v' & cs & Hl & H).
    exists v', cs. split; [exact Hl|].
    intros mix Hm. rewrite Hm, Hfast. now apply H.
Qed.

Lemma length_add_contrib mix cs : length cs = length mix -> length (add_contrib mix cs) = length mix.
Proof. intros H. unfold add_contrib. rewrite length_zip_with. lia. Qed.

(** X20. Mixing is additive, and no voice hears another.  For a chunk of
    [n] frames every voice has a list of [n] contributions, fixed by the
    state before the chunk and by [n] alone; the loop over the voice table
    adds them to the buffer voice by voice, in slot order, whatever the
    buffer holds, and the voices it leaves behind do not depend on the
    buffer either. *)
Theorem mixing_is_additive σ m f inv bt (n : nat) vs :
  exists vs' css,
    length vs' = length vs /\ length css = length vs /\
    Forall (λ cs, length cs = n) css /\
    forall mix, length mix = n ->
      mix_voices sign lerp σ m vs mix f inv bt = (vs', foldl add_contrib mix css).
Proof.
  induction vs as [|v rest IH].
  - exists [], []. repeat split; done.
  - destruct IH as (rest' & css & Hl1 & Hl2 & Hall & H).
    destruct (mixTo_additive σ m f inv bt n v) as (v1 & cs1 & Hc1 & H1).
    destruct (isEmpty v) eqn:He.
    + exists (v :: rest'), (replicate n None :: css).
      split; [cbn; lia|]. split; [cbn; lia|].
      split; [constructor; [apply length_replicate|exact Hall]|].
      intros mix Hm. cbn [mix_voices foldl]. rewrite He.
      rewrite <- Hm, add_contrib_none. rewrite (H mix Hm). reflexivity.
    + exists (v1 :: rest'), (cs1 :: css).
      split; [cbn; lia|]. split; [cbn; lia|].
      split; [constructor; assumption|].
      intros mix Hm. cbn [mix_voices foldl]. rewrite He, (H1 mix Hm).
      rewrite (H (add_contrib mix cs1)); [reflexivity|].
      rewrite length_add_contrib; lia.
Qed.

End Additive.

(** ** A voice that reaches the end of its range *)

Lemma set_volumeL_same v x : volumeL v = x -> set_volumeL x v = v.
Proof. intros <-. now destruct v. Qed.

Lemma set_volumeR_same v x : volumeR v = x -> set_volumeR x v = v.
Proof. intros <-. now destruct v. Qed.

Section ToTheEnd.

Variable sign : f32 -> f32.
Variable lerp : f32 -> f32 -> f32 -> f32.

Lemma length_general_mono σ d wL wR adv inv mix :
  forall v, length (general_mono sign lerp σ d wL wR adv inv v mix).2 = length mix.
Proof.
  induction mix as [|[l r] rest IH]; intros v; [done|].
  cbn [general_mono].
  destruct (if waitingStart v then _ else _) as [v1 fr].
  specialize (IH v1). destruct (general_mono _ _ _ _ _ _ _ _ _ rest). cbn in *. now rewrite IH.
Qed.

(** One sample of a unit-gain voice on the per-sample path. *)
Lemma play_step_unit ch σ m inv v a (k : nat) stop :
  unit_voice ch σ m inv v a (Z.of_nat k) stop -> Z.of_nat k < stop < 2 ^ 32 ->
  play_step sign σ F32.one F32.one F64.one v
  = if stop <=? Z.of_nat (S k)
    then (if loop v then set_pos (startPos v) v else setStopMode sign σ (set_pos (stopPos v) v))
    else set_pos (F64.of_int (Z.of_nat (S k))) v.
Proof.
  intros (Hs & Hc & Hm & Hw & HvL & HvR & HwL & HwR & Hadv & Hp & Hst) Hk.
  unfold play_step. cbv zeta.
  rewrite HvL, nudge_on_target, (set_volumeL_same v F32.one HvL).
  rewrite HvR, nudge_on_target, (set_volumeR_same v F32.one HvR).
  rewrite Hp. assert (Hone : F64.one = F64.of_int 1) by reflexivity.
  rewrite Hone, F64_add_int by lia.
  replace (Z.of_nat k + 1) with (Z.of_nat (S k)) by lia.
  cbn [pos stopPos loop startPos set_pos].
  replace (stopPos (set_pos (F64.of_int (Z.of_nat (S k))) v)) with (stopPos v) by now destruct v.
  replace (pos (set_pos (F64.of_int (Z.of_nat (S k))) v)) with (F64.of_int (Z.of_nat (S k)))
    by now destruct v.
  replace (loop (set_pos (F64.of_int (Z.of_nat (S k))) v)) with (loop v) by now destruct v.
  replace (startPos (set_pos (F64.of_int (Z.of_nat (S k))) v)) with (startPos v) by now destruct v.
  unfold fge. rewrite Hst, fle_int by lia.
  rewrite !set_pos_set_pos. reflexivity.
Qed.

Lemma general_mono_unit_end σ m inv v a d stop :
  forall (e k c : nat),
    unit_voice 1 σ m inv v a (Z.of_nat k) stop -> loop v = false ->
    stop = Z.of_nat (k + e) -> (0 < e <= c)%nat -> stop < 2 ^ 32 ->
    (k + e <= length d)%nat ->
    Forall clean_sample (take e (drop k d)) ->
    (forall j, (k <= j < k + e)%nat ->
       lerp (rd d (Z.of_nat j)) (rd d (uint32 (Z.of_nat j + 1))) F32.zero = rd d (Z.of_nat j)) ->
    let r := general_mono sign lerp σ d F32.one F32.one F64.one inv v (replicate c silence) in
    take e r.2 = dup <$> take e (drop k d) /\ length r.2 = c /\
    sound r.1 = None /\ version r.1 = int32 (version v + MAX_PLAYING_SOUNDS).
Proof.
  intros e. revert v.
  induction e as [|e IH]; intros v k c Hu Hloop Hstop He Hmax Hlen Hclean Hlerp; [lia|].
  destruct c as [|c]; [lia|].
  pose proof Hu as (Hs & Hc & Hm & Hw & HvL & HvR & HwL & HwR & Hadv & Hp & Hst).
  cbv zeta. cbn [replicate general_mono]. unfold silence at 1.
  rewrite Hw, Hm. cbn [negb].
  rewrite (play_step_unit 1 σ m inv v a k stop Hu) by lia.
  rewrite Hp, sample_mono_int by (try apply Hlerp; lia).
  rewrite (drop_rd d k) in * by lia. cbn [take] in *.
  apply Forall_cons in Hclean as [[Hv Hz] Hclean].
  rewrite HvL, HvR, F32_mul_one by exact Hv. rewrite F32_add_zero_l by exact Hz.
  rewrite Hloop.
  destruct (stop <=? Z.of_nat (S k)) eqn:E.
  - (* the last sample of the range *)
    apply Z.leb_le in E. assert (e = 0%nat) as -> by lia.
    set (v1 := setStopMode sign σ (set_pos (stopPos v) v)).
    assert (H1 : sound v1 = None /\ version v1 = int32 (version v + MAX_PLAYING_SOUNDS)).
    { unfold v1.
      destruct (setStopMode_live sign σ (set_pos (stopPos v) v) a) as (Hv1 & Hs1 & _).
      - now destruct v.
      - now destruct v.
      - split; [exact Hs1|]. rewrite Hv1. now destruct v. }
    pose proof (general_mono_keeps sign lerp
                  (λ w, sound w = None /\ version w = int32 (version v + MAX_PLAYING_SOUNDS)))
      as Hkeep.
    specialize (Hkeep ltac:(now intros []) ltac:(now intros []) ltac:(now intros [])
                      ltac:(now intros []) ltac:(now intros [])).
    assert (Hkeep' := Hkeep
      (λ σ' w Hw' _, ltac:(destruct Hw' as [Hw1 Hw2];
                           rewrite setStopMode_early by (now right);
                           now destruct w))
      (λ w Hw' _, ltac:(now destruct w))
      σ d F32.one F32.one F64.one inv (replicate c silence) v1 H1).
    pose proof (length_general_mono σ d F32.one F32.one F64.one inv (replicate c silence) v1) as Hl.
    destruct (general_mono _ _ _ _ _ _ _ _ v1 _) as [v' rest]. cbn in *.
    rewrite length_replicate in Hl. repeat split; try tauto. lia.
  - (* more of the range to come *)
    apply Z.leb_gt in E.
    destruct (IH (set_pos (F64.of_int (Z.of_nat (S k))) v) (S k) c) as (E1 & E2 & E3 & E4).
    + now apply (unit_voice_advance _ _ _ _ v a (Z.of_nat k) stop).
    + now destruct v.
    + lia.
    + lia.
    + lia.
    + lia.
    + exact Hclean.
    + intros j Hj. apply Hlerp. lia.
    + destruct (general_mono _ _ _ _ _ _ _ _ _ _) as [v' rest]. cbn in *.
      rewrite E1, E2. repeat split; done.
Qed.

Lemma mixTo_unit_end σ m f inv bt v a d (k e c : nat) stop :
  unit_voice 1 σ m inv v a (Z.of_nat k) stop -> loop v = false ->
  getData σ a = Some d ->
  stop = Z.of_nat (k + e) -> (0 < e <= c)%nat -> (c <= 256)%nat -> stop < 2 ^ 32 ->
  (k + e <= length d)%nat ->
  Forall clean_sample (take e (drop k d)) ->
  (forall j, (k <= j < k + e)%nat ->
     lerp (rd d (Z.of_nat j)) (rd d (uint32 (Z.of_nat j + 1))) F32.zero = rd d (Z.of_nat j)) ->
  let r := mixTo sign lerp σ m v (replicate c silence) f inv bt in
  take e r.2 = dup <$> take e (drop k d) /\ length r.2 = c /\
  sound r.1 = None /\ version r.1 = int32 (version v + MAX_PLAYING_SOUNDS).
Proof.
  intros Hu Hloop Hd Hstop He Hchunk Hmax Hlen Hclean Hlerp.
  pose proof Hu as (Hs & Hc & Hm & Hw & HvL & HvR & HwL & HwR & Hadv & Hp & Hst).
  unfold mixTo. cbv zeta. rewrite Hs, Hd, Hadv, HwL, HwR.
  assert (Hfast : fast_path F32.one F32.one F64.one
                    (Z.of_nat (length (replicate c silence))) v = false).
  { unfold fast_path. rewrite Hm, Hw, HvL, HvR, Hp, Hst, length_replicate.
    rewrite F64_mul_one_l by (apply F64_valid_int; lia).
    rewrite F64_add_int by lia. rewrite flt_int by lia.
    replace (Z.of_nat k + Z.of_nat c <? stop) with false by (symmetry; apply Z.ltb_ge; lia).
    reflexivity. }
  rewrite Hfast, Hw, Hc. cbn [andb Z.eqb Pos.eqb].
  now apply (general_mono_unit_end σ m inv v a d stop e k c).
Qed.

Lemma fill_loop_to_end f d a (i : nat) stop :
  forall fuel st done (k e n : nat) v,
    (n <= fuel)%nat -> Z.of_nat n <= INT_MAX ->
    playing_sounds st !! i = Some v ->
    (forall j w, j <> i -> playing_sounds st !! j = Some w -> isEmpty w = true) ->
    getData (assets st) a = Some d ->
    unit_voice 1 (assets st) (master_volume st) (F64.div F64.one (F64.of_int f)) v a
      (Z.of_nat k) stop ->
    loop v = false ->
    stop = Z.of_nat (k + e) -> (0 < e <= n)%nat -> stop < 2 ^ 32 ->
    (k + e <= length d)%nat ->
    Forall clean_sample (take e (drop k d)) ->
    (forall j, (k <= j < k + e)%nat ->
       lerp (rd d (Z.of_nat j)) (rd d (uint32 (Z.of_nat j + 1))) F32.zero = rd d (Z.of_nat j)) ->
    let r := fill_loop sign lerp fuel st (done ++ replicate n silence) (length done) f
               (F64.div F64.one (F64.of_int f)) (Z.of_nat n) in
    take (length done + e) r.2 = done ++ (dup <$> take e (drop k d)) /\
    length r.2 = (length done + n)%nat /\
    exists v', playing_sounds r.1 !! i = Some v' /\ sound v' = None /\
               version v' = int32 (version v + MAX_PLAYING_SOUNDS).
Proof.
  induction fuel as [|fuel IH];
    intros st done k e n v Hfuel Hmax Hv Ho Hd Hu Hloop Hstop He Hstopmax Hlen Hclean Hlerp;
    [lia|].
  cbv zeta. cbn [fill_loop].
  replace (0 <? Z.of_nat n) with true by (symmetry; apply Z.ltb_lt; lia).
  cbv zeta.
  set (c := Z.to_nat (Z.min (Z.of_nat n) 256)).
  assert (Hc : (c = n `min` 256)%nat) by (unfold c; lia).
  clearbody c.
  rewrite drop_app_length, take_replicate.
  replace (c `min` n)%nat with c by lia.
  rewrite (mix_voices_single _ _ _ _ _ _ _ _ _ i v Hv (unit_voice_not_empty _ _ _ _ _ _ _ _ Hu) Ho).
  rewrite take_app_length, drop_app_add, drop_replicate.
  destruct (decide (e <= c)%nat) as [Hend|Hmore].
  - (* the range ends inside this chunk *)
    destruct (mixTo_unit_end (assets st) (master_volume st) f
                (F64.div F64.one (F64.of_int f))
                (F64.mul (F64.of_int (Z.min (Z.of_nat n) 256)) (F64.div F64.one (F64.of_int f)))
                v a d k e c stop Hu Hloop Hd Hstop ltac:(lia) ltac:(lia) Hstopmax Hlen Hclean Hlerp)
      as (E1 & E2 & E3 & E4).
    destruct (mixTo _ _ _ _ _ _ _ _ _) as [v' outc]. cbn [fst snd] in *.
    set (st' := mkState _ _ _ _ _).
    assert (Hidle : Forall (λ w, sound w = None) (playing_sounds st')).
    { apply Forall_lookup. intros j w Hw. subst st'. cbn in Hw.
      destruct (decide (j = i)) as [->|Hne].
      - rewrite list_lookup_insert_eq in Hw by (now apply lookup_lt_Some in Hv). congruence.
      - rewrite list_lookup_insert_ne in Hw by done.
        specialize (Ho j w Hne Hw). unfold isEmpty in Ho. now destruct (sound w). }
    match goal with
    | |- context [fill_loop _ _ _ ?s ?o ?k _ _ ?m] =>
        destruct (fill_loop_idle sign lerp fuel s o k f (F64.div F64.one (F64.of_int f)) m Hidle)
          as (F1 & F2 & _)
    end.
    rewrite F1, F2. split; [|split].
    + rewrite take_app_add'; [|done]. rewrite take_app_le by lia. now rewrite E1.
    + rewrite !length_app, length_replicate. lia.
    + exists v'. subst st'. cbn.
      rewrite list_lookup_insert_eq by (now apply lookup_lt_Some in Hv). done.
  - (* a chunk on the fast path, the end is still ahead *)
    assert (c = 256%nat) as Hcn by lia. clear Hc.
    rewrite (mixTo_unit sign lerp (assets st) (master_volume st) f _ _ v a d k c stop Hu Hd);
      [|lia|lia| |intros j Hj; apply Hlerp; lia].
    2:{ replace c with (c `min` e)%nat by lia. rewrite <- take_take.
        now apply Forall_take. }
    cbn [fst snd].
    assert (Hrest : int32 (Z.of_nat n - 256) = Z.of_nat (n - 256)).
    { rewrite int32_small by (unfold INT_MIN, INT_MAX in *; lia). lia. }
    rewrite Hrest. replace (n - c)%nat with (n - 256)%nat by lia.
    set (st' := mkState _ _ _ _ _).
    set (v' := set_pos (F64.of_int (Z.of_nat (k + c))) v).
    assert (Hoff : (length done + Z.to_nat 256 = length (done ++ (dup <$> take c (drop k d))))%nat).
    { rewrite length_app, length_fmap, length_take, length_drop. lia. }
    rewrite Hoff, app_assoc.
    assert (Hv' : playing_sounds st' !! i = Some v').
    { subst st'. cbn. apply list_lookup_insert_eq. now apply lookup_lt_Some in Hv. }
    destruct (IH st' (done ++ (dup <$> take c (drop k d))) (k + c)%nat (e - c)%nat
                (n - 256)%nat v') as (E1 & E2 & v'' & E3 & E4 & E5); try assumption.
    + lia.
    + lia.
    + intros j w Hj Hw. subst st'. cbn in Hw.
      rewrite list_lookup_insert_ne in Hw by done. now apply (Ho j w).
    + subst st' v'. cbn [assets master_volume].
      now apply (unit_voice_advance _ _ _ _ v a (Z.of_nat k) stop).
    + lia.
    + lia.
    + lia.
    + replace (take e (drop k d))
        with (take c (drop k d) ++ take (e - c) (drop (k + c) d)) in Hclean.
      * now apply Forall_app in Hclean as [_ ?].
      * rewrite <- drop_drop, take_take_drop. f_equal. lia.
    + intros j Hj. apply Hlerp. lia.
    + split; [|split].
      * replace (length done + e)%nat
          with (length (done ++ (dup <$> take c (drop k d))) + (e - c))%nat by lia.
        rewrite E1, <- app_assoc. f_equal. rewrite <- fmap_app. f_equal.
        rewrite <- drop_drop, take_take_drop. f_equal. lia.
      * rewrite E2. lia.
      * exists v''. split; [exact E3|]. split; [exact E4|].
        rewrite E5. subst v'. now destruct v.
Qed.

(** X21. A voice that reaches the end of its range is stopped there.
    When one voice that does not loop plays alone at unit gains and unit
    advance from the integer position [k] and its range ends [e] frames
    later, within the callback, the first [e] frames of the buffer are the
    next [e] samples of the asset, each on both channels; the buffer has
    [n] frames; and afterwards the voice holds no asset, its version has
    advanced by 128 and no handle that was valid for its slot is valid any
    more. *)
Theorem single_voice_plays_to_end st f (n k e i : nat) v a d stop :
  playing_sounds st !! i = Some v ->
  (forall j w, j <> i -> playing_sounds st !! j = Some w -> isEmpty w = true) ->
  getData (assets st) a = Some d ->
  unit_voice 1 (assets st) (master_volume st) (F64.div F64.one (F64.of_int f)) v a
    (Z.of_nat k) stop ->
  loop v = false ->
  Z.of_nat n <= INT_MAX ->
  stop = Z.of_nat (k + e) -> (0 < e <= n)%nat -> stop < 2 ^ 32 ->
  (k + e <= length d)%nat ->
  Forall clean_sample (take e (drop k d)) ->
  (forall j, (k <= j < k + e)%nat ->
     lerp (rd d (Z.of_nat j)) (rd d (uint32 (Z.of_nat j + 1))) F32.zero = rd d (Z.of_nat j)) ->
  take e (fill_buffer_cb sign lerp st f (Z.of_nat n)).2 = dup <$> take e (drop k d) /\
  length (fill_buffer_cb sign lerp st f (Z.of_nat n)).2 = n /\
  (exists v',
     playing_sounds (fill_buffer_cb sign lerp st f (Z.of_nat n)).1 !! i = Some v' /\
     sound v' = None /\ version v' = int32 (version v + MAX_PLAYING_SOUNDS)) /\
  (forall h, Z.to_nat (Z.land h PLAYING_SOUNDS_MASK) = i ->
     is_handle_valid (playing_sounds st) h = true ->
     is_handle_valid (playing_sounds (fill_buffer_cb sign lerp st f (Z.of_nat n)).1) h = false).
Proof.
  intros Hv Ho Hd Hu Hloop Hmax Hstop He Hstopmax Hlen Hclean Hlerp.
  unfold fill_buffer_cb. cbv zeta. rewrite Nat2Z.id.
  destruct (fill_loop_to_end f d a i stop n st [] k e n v) as (E1 & E2 & v' & E3 & E4 & E5);
    try assumption; [lia|].
  cbn [app length Nat.add] in *.
  split; [exact E1|]. split; [exact E2|]. split; [eauto|].
  intros h Hi Hh.
  destruct (is_handle_valid_lookup _ _ Hh) as (w & Hw & Hwv & _).
  rewrite Hi in Hw. assert (w = v) as -> by congruence.
  apply advanced_version_invalid with v v'; [now rewrite Hi|exact Hwv|exact E5].
Qed.

End ToTheEnd.

Section Stranded.

Variable sign : f32 -> f32.
Variable lerp : f32 -> f32 -> f32 -> f32.

Lemma stranded_not_empty ver v : stranded ver v -> isEmpty v = false.
Proof. intros (Hs & Hm & _). unfold isEmpty. now rewrite Hs, Hm. Qed.

Lemma stranded_update_voice st h f ver (i : nat) v :
  (forall w, stranded ver w -> stranded ver (f w)) ->
  playing_sounds st !! i = Some v -> stranded ver v ->
  exists v', playing_sounds (update_voice st h f) !! i = Some v' /\ stranded ver v'.
Proof.
  intros Hf Hv Hst. unfold update_voice.
  destruct (handle_to_index _ _) as [idx|]; [|eauto]. cbn.
  destruct (decide (i = idx)) as [<-|Hne].
  - rewrite list_lookup_alter_eq, Hv. cbn. eauto.
  - rewrite list_lookup_alter_ne by done. eauto.
Qed.

Lemma stranded_fmap (f : PlayingSound -> PlayingSound) (vs : list PlayingSound) ver (i : nat) v :
  (forall w, stranded ver w -> stranded ver (f w)) ->
  vs !! i = Some v -> stranded ver v ->
  exists v', (f <$> vs) !! i = Some v' /\ stranded ver v'.
Proof. intros Hf Hv Hst. rewrite list_lookup_fmap, Hv. cbn. eauto. Qed.

Lemma stranded_setStopMode σ ver w : stranded ver w -> stranded ver (setStopMode sign σ w).
Proof.
  intros (Hs & Hm & Hver). rewrite setStopMode_early by (now left).
  now destruct w.
Qed.

Lemma stranded_do_call st c ver (i : nat) v :
  playing_sounds st !! i = Some v -> stranded ver v ->
  exists v', playing_sounds (do_call sign lerp st c) !! i = Some v' /\ stranded ver v'.
Proof.
  intros Hv Hst.
  destruct c; cbn [do_call].
  - (* play *)
    unfold play_sound_internal.
    destruct (allocate_playing_sound (playing_sounds st)) as [[idx|] vs] eqn:Ha.
    + assert (Ha1 : (allocate_playing_sound (playing_sounds st)).1 = Some idx) by now rewrite Ha.
      destruct (allocate_Some _ _ Ha1) as (_ & w & Hw & He & Hvs).
      rewrite Ha in Hvs. cbn in Hvs. subst vs.
      assert (Hne : i <> idx).
      { intros ->. assert (w = v) by congruence. subst w.
        rewrite (stranded_not_empty ver v Hst) in He. done. }
      destruct (_ <=? 2); cbn.
      * rewrite list_lookup_alter_ne by done. eauto.
      * rewrite list_lookup_insert_ne by done. rewrite list_lookup_alter_ne by done. eauto.
    + assert (Ha1 : (allocate_playing_sound (playing_sounds st)).1 = None) by now rewrite Ha.
      unfold allocate_playing_sound in Ha.
      destruct (scan_empty _ _ _); [done|]. injection Ha as <-. cbn. eauto.
  - apply (stranded_update_voice _ _ _ ver i v); try done.
    intros w Hw. pose proof Hw as (Hs & _). now rewrite Hs.
  - apply (stranded_fmap _ _ ver i v); try done.
    intros w Hw. rewrite (stranded_not_empty ver w Hw). now apply stranded_setStopMode.
  - apply (stranded_update_voice _ _ _ ver i v); done.
  - apply (stranded_update_voice _ _ _ ver i v); done.
  - apply (stranded_update_voice _ _ _ ver i v); done.
  - apply (stranded_update_voice _ _ _ ver i v); try done.
    intros w Hw. pose proof Hw as (Hs & _). now rewrite Hs.
  - cbn. eauto.
  - apply (stranded_fmap _ _ ver i v); try done.
    intros w Hw. destruct (_ && _); [|done]. now apply stranded_setStopMode.
  - unfold destroy_sound. destruct (PcmSound.isValid _); [|eauto].
    apply (stranded_fmap _ _ ver i v); try done.
    intros w Hw. destruct (_ && _); [|done]. now apply stranded_setStopMode.
  - apply (stranded_fmap _ _ ver i v); try done.
    intros w Hw. destruct (_ && _); [|done]. now apply stranded_setStopMode.
  - apply (stranded_fmap _ _ ver i v); try done.
    intros w Hw. destruct (_ && _); [|done]. now apply stranded_setStopMode.
  - exists v. split; [|done]. apply fill_buffer_cb_no_asset; [done|]. now destruct Hst.
Qed.

Lemma stranded_do_calls cs : forall st ver (i : nat) v,
  playing_sounds st !! i = Some v -> stranded ver v ->
  exists v', playing_sounds (do_calls sign lerp st cs) !! i = Some v' /\ stranded ver v'.
Proof.
  induction cs as [|c cs IH]; intros st ver i v Hv Hst; [cbn; eauto|].
  cbn [do_calls foldl].
  destruct (stranded_do_call st c ver i v Hv Hst) as (v1 & Hv1 & Hst1).
  apply (IH _ ver i v1 Hv1 Hst1).
Qed.

(** X22. A voice stranded in stop-fade is never released.  Once a voice
    is in stop-fade and holds no asset, as [stop_sound], [stop_all_sounds],
    asset deletion and the end of its range leave it, no sequence of calls
    of the control surface, asset deletions and device callbacks takes it
    out of that state: it stays in stop-fade with the same version, its
    slot is never empty, and no [play] is given that slot. *)
Theorem stranded_voice_keeps_its_slot cs st (i : nat) v :
  playing_sounds st !! i = Some v ->
  sound v = None -> stopMode v = true ->
  exists v',
    playing_sounds (do_calls sign lerp st cs) !! i = Some v' /\
    sound v' = None /\ stopMode v' = true /\ version v' = version v /\
    isEmpty v' = false /\
    (allocate_playing_sound (playing_sounds (do_calls sign lerp st cs))).1 <> Some i.
Proof.
  intros Hv Hs Hm.
  destruct (stranded_do_calls cs st (version v) i v Hv) as (v' & Hv' & Hst'); [done|].
  exists v'. pose proof (stranded_not_empty _ _ Hst') as He.
  destruct Hst' as (H1 & H2 & H3).
  repeat split; try done.
  intros Ha. destruct (allocate_Some _ _ Ha) as (_ & w & Hw & Hew & _).
  congruence.
Qed.

End Stranded.

(** ** The fast path of a two-channel voice at unit gain *)

Lemma uint32_small (z : Z) : 0 <= z < 2 ^ 32 -> uint32 z = z.
Proof. intros H. unfold uint32, wrap_u. now apply Z.mod_small. Qed.

Lemma pairs_cons a b l : pairs (a :: b :: l) = (a, b) :: pairs l.
Proof. reflexivity. Qed.

Lemma pairs_app_even (n : nat) l1 l2 :
  length l1 = (2 * n)%nat -> pairs (l1 ++ l2) = pairs l1 ++ pairs l2.
Proof.
  revert l1. induction n as [|n IH]; intros l1 H.
  - now destruct l1.
  - destruct l1 as [|x [|y l1]]; cbn in H; try lia.
    cbn [app]. rewrite !pairs_cons. cbn [app]. rewrite IH by lia. reflexivity.
Qed.

Section FastPathStereo.

Variable sign : f32 -> f32.
Variable lerp : f32 -> f32 -> f32 -> f32.

Lemma sample_stereo_int d k :
  0 <= k < 2 ^ 30 ->
  lerp (rd d (2 * k)) (rd d (2 * k + 2)) F32.zero = rd d (2 * k) ->
  lerp (rd d (2 * k + 1)) (rd d (2 * k + 3)) F32.zero = rd d (2 * k + 1) ->
  sample_stereo lerp d (F64.of_int k) = (rd d (2 * k), rd d (2 * k + 1)).
Proof.
  intros Hk Hl Hr. unfold sample_stereo. cbv zeta.
  rewrite d2u_int by lia.
  rewrite F64_sub_int_diag by lia.
  rewrite !(uint32_small (k * 2)) by lia.
  rewrite !(uint32_small (k * 2 + 2)) by lia.
  rewrite !(uint32_small (k * 2 + 1)) by lia.
  rewrite !(uint32_small (k * 2 + 2 + 1)) by lia.
  replace (k * 2) with (2 * k) by lia.
  replace (2 * k + 2 + 1) with (2 * k + 3) by lia.
  change (d2f (S754_zero false)) with F32.zero.
  now rewrite Hl, Hr.
Qed.

Lemma drop_rd2 d (k : nat) :
  (2 * k + 1 < length d)%nat ->
  drop (2 * k) d
  = rd d (2 * Z.of_nat k) :: rd d (2 * Z.of_nat k + 1) :: drop (2 * S k) d.
Proof.
  intros H.
  rewrite (drop_rd d (2 * k)) by lia.
  rewrite (drop_rd d (S (2 * k))) by lia.
  replace (Z.of_nat (2 * k)) with (2 * Z.of_nat k) by lia.
  replace (Z.of_nat (S (2 * k))) with (2 * Z.of_nat k + 1) by lia.
  now replace (S (S (2 * k))) with (2 * S k)%nat by lia.
Qed.

Lemma fast_stereo_identity d (c k : nat) :
  Z.of_nat (k + c) < 2 ^ 30 -> (2 * (k + c) <= length d)%nat ->
  Forall clean_sample (take (2 * c) (drop (2 * k) d)) ->
  (forall j, (2 * k <= j < 2 * (k + c))%nat ->
     lerp (rd d (Z.of_nat j)) (rd d (Z.of_nat j + 2)) F32.zero = rd d (Z.of_nat j)) ->
  fast_stereo lerp d F32.one F32.one F64.one (F64.of_int (Z.of_nat k)) (replicate c silence)
  = (F64.of_int (Z.of_nat (k + c)), pairs (take (2 * c) (drop (2 * k) d))).
Proof.
  revert k. induction c as [|c IH]; intros k Hk Hlen Hclean Hlerp.
  - cbn. now rewrite Nat.add_0_r.
  - cbn [replicate fast_stereo]. unfold silence at 1.
    rewrite (drop_rd2 d k) in * by lia.
    replace (2 * S c)%nat with (S (S (2 * c))) in * by lia. cbn [take] in *.
    apply Forall_cons in Hclean as [[Hv1 Hz1] Hclean].
    apply Forall_cons in Hclean as [[Hv2 Hz2] Hclean].
    rewrite sample_stereo_int; [|lia| |].
    2:{ specialize (Hlerp (2 * k)%nat ltac:(lia)).
        now replace (Z.of_nat (2 * k)) with (2 * Z.of_nat k) in Hlerp by lia. }
    2:{ specialize (Hlerp (2 * k + 1)%nat ltac:(lia)).
        replace (Z.of_nat (2 * k + 1)) with (2 * Z.of_nat k + 1) in Hlerp by lia.
        now replace (2 * Z.of_nat k + 1 + 2) with (2 * Z.of_nat k + 3) in Hlerp by lia. }
    assert (Hone : F64.one = F64.of_int 1) by reflexivity.
    rewrite Hone at 2. rewrite F64_add_int by lia.
    replace (Z.of_nat k + 1) with (Z.of_nat (S k)) by lia.
    rewrite (IH (S k)); [|lia|lia|exact Hclean|intros j Hj; apply Hlerp; lia].
    rewrite !F32_mul_one by assumption. rewrite !F32_add_zero_l by assumption.
    rewrite pairs_cons. do 2 f_equal. lia.
Qed.

Lemma mixTo_unit_stereo σ m f inv bt v a d (k c : nat) stop :
  unit_voice 2 σ m inv v a (Z.of_nat k) stop -> getData σ a = Some d ->
  Z.of_nat (k + c) < stop < 2 ^ 30 -> (2 * (k + c) <= length d)%nat ->
  Forall clean_sample (take (2 * c) (drop (2 * k) d)) ->
  (forall j, (2 * k <= j < 2 * (k + c))%nat ->
     lerp (rd d (Z.of_nat j)) (rd d (Z.of_nat j + 2)) F32.zero = rd d (Z.of_nat j)) ->
  mixTo sign lerp σ m v (replicate c silence) f inv bt
  = (set_pos (F64.of_int (Z.of_nat (k + c))) v, pairs (take (2 * c) (drop (2 * k) d))).
Proof.
  intros (Hs & Hc & Hm & Hw & HvL & HvR & HwL & HwR & Hadv & Hp & Hst) Hd Hk Hlen Hclean Hlerp.
  unfold mixTo. cbv zeta. rewrite Hs, Hd, Hadv.
  assert (Hfast : fast_path (wishVolumeL m v) (wishVolumeR m v) F64.one
                    (Z.of_nat (length (replicate c silence))) v = true).
  { unfold fast_path. rewrite Hm, Hw, HvL, HvR, HwL, HwR, Hp, Hst, length_replicate.
    rewrite F64_mul_one_l by (apply F64_valid_int; lia).
    rewrite F64_add_int by lia. rewrite flt_int by lia.
    replace (Z.of_nat k + Z.of_nat c <? stop) with true by (symmetry; apply Z.ltb_lt; lia).
    reflexivity. }
  rewrite Hfast, Hc, HvL, HvR, Hp. cbn [Z.eqb Pos.eqb].
  rewrite (fast_stereo_identity d c k) by (try assumption; lia).
  reflexivity.
Qed.

Lemma fill_loop_unit_stereo f d a (i : nat) stop :
  forall fuel st done (k n : nat) v,
    (n <= fuel)%nat -> Z.of_nat n <= INT_MAX ->
    playing_sounds st !! i = Some v ->
    (forall j w, j <> i -> playing_sounds st !! j = Some w -> isEmpty w = true) ->
    getData (assets st) a = Some d ->
    unit_voice 2 (assets st) (master_volume st) (F64.div F64.one (F64.of_int f)) v a
      (Z.of_nat k) stop ->
    Z.of_nat (k + n) < stop < 2 ^ 30 -> (2 * (k + n) <= length d)%nat ->
    Forall clean_sample (take (2 * n) (drop (2 * k) d)) ->
    (forall j, (2 * k <= j < 2 * (k + n))%nat ->
       lerp (rd d (Z.of_nat j)) (rd d (Z.of_nat j + 2)) F32.zero = rd d (Z.of_nat j)) ->
    (fill_loop sign lerp fuel st (done ++ replicate n silence) (length done) f
       (F64.div F64.one (F64.of_int f)) (Z.of_nat n)).2
    = done ++ pairs (take (2 * n) (drop (2 * k) d)) /\
    playing_sounds
      (fill_loop sign lerp fuel st (done ++ replicate n silence) (length done) f
         (F64.div F64.one (F64.of_int f)) (Z.of_nat n)).1
    = <[i := set_pos (F64.of_int (Z.of_nat (k + n))) v]> (playing_sounds st).
Proof.
  induction fuel as [|fuel IH]; intros st done k n v Hfuel Hmax Hv Ho Hd Hu Hk Hlen Hclean Hlerp.
  { assert (n = 0%nat) as -> by lia. cbn. rewrite Nat.add_0_r.
    split; [done|].
    destruct Hu as (_ & _ & _ & _ & _ & _ & _ & _ & _ & Hp & _).
    rewrite <- Hp, set_pos_same. symmetry. now apply list_insert_id. }
  cbn [fill_loop].
  destruct (0 <? Z.of_nat n) eqn:Hn.
  2:{ apply Z.ltb_ge in Hn. assert (n = 0%nat) as -> by lia. cbn. rewrite Nat.add_0_r.
      split; [done|].
      destruct Hu as (_ & _ & _ & _ & _ & _ & _ & _ & _ & Hp & _).
      rewrite <- Hp, set_pos_same. symmetry. now apply list_insert_id. }
  apply Z.ltb_lt in Hn. cbv zeta.
  set (c := Z.to_nat (Z.min (Z.of_nat n) 256)).
  assert (Hc : (c = n `min` 256)%nat) by (unfold c; lia).
  clearbody c.
  rewrite drop_app_length.
  rewrite take_replicate.
  replace (c `min` n)%nat with c by lia.
  rewrite (mix_voices_single _ _ _ _ _ _ _ _ _ i v Hv (unit_voice_not_empty _ _ _ _ _ _ _ _ Hu) Ho).
  assert (Hlenc : length (take (2 * c) (drop (2 * k) d)) = (2 * c)%nat).
  { rewrite length_take, length_drop. lia. }
  rewrite (mixTo_unit_stereo (assets st) (master_volume st) f _ _ v a d k c stop Hu Hd);
    [|lia|lia| |intros j Hj; apply Hlerp; lia].
  2:{ replace (2 * c)%nat with ((2 * c) `min` (2 * n))%nat by lia. rewrite <- take_take.
      now apply Forall_take. }
  cbn [fst snd].
  rewrite take_app_length.
  rewrite drop_app_add, drop_replicate.
  set (st' := mkState _ _ _ _ _).
  set (v' := set_pos (F64.of_int (Z.of_nat (k + c))) v).
  destruct (decide (n <= 256)%nat) as [Hsmall|Hbig].
  - assert (c = n) as Hcn by lia. clear Hc. subst c.
    replace (n - n)%nat with 0%nat by lia. cbn [replicate]. rewrite app_nil_r.
    assert (Hend : int32 (Z.of_nat n - 256) <= 0).
    { rewrite int32_small by (unfold INT_MIN, INT_MAX in *; lia). lia. }
    destruct fuel as [|fuel']; cbn [fill_loop].
    + done.
    + replace (0 <? int32 (Z.of_nat n - 256)) with false by (symmetry; apply Z.ltb_ge; lia).
      done.
  - assert (c = 256%nat) as Hcn by lia. clear Hc.
    assert (Hrest : int32 (Z.of_nat n - 256) = Z.of_nat (n - 256)).
    { rewrite int32_small by (unfold INT_MIN, INT_MAX in *; lia). lia. }
    rewrite Hrest.
    replace (n - c)%nat with (n - 256)%nat by lia.
    assert (Hpl : length (pairs (take (2 * c) (drop (2 * k) d))) = c).
    { rewrite <- (pairs_interleave (pairs (take (2 * c) (drop (2 * k) d)))) at 1.
      clear - Hlenc. revert Hlenc. generalize (take (2 * c) (drop (2 * k) d)). intros l.
      revert l. induction c as [|c IHc]; intros l Hl.
      - now destruct l.
      - destruct l as [|x [|y l]]; cbn in Hl; try lia.
        rewrite pairs_cons, interleave_cons, pairs_cons. cbn [length]. f_equal.
        apply IHc. lia. }
    assert (Hoff : (length done + Z.to_nat 256
                    = length (done ++ pairs (take (2 * c) (drop (2 * k) d))))%nat).
    { rewrite length_app. f_equal. change (Z.to_nat 256) with 256%nat. rewrite <- Hcn.
      symmetry. exact Hpl. }
    rewrite Hoff, app_assoc.
    assert (Hv' : playing_sounds st' !! i = Some v').
    { subst st'. cbn. apply list_lookup_insert_eq. now apply lookup_lt_Some in Hv. }
    assert (Hsplit : take (2 * n) (drop (2 * k) d)
                     = take (2 * c) (drop (2 * k) d)
                       ++ take (2 * (n - 256)) (drop (2 * (k + c)) d)).
    { replace (2 * (k + c))%nat with (2 * k + 2 * c)%nat by lia.
      rewrite <- drop_drop, take_take_drop. f_equal. lia. }
    destruct (IH st' (done ++ pairs (take (2 * c) (drop (2 * k) d))) (k + c)%nat (n - 256)%nat v')
      as [E1 E2]; try assumption.
    + lia.
    + lia.
    + intros j w Hj Hw. subst st'. cbn in Hw.
      rewrite list_lookup_insert_ne in Hw by done. now apply (Ho j w).
    + subst st' v'. cbn [assets master_volume].
      now apply (unit_voice_advance _ _ _ _ v a (Z.of_nat k) stop).
    + lia.
    + lia.
    + rewrite Hsplit in Hclean. now apply Forall_app in Hclean as [_ ?].
    + intros j Hj. apply Hlerp. lia.
    + rewrite E1, E2. split.
      * rewrite <- app_assoc. f_equal. rewrite Hsplit.
        now rewrite (pairs_app_even c) by exact Hlenc.
      * subst st' v'. cbn. rewrite list_insert_insert_eq, set_pos_set_pos.
        now replace (k + c + (n - 256))%nat with (k + n)%nat by lia.
Qed.

(** X23. A single two-channel voice at unit gain is passed through
    unchanged.  When one voice of two channels plays alone at unit gains
    and unit advance from an integer position, with the end of its range
    still ahead, a callback of [n] frames delivers exactly the next [n]
    frames of the asset, left sample to the left and right sample to the
    right, and moves the position on by [n]. *)
Theorem stereo_voice_identity st f (n k i : nat) v a d stop :
  playing_sounds st !! i = Some v ->
  (forall j w, j <> i -> playing_sounds st !! j = Some w -> isEmpty w = true) ->
  getData (assets st) a = Some d ->
  unit_voice 2 (assets st) (master_volume st) (F64.div F64.one (F64.of_int f)) v a
    (Z.of_nat k) stop ->
  Z.of_nat n <= INT_MAX ->
  Z.of_nat (k + n) < stop < 2 ^ 30 -> (2 * (k + n) <= length d)%nat ->
  Forall clean_sample (take (2 * n) (drop (2 * k) d)) ->
  (forall j, (2 * k <= j < 2 * (k + n))%nat ->
     lerp (rd d (Z.of_nat j)) (rd d (Z.of_nat j + 2)) F32.zero = rd d (Z.of_nat j)) ->
  (fill_buffer_cb sign lerp st f (Z.of_nat n)).2 = pairs (take (2 * n) (drop (2 * k) d)) /\
  playing_sounds (fill_buffer_cb sign lerp st f (Z.of_nat n)).1
  = <[i := set_pos (F64.of_int (Z.of_nat (k + n))) v]> (playing_sounds st).
Proof.
  intros Hv Ho Hd Hu Hmax Hk Hlen Hclean Hlerp.
  unfold fill_buffer_cb. cbv zeta. rewrite Nat2Z.id.
  apply (fill_loop_unit_stereo f d a i stop n st [] k n v); try assumption. lia.
Qed.

End FastPathStereo.

(** ** Stopping twice *)

Section Idempotent.

Variable sign : f32 -> f32.

Lemma set_waitingStart_same b v : waitingStart v = b -> set_waitingStart b v = v.
Proof. destruct v. cbn. now intros ->. Qed.

Lemma setStopMode_twice σ σ' v :
  setStopMode sign σ' (setStopMode sign σ v) = setStopMode sign σ v.
Proof.
  destruct (sound v) as [a|] eqn:Hs; [destruct (stopMode v) eqn:Hm|].
  - rewrite (setStopMode_early sign σ v) by auto.
    rewrite setStopMode_early by (left; now destruct v).
    now destruct v.
  - destruct (setStopMode_live sign σ v a Hs Hm) as (_ & Hn & Hw & _).
    rewrite setStopMode_early by auto. now apply set_waitingStart_same.
  - rewrite (setStopMode_early sign σ v) by auto.
    rewrite setStopMode_early by (right; now destruct v).
    now destruct v.
Qed.

Lemma stop_live_twice σ σ' v :
  match sound (match sound v with
               | None => v
               | Some _ => if stopMode v then v else setStopMode sign σ v
               end) with
  | None => match sound v with
            | None => v
            | Some _ => if stopMode v then v else setStopMode sign σ v
            end
  | Some _ =>
      if stopMode (match sound v with
                   | None => v
                   | Some _ => if stopMode v then v else setStopMode sign σ v
                   end)
      then match sound v with
           | None => v
           | Some _ => if stopMode v then v else setStopMode sign σ v
           end
      else setStopMode sign σ' (match sound v with
                                | None => v
                                | Some _ => if stopMode v then v else setStopMode sign σ v
                                end)
  end
  = match sound v with
    | None => v
    | Some _ => if stopMode v then v else setStopMode sign σ v
    end.
Proof.
  destruct (sound v) as [a|] eqn:Hs; [destruct (stopMode v) eqn:Hm|].
  - now rewrite Hs, Hm.
  - destruct (setStopMode_live sign σ v a Hs Hm) as (_ & Hn & _). now rewrite Hn.
  - now rewrite Hs.
Qed.

(** X24. Stopping twice is stopping once.  A second [stop_sound] on the
    same handle, a second [stop_all_sounds] and a second [delete_sound] of
    the same asset leave the state exactly as the first one did: no
    version is advanced again and no fade gain is scaled again. *)
Theorem stopping_is_idempotent st h a :
  stop_sound sign (stop_sound sign st h) h = stop_sound sign st h /\
  stop_all_sounds sign (stop_all_sounds sign st) = stop_all_sounds sign st /\
  delete_sound sign (delete_sound sign st a) a = delete_sound sign st a.
Proof.
  repeat match goal with |- _ /\ _ => split end.
  - unfold stop_sound at 1 3. unfold update_voice.
    destruct (handle_to_index (playing_sounds st) h) as [i|] eqn:E.
    + set (st' := stop_sound sign st h).
      assert (Hst' : st' = set_playing_sounds
                (alter (λ v, match sound v with
                             | None => v
                             | Some _ => if stopMode v then v else setStopMode sign (assets st) v
                             end) i (playing_sounds st)) st).
      { subst st'. unfold stop_sound, update_voice. now rewrite E. }
      destruct (handle_to_index (playing_sounds st') h) as [i'|] eqn:E'.
      * assert (i' = i) as ->.
        { unfold handle_to_index in E, E'.
          destruct (is_handle_valid _ _); [|discriminate].
          destruct (is_handle_valid _ _); [|discriminate]. congruence. }
        rewrite Hst'. unfold set_playing_sounds. cbn. f_equal.
        rewrite list_alter_alter_eq. apply list_alter_ext; [|done].
        intros v _. apply stop_live_twice.
      * exact Hst'.
    + assert (stop_sound sign st h = st) as ->
        by (unfold stop_sound, update_voice; now rewrite E).
      now rewrite E.
  - unfold stop_all_sounds, set_playing_sounds. cbn. f_equal.
    rewrite <- list_fmap_compose. apply list_fmap_ext. intros i v _. cbn.
    destruct (isEmpty v) eqn:He; [cbv iota; now rewrite He|].
    rewrite setStopMode_twice. destruct (isEmpty (setStopMode sign (assets st) v)); reflexivity.
  - unfold delete_sound, set_assets, set_playing_sounds. cbn. f_equal.
    + rewrite <- list_fmap_compose. apply list_fmap_ext. intros i v _. cbn.
      destruct (bool_decide (sound v = Some a) && negb (isEmpty v)) eqn:Hc.
      * rewrite setStopMode_twice.
        destruct (bool_decide _ && negb (isEmpty (setStopMode sign (assets st) v))); reflexivity.
      * cbv iota. now rewrite Hc.
    + apply map_eq. intros k. destruct (decide (k = a)) as [->|Hk].
      * rewrite !lookup_alter_eq. destruct (assets st !! a); reflexivity.
      * now rewrite !lookup_alter_ne.
Qed.

End Idempotent.

(** ** The properties above on the scenarios *)

Lemma table_ok_preserved_S1 :
  table_ok (playing_sounds initialize) /\
  table_ok (playing_sounds
              (do_calls sign_ref lerp_ref state_S1
                 [call_play 7 F32.one F32.one F32.zero F32.zero (F32.of_int 1000000) false
                    F32.zero;
                  call_callback 48000 480; call_stop_all_sounds; call_delete_sound 7])).
Proof.
  split; [exact table_ok_initialize|].
  apply (table_ok_preserved sign_ref lerp_ref). exact table_ok_initialize.
Defined.

Lemma looping_voice_survives_S1 :
  exists v',
    playing_sounds (fill_buffer_cb sign_ref lerp_ref looping_S1 48000 2000).1 !! 1%nat = Some v' /\
    sound v' = Some 7%nat /\ stopMode v' = false /\ version v' = 128.
Proof.
  destruct (looping_voice_survives sign_ref lerp_ref looping_S1 48000 2000 1%nat
              (default zero_voice (playing_sounds looping_S1 !! 1%nat)) 7%nat)
    as (v' & H1 & H2 & H3 & _ & H4 & _); [vm_compute; reflexivity..|].
  exists v'. repeat split; assumption.
Defined.

Lemma callback_handle_fate_S1 :
  exists v',
    playing_sounds (fill_buffer_cb sign_ref lerp_ref playing_S1 48000 480).1 !! 1%nat = Some v' /\
    (sound v' = Some 7%nat \/
     is_handle_valid (playing_sounds (fill_buffer_cb sign_ref lerp_ref playing_S1 48000 480).1)
       handle_S1 = false).
Proof.
  destruct (callback_handle_fate sign_ref lerp_ref playing_S1 48000 480 handle_S1 voice_S1 7%nat)
    as (v' & H1 & H2); [vm_compute; reflexivity..|].
  exists v'. split; [exact H1|].
  destruct H2 as [(_ & _ & H & _)|(H & _)]; [now left|now right].
Defined.

Lemma play_takes_lowest_free_slot_S1 :
  handle_to_index (playing_sounds playing_S1) handle_S1 = Some 1%nat.
Proof.
  apply (play_takes_lowest_free_slot state_S1 7 F32.one F32.one F32.zero F32.zero
           (F32.of_int 1000000) false F32.zero).
  - exact versions_aligned_initialize.
  - vm_compute. discriminate.
Defined.

Lemma play_retires_old_handles_S1 :
  is_handle_valid (playing_sounds state_S1) 1 = true /\
  is_handle_valid (playing_sounds playing_S1) 1 = false /\
  is_handle_valid (playing_sounds playing_S1) handle_S1 = true.
Proof.
  assert (Hne : (play_sound_internal state_S1 7 F32.one F32.one F32.zero F32.zero
                   (F32.of_int 1000000) false F32.zero).2 <> no_handle)
    by (vm_compute; discriminate).
  destruct (play_retires_old_handles state_S1 7 F32.one F32.one F32.zero F32.zero
              (F32.of_int 1000000) false F32.zero versions_aligned_initialize Hne)
    as (H1 & _ & H2 & _).
  split; [vm_compute; reflexivity|]. split; [|exact H1].
  apply (H2 1); vm_compute; reflexivity.
Defined.

Lemma refused_play_starts_nothing_S1 :
  (play_sound_internal initialize 99 F32.one F32.one F32.zero F32.zero
     (F32.of_int 1000000) false F32.zero).2 = no_handle /\
  assets (play_sound_internal initialize 99 F32.one F32.one F32.zero F32.zero
            (F32.of_int 1000000) false F32.zero).1 = assets initialize.
Proof.
  assert (H : (play_sound_internal initialize 99 F32.one F32.one F32.zero F32.zero
                 (F32.of_int 1000000) false F32.zero).2 = no_handle)
    by (vm_compute; reflexivity).
  split; [exact H|].
  apply (refused_play_starts_nothing initialize 99 F32.one F32.one F32.zero F32.zero
           (F32.of_int 1000000) false F32.zero versions_aligned_initialize H).
Defined.

Lemma table_ok_playing_S1 : table_ok (playing_sounds playing_S1).
Proof. apply table_ok_play. exact table_ok_initialize. Qed.

Lemma delete_sound_releases_S1 :
  Forall (λ v, sound v <> Some 7%nat) (playing_sounds (delete_sound sign_ref playing_S1 7)) /\
  PcmSound.isValid (target (assets (delete_sound sign_ref playing_S1 7)) 7) = false.
Proof.
  destruct (delete_sound_releases sign_ref playing_S1 7 table_ok_playing_S1)
    as (H1 & _ & H2 & _).
  split; assumption.
Defined.

Lemma move_releases_S1 :
  Forall (λ v, sound v <> Some 7%nat) (playing_sounds (move_construct sign_ref playing_S1 8 7)) /\
  target (assets (move_construct sign_ref playing_S1 8 7)) 8 = asset_S1.
Proof.
  destruct (move_releases sign_ref playing_S1 8 7 table_ok_playing_S1)
    as (H1 & _ & H2 & _).
  split; [exact H1|].
  destruct H2 as [H2 _]; [lia|]. rewrite H2. vm_compute. reflexivity.
Defined.

Lemma stop_sound_frees_waiting_S3 :
  exists v',
    playing_sounds (stop_sound sign_ref deferred_S3 handle_S3) !! 1%nat = Some v' /\
    isEmpty v' = true.
Proof.
  destruct (stop_sound_frees_waiting sign_ref deferred_S3 handle_S3
              (default zero_voice (playing_sounds deferred_S3 !! 1%nat)) 7%nat)
    as (v' & H1 & _ & _ & H2 & _); [vm_compute; reflexivity..|].
  exists v'. split; [exact H1|].
  destruct H2 as [H2 _]; [vm_compute; reflexivity|exact H2].
Defined.

Lemma set_sound_play_pos_clamps_S1 :
  exists p,
    playing_sounds (set_sound_play_pos playing_S1 handle_S1 c_0_5) !! 1%nat
      = Some (set_pos p voice_S1) /\
    fle (startPos voice_S1) p = true /\ fle p (stopPos voice_S1) = true.
Proof.
  destruct (set_sound_play_pos_clamps playing_S1 handle_S1 voice_S1 7%nat c_0_5)
    as (p & H1 & _ & H2 & H3); [vm_compute; reflexivity..| | |].
  - vm_compute. split; [discriminate|reflexivity].
  - exact I.
  - exists p. repeat split; assumption.
Defined.

Lemma create_get_round_trip_S1 :
  get_sound_data asset_S1 [F32.zero; F32.zero; F32.zero] = [c_0_5; c_0_5; c_0_5].
Proof.
  unfold asset_S1.
  rewrite (proj1 (create_get_round_trip zero_memory zero_memory 48000)).
  - reflexivity.
  - lia.
  - rewrite length_replicate. lia.
  - rewrite length_replicate. vm_compute. discriminate.
  - vm_compute. discriminate.
Defined.

Lemma allocated_S1 : allocated asset_S1.
Proof.
  apply create_sound_guard; [lia|rewrite length_replicate; lia|].
  rewrite length_replicate. vm_compute. discriminate.
Qed.

Lemma set_get_round_trip_S1 :
  get_sound_data (set_sound_data asset_S1 [F32.one; F32.zero; F32.one])
    [F32.zero; F32.zero; F32.zero; F32.zero] !! 2%nat = Some F32.one.
Proof.
  apply (proj1 (set_get_round_trip asset_S1 2 allocated_S1 ltac:(vm_compute; reflexivity))).
  - reflexivity.
  - vm_compute. discriminate.
  - vm_compute. discriminate.
  - reflexivity.
  - cbn. lia.
Defined.

Lemma allocated_S2 : allocated stereo_S2.
Proof.
  apply create_sound_stereo_guard; [lia|rewrite length_replicate; lia|].
  rewrite length_replicate. vm_compute. discriminate.
Qed.

Lemma channel_conversion_S2 :
  get_sound_data (set_sound_data stereo_S2 [c_0_5; c_0_5]) [F32.zero; F32.zero] !! 1%nat
  = Some c_0_5.
Proof.
  apply (proj1 (channel_conversion stereo_S2 1 allocated_S2 ltac:(vm_compute; reflexivity))
           [c_0_5; c_0_5] c_0_5 eq_refl).
  - vm_compute. discriminate.
  - reflexivity.
  - vm_compute. discriminate.
  - cbn. lia.
  - reflexivity.
  - vm_compute. reflexivity.
Defined.

Lemma guard_frame_S1 : guard_frame asset_S1.
Proof.
  apply create_sound_guard; [lia|rewrite length_replicate; lia|].
  rewrite length_replicate. vm_compute. discriminate.
Qed.

Lemma copy_sound_faithful_S1 :
  guard_frame (copy_sound zero_memory asset_S1) /\
  get_sound_data (copy_sound zero_memory asset_S1) [F32.zero]
  = get_sound_data asset_S1 [F32.zero].
Proof.
  destruct (copy_sound_faithful zero_memory asset_S1 allocated_S1 guard_frame_S1)
    as (_ & H1 & _ & _ & _ & H2 & _).
  split; [exact H1|]. apply H2. vm_compute. discriminate.
Defined.

Lemma data_S1_lookup (j : nat) : (j < 1000)%nat -> rd data_S1 (Z.of_nat j) = c_0_5.
Proof.
  intros Hj.
  destruct (create_sound_data zero_memory zero_memory 48000 (replicate 1000 c_0_5))
    as (d & He & Hd); [lia|rewrite length_replicate; lia| |].
  { rewrite length_replicate. vm_compute. discriminate. }
  unfold data_S1, asset_S1. rewrite He. cbn [PcmSound.data default].
  apply rd_lookup, Hd. now apply lookup_replicate_2.
Qed.

Lemma others_empty_S1 j w :
  j <> 1%nat -> playing_sounds playing_S1 !! j = Some w -> isEmpty w = true.
Proof.
  intros Hj Hw.
  assert (H : Forall (λ w, isEmpty w = true) (delete 1%nat (playing_sounds playing_S1))).
  { apply Forall_forall. intros x Hx.
    assert (E : delete 1%nat (playing_sounds playing_S1) = replicate 127 zero_voice)
      by (vm_compute; reflexivity).
    rewrite E in Hx. apply elem_of_replicate in Hx as [-> _]. reflexivity. }
  rewrite Forall_lookup in H.
  destruct (decide (j < 1)%nat) as [Hlt|Hge].
  - apply (H j w). rewrite list_lookup_delete_lt by lia. exact Hw.
  - destruct j as [|j]; [lia|]. apply (H j w).
    rewrite list_lookup_delete_ge by lia. exact Hw.
Qed.

Lemma single_voice_identity_S1 :
  (fill_buffer_cb sign_ref lerp_ref playing_S1 48000 480).2 = replicate 480 (c_0_5, c_0_5).
Proof.
  destruct (single_voice_identity sign_ref lerp_ref playing_S1 48000 480 0 1 voice_S1 7%nat
              data_S1 999) as [H _].
  - vm_compute. reflexivity.
  - exact others_empty_S1.
  - vm_compute. reflexivity.
  - repeat split; vm_compute; reflexivity.
  - vm_compute. discriminate.
  - vm_compute. split; reflexivity.
  - vm_compute. lia.
  - replace (take 480 (drop 0 data_S1)) with (replicate 480 c_0_5) by (vm_compute; reflexivity).
    apply Forall_replicate. split; [reflexivity|discriminate].
  - intros j Hj. rewrite data_S1_lookup by lia.
    rewrite uint32_small by lia.
    replace (Z.of_nat j + 1) with (Z.of_nat (S j)) by lia.
    rewrite data_S1_lookup by lia. vm_compute. reflexivity.
  - change (Z.of_nat 480) with 480 in H. rewrite H. vm_compute. reflexivity.
Defined.

Lemma single_voice_plays_to_end_S1 :
  take 999 (fill_buffer_cb sign_ref lerp_ref playing_S1 48000 2560).2
    = replicate 999 (c_0_5, c_0_5) /\
  is_handle_valid (playing_sounds playing_S1) handle_S1 = true /\
  is_handle_valid (playing_sounds (fill_buffer_cb sign_ref lerp_ref playing_S1 48000 2560).1)
    handle_S1 = false.
Proof.
  destruct (single_voice_plays_to_end sign_ref lerp_ref playing_S1 48000 2560 0 999 1
              voice_S1 7%nat data_S1 999) as (H1 & _ & _ & H2).
  - vm_compute. reflexivity.
  - exact others_empty_S1.
  - vm_compute. reflexivity.
  - repeat split; vm_compute; reflexivity.
  - vm_compute. reflexivity.
  - vm_compute. discriminate.
  - reflexivity.
  - lia.
  - reflexivity.
  - vm_compute. lia.
  - replace (take 999 (drop 0 data_S1)) with (replicate 999 c_0_5) by (vm_compute; reflexivity).
    apply Forall_replicate. split; [reflexivity|discriminate].
  - intros j Hj. rewrite data_S1_lookup by lia.
    rewrite uint32_small by lia.
    replace (Z.of_nat j + 1) with (Z.of_nat (S j)) by lia.
    rewrite data_S1_lookup by lia. vm_compute. reflexivity.
  - change (Z.of_nat 2560) with 2560 in H1, H2.
    assert (Hh : is_handle_valid (playing_sounds playing_S1) handle_S1 = true)
      by (vm_compute; reflexivity).
    split; [|split; [exact Hh|]].
    + rewrite H1. vm_compute. reflexivity.
    + apply H2; [vm_compute; reflexivity|exact Hh].
Defined.

Lemma stranded_voice_keeps_its_slot_S1 :
  exists v',
    playing_sounds
      (do_calls sign_ref lerp_ref stopped_S1
         [call_callback 48000 2560; call_stop_all_sounds;
          call_play 7 F32.one F32.one F32.zero F32.zero (F32.of_int 1000000) false F32.zero;
          call_callback 48000 2560]) !! 1%nat = Some v' /\
    stopMode v' = true /\ isEmpty v' = false.
Proof.
  destruct (stranded_voice_keeps_its_slot sign_ref lerp_ref
              [call_callback 48000 2560; call_stop_all_sounds;
               call_play 7 F32.one F32.one F32.zero F32.zero (F32.of_int 1000000) false F32.zero;
               call_callback 48000 2560]
              stopped_S1 1 stopped_voice_S1)
    as (v' & H1 & _ & H2 & _ & H3 & _); [vm_compute; reflexivity..|].
  exists v'. repeat split; assumption.
Defined.

Lemma others_empty_S2 j w :
  j <> 1%nat -> playing_sounds playing_S2 !! j = Some w -> isEmpty w = true.
Proof.
  intros Hj Hw.
  assert (H : Forall (λ w, isEmpty w = true) (delete 1%nat (playing_sounds playing_S2))).
  { apply Forall_forall. intros x Hx.
    assert (E : delete 1%nat (playing_sounds playing_S2) = replicate 127 zero_voice)
      by (vm_compute; reflexivity).
    rewrite E in Hx. apply elem_of_replicate in Hx as [-> _]. reflexivity. }
  rewrite Forall_lookup in H.
  destruct (decide (j < 1)%nat) as [Hlt|Hge].
  - apply (H j w). rewrite list_lookup_delete_lt by lia. exact Hw.
  - destruct j as [|j]; [lia|]. apply (H j w).
    rewrite list_lookup_delete_ge by lia. exact Hw.
Qed.

Lemma data_S2_lerp (j : nat) :
  (j < 128)%nat ->
  lerp_ref (rd data_S2 (Z.of_nat j)) (rd data_S2 (Z.of_nat j + 2)) F32.zero
  = rd data_S2 (Z.of_nat j).
Proof.
  intros Hj.
  assert (H : Forall (λ j : nat,
                lerp_ref (rd data_S2 (Z.of_nat j)) (rd data_S2 (Z.of_nat j + 2)) F32.zero
                = rd data_S2 (Z.of_nat j)) (seq 0 128)).
  { repeat (apply Forall_cons; split; [vm_compute; reflexivity|]). apply Forall_nil_2. }
  rewrite Forall_forall in H. apply H. apply elem_of_seq. lia.
Qed.

Lemma stereo_voice_identity_S2 :
  (fill_buffer_cb sign_ref lerp_ref playing_S2 44100 64).2 = replicate 64 (F32.one, F32.zero).
Proof.
  destruct (stereo_voice_identity sign_ref lerp_ref playing_S2 44100 64 0 1 voice_S2 7%nat
              data_S2 99) as [H _].
  - vm_compute. reflexivity.
  - exact others_empty_S2.
  - vm_compute. reflexivity.
  - repeat split; vm_compute; reflexivity.
  - vm_compute. discriminate.
  - vm_compute. split; reflexivity.
  - vm_compute. lia.
  - replace (take (2 * 64) (drop (2 * 0) data_S2))
      with (interleave (replicate 64 (F32.one, F32.zero))) by (vm_compute; reflexivity).
    replace (interleave (replicate 64 (F32.one, F32.zero)))
      with (concat (replicate 64 [F32.one; F32.zero])) by (vm_compute; reflexivity).
    apply Forall_concat, Forall_replicate.
    repeat (apply Forall_cons; split; [split; [reflexivity|discriminate]|]). apply Forall_nil_2.
  - intros j Hj. apply data_S2_lerp. lia.
  - change (Z.of_nat 64) with 64 in H. rewrite H. vm_compute. reflexivity.
Defined.
(** ** Deferred start, on the countdown *)

Lemma countdown_S inv t n : countdown inv t (S n) = countdown inv (F64.sub t inv) n.
Proof. unfold countdown. now rewrite Nat.iter_succ_r. Qed.

Lemma set_timeToStart_twice t t' v : set_timeToStart t' (set_timeToStart t v) = set_timeToStart t' v.
Proof. now destruct v. Qed.

Lemma set_timeToStart_same v : set_timeToStart (timeToStart v) v = v.
Proof. now destruct v. Qed.

(** The countdown that does not end within [n] frames. *)
Lemma wait_run_waiting inv n : forall v,
  waitingStart v = true ->
  (forall j, (j < n)%nat -> fle (countdown inv (timeToStart v) (S j)) F64.zero = false) ->
  wait_run inv v n = (set_timeToStart (countdown inv (timeToStart v) n) v, n).
Proof.
  induction n as [|n IH]; intros v Hw Hj.
  - cbn. now rewrite set_timeToStart_same.
  - cbn [wait_run]. rewrite Hw.
    assert (E : wait_step inv v = set_timeToStart (F64.sub (timeToStart v) inv) v).
    { unfold wait_step. cbv zeta. cbn [timeToStart set_timeToStart].
      specialize (Hj 0%nat ltac:(lia)). cbn in Hj. now rewrite Hj. }
    rewrite E, IH.
    + cbn [timeToStart set_timeToStart]. rewrite set_timeToStart_twice, <- countdown_S. reflexivity.
    + exact Hw.
    + intros j Hlt. cbn [timeToStart set_timeToStart]. rewrite <- countdown_S. apply Hj. lia.
Qed.

(** The countdown that ends on frame [k]. *)
Lemma wait_run_started inv n : forall v k,
  waitingStart v = true -> (k < n)%nat ->
  (forall j, (j < k)%nat -> fle (countdown inv (timeToStart v) (S j)) F64.zero = false) ->
  fle (countdown inv (timeToStart v) (S k)) F64.zero = true ->
  wait_run inv v n
  = (set_pos (startPos v)
       (set_waitingStart false (set_timeToStart (countdown inv (timeToStart v) (S k)) v)), S k).
Proof.
  induction n as [|n IH]; intros v k Hw Hk Hj Hend; [lia|].
  cbn [wait_run]. rewrite Hw.
  destruct k as [|k].
  - assert (E : wait_step inv v
              = set_pos (startPos v)
                  (set_waitingStart false (set_timeToStart (F64.sub (timeToStart v) inv) v))).
    { unfold wait_step. cbv zeta. cbn [timeToStart set_timeToStart]. cbn in Hend.
      now rewrite Hend. }
    rewrite E. destruct n; reflexivity.
  - assert (E : wait_step inv v = set_timeToStart (F64.sub (timeToStart v) inv) v).
    { unfold wait_step. cbv zeta. cbn [timeToStart set_timeToStart].
      specialize (Hj 0%nat ltac:(lia)). cbn in Hj. now rewrite Hj. }
    rewrite E, (IH _ k).
    + cbn [timeToStart set_timeToStart startPos]. rewrite set_timeToStart_twice, <- countdown_S.
      reflexivity.
    + exact Hw.
    + lia.
    + intros j Hlt. cbn [timeToStart set_timeToStart]. rewrite <- countdown_S. apply Hj. lia.
    + cbn [timeToStart set_timeToStart]. now rewrite <- countdown_S.
Qed.

Lemma f2i_in_range (p : spec_float) (z : Z) :
  SFtrunc p = Some z -> INT_MIN <= z <= INT_MAX -> f2i p = z.
Proof.
  intros Hp Hz. unfold f2i. rewrite Hp.
  replace ((INT_MIN <=? z) && (z <=? INT_MAX)) with true; [reflexivity|].
  symmetry. apply andb_true_iff. split; apply Z.leb_le; lia.
Qed.

Lemma f2i_out_of_range (p : spec_float) :
  (forall z, SFtrunc p = Some z -> z < INT_MIN \/ INT_MAX < z) -> f2i p = INT_MIN.
Proof.
  intros H. unfold f2i. destruct (SFtrunc p) as [z|]; [|reflexivity].
  destruct (H z eq_refl) as [Hz|Hz].
  - replace (INT_MIN <=? z) with false by (symmetry; apply Z.leb_gt; lia). reflexivity.
  - replace (z <=? INT_MAX) with false by (symmetry; apply Z.leb_gt; lia).
    now rewrite andb_false_r.
Qed.

Lemma fmin_below (z : Z) hi :
  z < 0 -> fle F64.zero hi = true -> fmin (F64.of_int z) hi = F64.of_int z.
Proof.
  intros Hz Hhi. unfold fmin.
  pose proof (flt_neg_nonneg _ hi (F64_of_int_neg_lt z Hz) Hhi) as H.
  now rewrite (flt_asym _ _ H).
Qed.

Lemma fle_trans_zero x y :
  fle F64.zero x = true -> fle x y = true -> fle F64.zero y = true.
Proof.
  unfold fle, SFleb, F64.zero.
  destruct x as [[]|[]| |[] m e], y as [[]|[]| |[] m' e']; cbn; congruence.
Qed.

Section DeferredStart.

Variable sign : f32 -> f32.
Variable lerp : f32 -> f32 -> f32 -> f32.

Lemma general_first_frame σ d wL wR adv inv v l r rest :
  waitingStart v = false -> stopMode v = false ->
  (if channels v =? 1
   then general_mono sign lerp σ d wL wR adv inv v
   else general_stereo sign lerp σ d wL wR adv inv v) ((l, r) :: rest) =
  let tail :=
    (if channels v =? 1
     then general_mono sign lerp σ d wL wR adv inv (play_step sign σ wL wR adv v)
     else general_stereo sign lerp σ d wL wR adv inv (play_step sign σ wL wR adv v)) rest in
  (tail.1, mixed_frame lerp d (channels v) (pos v) (volumeL v) (volumeR v) (l, r) :: tail.2).
Proof.
  intros Hw Hs. unfold mixed_frame. cbv zeta. destruct (channels v =? 1).
  - cbn [general_mono]. rewrite Hw, Hs. cbn [negb fst snd].
    now destruct (general_mono _ _ _ _ _ _ _ _ _ rest).
  - cbn [general_stereo]. rewrite Hw, Hs. cbn [negb fst snd].
    destruct (sample_stereo lerp d (pos v)) as [sl sr].
    now destruct (general_stereo _ _ _ _ _ _ _ _ _ rest).
Qed.

(** C7, as the code has it.  A play with [defer_seconds > 0] creates the
    voice waiting, with [timeToStart = defer_seconds] and [pos = start];
    with [defer_seconds < 0] it creates it playing at
    [min(double(int(-defer_seconds * frequency)), stop)], the product cut to
    a whole number where that fits [int] and replaced by the smallest [int]
    where it does not; with [defer_seconds == 0] playing at [start].
    A waiting voice adds nothing to the output until the time it waits for
    has passed on the countdown of [timeToStart]: a chunk shorter than
    [timeToStart] is left untouched and lowers it by the chunk's duration;
    in another chunk [timeToStart] is lowered by [1/out_frequency] per
    frame, and the first frame on which it is [<= 0] is the last one left
    untouched: on it [waitingStart] is cleared and [pos] set to [startPos],
    and the frame behind it is the sample at [startPos] at the voice's
    gains. *)
Theorem defer_semantics :
  (forall st a vol pit pn t0 t1 lp df idx,
      (allocate_playing_sound (playing_sounds st)).1 = Some idx ->
      2 < PcmSound.samples (target (assets st) a) <= INT_MAX ->
      F32.valid df = true ->
      exists v',
        playing_sounds (play_sound_internal st a vol pit pn t0 t1 lp df).1 !! idx = Some v' /\
        (flt F32.zero df = true ->
         waitingStart v' = true /\ timeToStart v' = f2d df /\ pos v' = startPos v') /\
        (flt df F32.zero = true ->
         waitingStart v' = false /\
         pos v' = fmin (F64.of_int (f2i (F32.mul (SFopp df)
                          (F32.of_int (PcmSound.frequency (target (assets st) a))))))
                    (stopPos v') /\
         (forall z,
             SFtrunc (F32.mul (SFopp df)
                        (F32.of_int (PcmSound.frequency (target (assets st) a)))) = Some z ->
             INT_MIN <= z <= INT_MAX ->
             pos v' = fmin (F64.of_int z) (stopPos v')) /\
         ((forall z,
             SFtrunc (F32.mul (SFopp df)
                        (F32.of_int (PcmSound.frequency (target (assets st) a)))) = Some z ->
             z < INT_MIN \/ INT_MAX < z) ->
          pos v' = F64.of_int INT_MIN)) /\
        (feq df F32.zero = true -> waitingStart v' = false /\ pos v' = startPos v')) /\
  (forall σ m v a d mix f inv bt,
      sound v = Some a -> getData σ a = Some d -> waitingStart v = true ->
      (fgt (timeToStart v) bt = true ->
       mixTo sign lerp σ m v mix f inv bt
       = (set_timeToStart (F64.sub (timeToStart v) bt) v, mix)) /\
      (fgt (timeToStart v) bt = false ->
       (forall j, (j < length mix)%nat ->
          fle (countdown inv (timeToStart v) (S j)) F64.zero = false) ->
       mixTo sign lerp σ m v mix f inv bt
       = (set_timeToStart (countdown inv (timeToStart v) (length mix)) v, mix)) /\
      (forall k,
          fgt (timeToStart v) bt = false -> (k < length mix)%nat ->
          (forall j, (j < k)%nat ->
             fle (countdown inv (timeToStart v) (S j)) F64.zero = false) ->
          fle (countdown inv (timeToStart v) (S k)) F64.zero = true ->
          let v1 :=
            set_pos (startPos v)
              (set_waitingStart false
                 (set_timeToStart (countdown inv (timeToStart v) (S k)) v)) in
          let rest :=
            (if channels v =? 1
             then general_mono sign lerp σ d (wishVolumeL m v) (wishVolumeR m v)
                    (F64.mul (F64.mul (F64.of_int (PcmSound.frequency (target σ a))) inv)
                       (f2d (pitch v))) inv v1
             else general_stereo sign lerp σ d (wishVolumeL m v) (wishVolumeR m v)
                    (F64.mul (F64.mul (F64.of_int (PcmSound.frequency (target σ a))) inv)
                       (f2d (pitch v))) inv v1)
              (drop (S k) mix) in
          mixTo sign lerp σ m v mix f inv bt = (rest.1, take (S k) mix ++ rest.2) /\
          (stopMode v = false ->
           forall fr, mix !! S k = Some fr ->
             (mixTo sign lerp σ m v mix f inv bt).2 !! S k
             = Some (mixed_frame lerp d (channels v) (startPos v) (volumeL v) (volumeR v) fr)))).
Proof.
  split.
  - intros st a vol pit pn t0 t1 lp df idx Ha Hs Hv.
    destruct (play_success st a vol pit pn t0 t1 lp df idx Ha (proj1 Hs))
      as (v & v' & _ & _ & Hv' & _ & _ & _ & _ & _ & _ & _ & _ & _ & _ & _ & Hpos & Htts & Hw & _).
    destruct (play_positions_ordered st a vol pit pn t0 t1 lp df idx v' Ha Hs Hv')
      as (H1 & H4 & _).
    exists v'. split; [exact Hv'|]. rewrite Hw, Htts. split; [|split].
    + intros Hd. pose proof (flt_asym _ _ Hd) as Hd'. rewrite Hpos, Hd'. unfold fmax. rewrite Hd'.
      split; [now apply f2d_positive|]. split; reflexivity.
    + intros Hd. rewrite Hd in Hpos. unfold fmax. rewrite Hd.
      split; [reflexivity|]. split; [exact Hpos|]. split.
      * intros z Hz Hr. rewrite Hpos. now rewrite (f2i_in_range _ z Hz Hr).
      * intros Hout. rewrite Hpos, (f2i_out_of_range _ Hout).
        apply fmin_below; [reflexivity|]. now apply (fle_trans_zero (startPos v')).
    + intros Hd. assert (Hd' : flt df F32.zero = false).
      { unfold feq, SFeqb in Hd. unfold flt, SFltb. now destruct (SFcompare df F32.zero) as [[]|]. }
      rewrite Hpos, Hd'. unfold fmax. rewrite Hd'. split; [|reflexivity].
      destruct df as [s|[]| |[] m e]; now cbv in Hd.
  - intros σ m v a d mix f inv bt Hs Hd Hw.
    rewrite (mixTo_waiting sign lerp σ m v a d mix f inv bt Hs Hd Hw).
    split; [|split].
    + intros Hgt. now rewrite Hgt.
    + intros Hgt Hj. rewrite Hgt. cbv zeta.
      rewrite (wait_run_waiting inv (length mix) v Hw Hj). rewrite drop_all, take_ge by lia.
      cbn [channels set_timeToStart].
      destruct (channels v =? 1); cbn; now rewrite app_nil_r.
    + intros k Hgt Hk Hj Hend. rewrite Hgt. cbv zeta.
      rewrite (wait_run_started inv (length mix) v k Hw Hk Hj Hend).
      match goal with
      | |- context [let '(_, _) := ?g (drop (S k) mix) in _] =>
          destruct (g (drop (S k) mix)) as [v2 out] eqn:E
      end.
      cbn [fst snd]. split; [reflexivity|].
      intros Hsm fr Hfr.
      rewrite lookup_app_r by (rewrite length_take; lia).
      rewrite length_take. replace (S k - S k `min` length mix)%nat with 0%nat by lia.
      assert (Hdrop : drop (S k) mix = fr :: drop (S (S k)) mix).
      { now apply drop_S. }
      rewrite Hdrop in E. destruct fr as [l r].
      set (v1 := set_pos _ _) in E.
      change (channels v) with (channels v1) in E.
      rewrite (general_first_frame σ d _ _ _ inv v1 l r) in E by (subst v1; cbn; congruence).
      cbv zeta in E. injection E as _ <-. reflexivity.
Qed.

End DeferredStart.

Lemma below_all (P : nat -> bool) (n : nat) :
  forallb P (seq 0 n) = true -> forall j, (j < n)%nat -> P j = true.
Proof.
  intros H j Hj. rewrite forallb_forall in H. apply H. apply in_seq. lia.
Qed.

(** C7 at scenario S3: the play deferred by half a second is created
    waiting; it passes over 93 chunks of 256 frames whole, and in the chunk
    behind them the countdown ends on frame 191, so that frame
    93 * 256 + 192 = 24000 of the output is the first one the voice adds
    to.  A play deferred by -50000 seconds starts at the smallest [int]. *)
Lemma defer_semantics_S3 :
  (exists v', playing_sounds deferred_S3 !! 1%nat = Some v' /\
     waitingStart v' = true /\ timeToStart v' = f2d c_0_5 /\ pos v' = startPos v') /\
  (mixTo sign_ref lerp_ref (assets deferred_S3) (master_volume deferred_S3) waiting_voice_S3
     (replicate 256 silence) 48000 (F64.div F64.one (F64.of_int 48000))
     (F64.mul (F64.of_int 256) (F64.div F64.one (F64.of_int 48000)))).2
  = replicate 256 silence /\
  (mixTo sign_ref lerp_ref (assets deferred_S3) (master_volume deferred_S3) late_voice_S3
     (replicate 256 silence) 48000 (F64.div F64.one (F64.of_int 48000))
     (F64.mul (F64.of_int 256) (F64.div F64.one (F64.of_int 48000)))).2
  = replicate 192 silence ++ replicate 64 (c_0_5, c_0_5) /\
  (exists v',
     playing_sounds (play_sound_internal state_S1 7 F32.one F32.one F32.zero F32.zero
                       (F32.of_int 1000000) false (F32.of_int (-50000))).1 !! 1%nat = Some v' /\
     pos v' = F64.of_int INT_MIN).
Proof.
  split; [|split; [|split]].
  - destruct (proj1 (defer_semantics sign_ref lerp_ref) state_S1 7%nat F32.one F32.one F32.zero
                F32.zero (F32.of_int 1000000) false c_0_5 1%nat)
      as (v' & Hv & Hpos & _); [vm_compute; reflexivity| |vm_compute; reflexivity|].
    { vm_compute. split; [reflexivity|discriminate]. }
    exists v'. split; [exact Hv|]. apply Hpos. vm_compute. reflexivity.
  - destruct (proj2 (defer_semantics sign_ref lerp_ref) (assets deferred_S3)
                (master_volume deferred_S3) waiting_voice_S3 7%nat data_S1
                (replicate 256 silence) 48000 (F64.div F64.one (F64.of_int 48000))
                (F64.mul (F64.of_int 256) (F64.div F64.one (F64.of_int 48000))))
      as (H & _); [vm_compute; reflexivity..|].
    rewrite H; [reflexivity|vm_compute; reflexivity].
  - destruct (proj2 (defer_semantics sign_ref lerp_ref) (assets deferred_S3)
                (master_volume deferred_S3) late_voice_S3 7%nat data_S1
                (replicate 256 silence) 48000 (F64.div F64.one (F64.of_int 48000))
                (F64.mul (F64.of_int 256) (F64.div F64.one (F64.of_int 48000))))
      as (_ & _ & H); [vm_compute; reflexivity..|].
    destruct (H 191%nat) as [E _].
    + vm_compute. reflexivity.
    + rewrite length_replicate. lia.
    + intros j Hj.
      apply negb_true_iff.
      apply (below_all (λ j, negb (fle (countdown (F64.div F64.one (F64.of_int 48000))
                                          (timeToStart late_voice_S3) (S j)) F64.zero)) 191);
        [vm_compute; reflexivity|exact Hj].
    + vm_compute. reflexivity.
    + rewrite E. vm_compute. reflexivity.
  - destruct (proj1 (defer_semantics sign_ref lerp_ref) state_S1 7%nat F32.one F32.one F32.zero
                F32.zero (F32.of_int 1000000) false (F32.of_int (-50000)) 1%nat)
      as (v' & Hv & _ & Hneg & _); [vm_compute; reflexivity| |vm_compute; reflexivity|].
    { vm_compute. split; [reflexivity|discriminate]. }
    exists v'. split; [exact Hv|].
    destruct Hneg as (_ & _ & _ & Hout); [vm_compute; reflexivity|].
    apply Hout. intros z Hz. vm_compute in Hz. injection Hz as <-. right. reflexivity.
Defined.

(** ** Gains in the mixer *)

Lemma feq_sym x y : feq x y = feq y x.
Proof.
  unfold feq, SFeqb. rewrite (SFcompare_swap y x).
  now destruct (SFcompare y x) as [[]|].
Qed.

Lemma nudge_at_target g w : feq w g = true -> nudge g w = g.
Proof. intros H. unfold nudge, fne. fold (feq g w). now rewrite feq_sym, H. Qed.

Lemma iter_fixed {A} (f : A -> A) (x : A) (n : nat) : f x = x -> Nat.iter n f x = x.
Proof. intros H. induction n as [|n IH]; [reflexivity|]. now rewrite Nat.iter_succ, IH. Qed.

Section Gains.

Variable sign : f32 -> f32.
Variable lerp : f32 -> f32 -> f32 -> f32.

(** A playing voice after one mixed sample: either it has reached the end
    of its range and released its asset, or only its gains and its
    position have moved. *)
Lemma play_step_cases σ wL wR adv v a :
  sound v = Some a -> stopMode v = false ->
  sound (play_step sign σ wL wR adv v) = None \/
  exists p, play_step sign σ wL wR adv v
            = set_pos p (set_volumeR (nudge (volumeR v) wR) (set_volumeL (nudge (volumeL v) wL) v)).
Proof.
  intros Hs Hm. unfold play_step. cbv zeta.
  cbn [volumeR set_volumeL pos set_volumeR].
  set (w := set_volumeR _ _).
  assert (Hws : sound w = Some a) by (subst w; now destruct v).
  assert (Hwm : stopMode w = false) by (subst w; now destruct v).
  cbn [pos stopPos loop startPos set_pos].
  destruct (fge _ _); [|right; eauto].
  destruct (loop _).
  - right. rewrite set_pos_set_pos. eauto.
  - left. rewrite set_pos_set_pos.
    destruct (setStopMode_live sign σ (set_pos (stopPos w) w) a) as (_ & H & _);
      [now destruct w..|exact H].
Qed.

Lemma released_stays_released_mono σ d wL wR adv inv mix v :
  sound v = None -> sound (general_mono sign lerp σ d wL wR adv inv v mix).1 = None.
Proof.
  apply (general_mono_keeps sign lerp (λ v, sound v = None)); try (intros [] **; assumption).
  intros σ' w Hw _. rewrite setStopMode_early by auto. now destruct w.
Qed.

Lemma released_stays_released_stereo σ d wL wR adv inv mix v :
  sound v = None -> sound (general_stereo sign lerp σ d wL wR adv inv v mix).1 = None.
Proof.
  apply (general_stereo_keeps sign lerp (λ v, sound v = None)); try (intros [] **; assumption).
  intros σ' w Hw _. rewrite setStopMode_early by auto. now destruct w.
Qed.

Lemma general_mono_gains σ d ch wL wR adv inv a : forall mix v,
  (ch =? 1) = true ->
  sound v = Some a -> stopMode v = false -> waitingStart v = false ->
  sound (general_mono sign lerp σ d wL wR adv inv v mix).1 = Some a ->
  volumeL (general_mono sign lerp σ d wL wR adv inv v mix).1
  = Nat.iter (length mix) (λ g, nudge g wL) (volumeL v) /\
  volumeR (general_mono sign lerp σ d wL wR adv inv v mix).1
  = Nat.iter (length mix) (λ g, nudge g wR) (volumeR v) /\
  (volumeL v = wL -> volumeR v = wR ->
   exists ps, length ps = length mix /\ (forall p, ps !! 0%nat = Some p -> p = pos v) /\
     (general_mono sign lerp σ d wL wR adv inv v mix).2
     = zip_with (λ fr p, mixed_frame lerp d ch p wL wR fr) mix ps).
Proof.
  intros mix v Hch. revert v.
  induction mix as [|[l r] rest IH]; intros v Hs Hm Hw Hend.
  - cbn. split; [reflexivity|]. split; [reflexivity|]. intros _ _. exists []. now split.
  - cbn [general_mono] in *. rewrite Hw, Hm in *. cbn [negb] in *.
    destruct (play_step_cases σ wL wR adv v a Hs Hm) as [Hn|[p Hp]].
    { pose proof (released_stays_released_mono σ d wL wR adv inv rest _ Hn) as Hr.
      destruct (general_mono sign lerp σ d wL wR adv inv _ rest). cbn in *. congruence. }
    rewrite Hp in *. set (v' := set_pos p _) in *.
    specialize (IH v' ltac:(subst v'; now destruct v) ltac:(subst v'; now destruct v)
                  ltac:(subst v'; now destruct v)).
    destruct (general_mono sign lerp σ d wL wR adv inv v' rest) as [v2 out]. cbn [fst snd] in *.
    destruct (IH Hend) as (HL & HR & Hfr).
    cbn [length]. rewrite !Nat.iter_succ_r. split; [exact HL|]. split; [exact HR|].
    intros EL ER.
    destruct Hfr as (ps & Hlen & Hhd & Hout).
    { subst v'. cbn. rewrite EL. apply nudge_on_target. }
    { subst v'. cbn. rewrite ER. apply nudge_on_target. }
    exists (pos v :: ps). split; [cbn; now rewrite Hlen|]. split; [now intros p' [= <-]|].
    cbn [zip_with]. f_equal; [|exact Hout].
    unfold mixed_frame. rewrite Hch. cbn. now rewrite EL, ER.
Qed.

Lemma general_stereo_gains σ d ch wL wR adv inv a : forall mix v,
  (ch =? 1) = false ->
  sound v = Some a -> stopMode v = false -> waitingStart v = false ->
  sound (general_stereo sign lerp σ d wL wR adv inv v mix).1 = Some a ->
  volumeL (general_stereo sign lerp σ d wL wR adv inv v mix).1
  = Nat.iter (length mix) (λ g, nudge g wL) (volumeL v) /\
  volumeR (general_stereo sign lerp σ d wL wR adv inv v mix).1
  = Nat.iter (length mix) (λ g, nudge g wR) (volumeR v) /\
  (volumeL v = wL -> volumeR v = wR ->
   exists ps, length ps = length mix /\ (forall p, ps !! 0%nat = Some p -> p = pos v) /\
     (general_stereo sign lerp σ d wL wR adv inv v mix).2
     = zip_with (λ fr p, mixed_frame lerp d ch p wL wR fr) mix ps).
Proof.
  intros mix v Hch. revert v.
  induction mix as [|[l r] rest IH]; intros v Hs Hm Hw Hend.
  - cbn. split; [reflexivity|]. split; [reflexivity|]. intros _ _. exists []. now split.
  - cbn [general_stereo] in *. rewrite Hw, Hm in *. cbn [negb] in *.
    destruct (sample_stereo lerp d (pos v)) as [sl sr] eqn:Esamp.
    destruct (play_step_cases σ wL wR adv v a Hs Hm) as [Hn|[p Hp]].
    { pose proof (released_stays_released_stereo σ d wL wR adv inv rest _ Hn) as Hr.
      destruct (general_stereo sign lerp σ d wL wR adv inv _ rest). cbn in *. congruence. }
    rewrite Hp in *. set (v' := set_pos p _) in *.
    specialize (IH v' ltac:(subst v'; now destruct v) ltac:(subst v'; now destruct v)
                  ltac:(subst v'; now destruct v)).
    destruct (general_stereo sign lerp σ d wL wR adv inv v' rest) as [v2 out]. cbn [fst snd] in *.
    destruct (IH Hend) as (HL & HR & Hfr).
    cbn [length]. rewrite !Nat.iter_succ_r. split; [exact HL|]. split; [exact HR|].
    intros EL ER.
    destruct Hfr as (ps & Hlen & Hhd & Hout).
    { subst v'. cbn. rewrite EL. apply nudge_on_target. }
    { subst v'. cbn. rewrite ER. apply nudge_on_target. }
    exists (pos v :: ps). split; [cbn; now rewrite Hlen|]. split; [now intros p' [= <-]|].
    cbn [zip_with]. f_equal; [|exact Hout].
    unfold mixed_frame. rewrite Hch, Esamp. cbn. now rewrite EL, ER.
Qed.

Lemma fast_mono_frames d ch gL gR adv : forall mix p,
  (ch =? 1) = true ->
  exists ps, length ps = length mix /\ (forall q, ps !! 0%nat = Some q -> q = p) /\
    (fast_mono lerp d gL gR adv p mix).2
    = zip_with (λ fr q, mixed_frame lerp d ch q gL gR fr) mix ps.
Proof.
  intros mix p Hch. revert p.
  induction mix as [|[l r] rest IH]; intros p.
  - exists []. now split.
  - destruct (IH (F64.add p adv)) as (ps & Hlen & _ & Hout).
    exists (p :: ps). split; [cbn; now rewrite Hlen|]. split; [now intros q [= <-]|].
    cbn [fast_mono zip_with]. unfold mixed_frame at 1. rewrite Hch.
    destruct (fast_mono lerp d gL gR adv (F64.add p adv) rest) as [p' rest']. cbn [snd] in *.
    f_equal. exact Hout.
Qed.

Lemma fast_stereo_frames d ch gL gR adv : forall mix p,
  (ch =? 1) = false ->
  exists ps, length ps = length mix /\ (forall q, ps !! 0%nat = Some q -> q = p) /\
    (fast_stereo lerp d gL gR adv p mix).2
    = zip_with (λ fr q, mixed_frame lerp d ch q gL gR fr) mix ps.
Proof.
  intros mix p Hch. revert p.
  induction mix as [|[l r] rest IH]; intros p.
  - exists []. now split.
  - destruct (IH (F64.add p adv)) as (ps & Hlen & _ & Hout).
    exists (p :: ps). split; [cbn; now rewrite Hlen|]. split; [now intros q [= <-]|].
    cbn [fast_stereo zip_with]. unfold mixed_frame at 1. rewrite Hch.
    destruct (sample_stereo lerp d p) as [sl sr].
    destruct (fast_stereo lerp d gL gR adv (F64.add p adv) rest) as [p' rest']. cbn [snd] in *.
    f_equal. exact Hout.
Qed.

(** The gains of a playing voice over one call of [mixTo]. *)
Lemma mixTo_gains σ m v a d mix f inv bt :
  sound v = Some a -> getData σ a = Some d ->
  waitingStart v = false -> stopMode v = false ->
  sound (mixTo sign lerp σ m v mix f inv bt).1 = Some a ->
  volumeL (mixTo sign lerp σ m v mix f inv bt).1
  = Nat.iter (length mix)
      (λ g, nudge g (F32.mul (F32.mul m (volume v)) (fmin (F32.add F32.one (pan v)) F32.one)))
      (volumeL v) /\
  volumeR (mixTo sign lerp σ m v mix f inv bt).1
  = Nat.iter (length mix)
      (λ g, nudge g (F32.mul (F32.mul m (volume v)) (fmin (F32.sub F32.one (pan v)) F32.one)))
      (volumeR v) /\
  (volumeL v = F32.mul (F32.mul m (volume v)) (fmin (F32.add F32.one (pan v)) F32.one) ->
   volumeR v = F32.mul (F32.mul m (volume v)) (fmin (F32.sub F32.one (pan v)) F32.one) ->
   exists ps, length ps = length mix /\ (forall p, ps !! 0%nat = Some p -> p = pos v) /\
     (mixTo sign lerp σ m v mix f inv bt).2
     = zip_with (λ fr p, mixed_frame lerp d (channels v) p (volumeL v) (volumeR v) fr) mix ps).
Proof.
  intros Hs Hd Hw Hm. unfold mixTo. cbv zeta. rewrite Hs, Hd, Hw. cbn [andb].
  fold (wishVolumeL m v) (wishVolumeR m v).
  set (adv := F64.mul _ _).
  destruct (fast_path _ _ _ _ v) eqn:Hfast.
  - intros _.
    assert (HeL : feq (wishVolumeL m v) (volumeL v) = true).
    { unfold fast_path in Hfast. repeat (apply andb_true_iff in Hfast as [Hfast ?]). assumption. }
    assert (HeR : feq (wishVolumeR m v) (volumeR v) = true).
    { unfold fast_path in Hfast. repeat (apply andb_true_iff in Hfast as [Hfast ?]). assumption. }
    destruct (channels v =? 1) eqn:Hch.
    + destruct (fast_mono_frames d (channels v) (volumeL v) (volumeR v) adv mix (pos v) Hch)
        as (ps & H1 & H2 & H3).
      destruct (fast_mono lerp d (volumeL v) (volumeR v) adv (pos v) mix) as [p out].
      cbn [fst snd volumeL volumeR set_pos] in *.
      rewrite !iter_fixed by now apply nudge_at_target.
      split; [reflexivity|]. split; [reflexivity|]. intros _ _. eauto.
    + destruct (fast_stereo_frames d (channels v) (volumeL v) (volumeR v) adv mix (pos v) Hch)
        as (ps & H1 & H2 & H3).
      destruct (fast_stereo lerp d (volumeL v) (volumeR v) adv (pos v) mix) as [p out].
      cbn [fst snd volumeL volumeR set_pos] in *.
      rewrite !iter_fixed by now apply nudge_at_target.
      split; [reflexivity|]. split; [reflexivity|]. intros _ _. eauto.
  - destruct (channels v =? 1) eqn:Hch.
    + intros Hend.
      destruct (general_mono_gains σ d (channels v) (wishVolumeL m v) (wishVolumeR m v) adv inv
                  a mix v Hch Hs Hm Hw Hend) as (HL & HR & Hfr).
      split; [exact HL|]. split; [exact HR|]. intros EL ER.
      destruct (Hfr EL ER) as (ps & ? & ? & Hout). exists ps.
      split; [assumption|]. split; [assumption|]. rewrite Hout.
      now rewrite <- EL, <- ER.
    + intros Hend.
      destruct (general_stereo_gains σ d (channels v) (wishVolumeL m v) (wishVolumeR m v) adv inv
                  a mix v Hch Hs Hm Hw Hend) as (HL & HR & Hfr).
      split; [exact HL|]. split; [exact HR|]. intros EL ER.
      destruct (Hfr EL ER) as (ps & ? & ? & Hout). exists ps.
      split; [assumption|]. split; [assumption|]. rewrite Hout.
      now rewrite <- EL, <- ER.
Qed.

(** C6.  Over a call of [mixTo] that does not end the voice, every mixed
    frame moves the gains [volumeL] and [volumeR] of a playing voice one
    smoothing step towards [master * volume * min(1 + pan, 1)] and
    [master * volume * min(1 - pan, 1)], and a gain that is at its target
    stays there.  A successful play stores exactly these two values in
    [volumeL] and [volumeR]; when the voice does not wait, the first call
    of [mixTo] leaves them as they are and adds to every frame a sample of
    the asset at exactly these gains, to the first frame the sample at
    [pos]. *)
Theorem play_seeds_target_gains :
  (forall σ m v a d mix f inv bt,
      sound v = Some a -> getData σ a = Some d ->
      waitingStart v = false -> stopMode v = false ->
      sound (mixTo sign lerp σ m v mix f inv bt).1 = Some a ->
      volumeL (mixTo sign lerp σ m v mix f inv bt).1
      = Nat.iter (length mix)
          (λ g, nudge g (F32.mul (F32.mul m (volume v))
                           (fmin (F32.add F32.one (pan v)) F32.one)))
          (volumeL v) /\
      volumeR (mixTo sign lerp σ m v mix f inv bt).1
      = Nat.iter (length mix)
          (λ g, nudge g (F32.mul (F32.mul m (volume v))
                           (fmin (F32.sub F32.one (pan v)) F32.one)))
          (volumeR v)) /\
  (forall g, nudge g g = g) /\
  (forall st a vol pit pn t0 t1 lp df idx,
      (allocate_playing_sound (playing_sounds st)).1 = Some idx ->
      2 < PcmSound.samples (target (assets st) a) ->
      let st' := (play_sound_internal st a vol pit pn t0 t1 lp df).1 in
      exists v',
        playing_sounds st' !! idx = Some v' /\
        volumeL v' = F32.mul (F32.mul (master_volume st') (volume v'))
                       (fmin (F32.add F32.one (pan v')) F32.one) /\
        volumeR v' = F32.mul (F32.mul (master_volume st') (volume v'))
                       (fmin (F32.sub F32.one (pan v')) F32.one) /\
        (forall d mix f inv bt,
            getData (assets st') a = Some d -> waitingStart v' = false ->
            sound (mixTo sign lerp (assets st') (master_volume st') v' mix f inv bt).1 = Some a ->
            volumeL (mixTo sign lerp (assets st') (master_volume st') v' mix f inv bt).1
            = volumeL v' /\
            volumeR (mixTo sign lerp (assets st') (master_volume st') v' mix f inv bt).1
            = volumeR v' /\
            exists ps, length ps = length mix /\
              (forall p, ps !! 0%nat = Some p -> p = pos v') /\
              (mixTo sign lerp (assets st') (master_volume st') v' mix f inv bt).2
              = zip_with (λ fr p, mixed_frame lerp d (channels v') p (volumeL v') (volumeR v') fr)
                  mix ps)).
Proof.
  split; [|split].
  - intros σ m v a d mix f inv bt Hs Hd Hw Hm Hend.
    destruct (mixTo_gains σ m v a d mix f inv bt Hs Hd Hw Hm Hend) as (HL & HR & _).
    now split.
  - apply nudge_on_target.
  - intros st a vol pit pn t0 t1 lp df idx Ha Hsz st'.
    destruct (play_success st a vol pit pn t0 t1 lp df idx Ha Hsz)
      as (v & v' & _ & _ & Hv' & _ & Hmv & _ & Hs & _ & _ & _ & HL & HR & H).
    assert (Hsm : stopMode v' = false) by (decompose [and] H; assumption).
    fold st' in Hv', Hmv. rewrite <- Hmv in HL, HR.
    exists v'. split; [exact Hv'|]. split; [exact HL|]. split; [exact HR|].
    intros d mix f inv bt Hd Hw Hend.
    destruct (mixTo_gains (assets st') (master_volume st') v' a d mix f inv bt Hs Hd Hw Hsm Hend)
      as (EL & ER & Hfr).
    rewrite EL, ER. rewrite <- HL, <- HR.
    rewrite !iter_fixed by apply nudge_on_target.
    split; [reflexivity|]. split; [reflexivity|]. now apply Hfr.
Qed.

End Gains.

(** C6 at scenario S1.  The voice of the play has both gains at 1, and the
    first chunk of 256 frames leaves them there and starts with the frame
    [(0.5, 0.5)]; with [volume] then set to 0.5, a chunk of 256 frames
    brings both gains to the new target 0.5. *)
Lemma play_seeds_target_gains_S1 :
  playing_sounds playing_S1 !! 1%nat = Some voice_S1 /\
  volumeL voice_S1 = F32.one /\ volumeR voice_S1 = F32.one /\
  (let r := mixTo sign_ref lerp_ref (assets playing_S1) (master_volume playing_S1) voice_S1
              (replicate 256 silence) 48000 (F64.div F64.one (F64.of_int 48000))
              (F64.mul (F64.of_int 256) (F64.div F64.one (F64.of_int 48000))) in
   volumeL r.1 = F32.one /\ volumeR r.1 = F32.one /\ r.2 !! 0%nat = Some (c_0_5, c_0_5)) /\
  (let r := mixTo sign_ref lerp_ref (assets playing_S1) (master_volume playing_S1)
              (set_volume c_0_5 voice_S1)
              (replicate 256 silence) 48000 (F64.div F64.one (F64.of_int 48000))
              (F64.mul (F64.of_int 256) (F64.div F64.one (F64.of_int 48000))) in
   volumeL r.1 = c_0_5 /\ volumeR r.1 = c_0_5).
Proof.
  destruct (proj2 (proj2 (play_seeds_target_gains sign_ref lerp_ref)) state_S1 7%nat F32.one
              F32.one F32.zero F32.zero (F32.of_int 1000000) false F32.zero 1%nat)
    as (v' & Hv & HL & HR & Hfirst); [vm_compute; reflexivity..|].
  assert (Ev : v' = voice_S1).
  { assert (E : Some v' = Some voice_S1) by (rewrite <- Hv; vm_compute; reflexivity).
    now injection E. }
  subst v'.
  change (play_sound_internal state_S1 7 F32.one F32.one F32.zero F32.zero
            (F32.of_int 1000000) false F32.zero).1 with playing_S1 in Hv, HL, HR, Hfirst.
  split; [exact Hv|].
  split; [rewrite HL; vm_compute; reflexivity|].
  split; [rewrite HR; vm_compute; reflexivity|].
  split.
  - cbv zeta.
    destruct (Hfirst data_S1 (replicate 256 silence) 48000 (F64.div F64.one (F64.of_int 48000))
                (F64.mul (F64.of_int 256) (F64.div F64.one (F64.of_int 48000))))
      as (EL & ER & ps & Hlen & Hhd & Hout); [vm_compute; reflexivity..|].
    rewrite EL, ER, Hout.
    split; [rewrite HL; vm_compute; reflexivity|].
    split; [rewrite HR; vm_compute; reflexivity|].
    destruct ps as [|p ps]; [discriminate Hlen|].
    rewrite (Hhd p eq_refl). vm_compute. reflexivity.
  - cbv zeta.
    destruct (proj1 (play_seeds_target_gains sign_ref lerp_ref) (assets playing_S1)
                (master_volume playing_S1) (set_volume c_0_5 voice_S1) 7%nat data_S1
                (replicate 256 silence) 48000 (F64.div F64.one (F64.of_int 48000))
                (F64.mul (F64.of_int 256) (F64.div F64.one (F64.of_int 48000))))
      as (EL & ER); [vm_compute; reflexivity..|].
    rewrite EL, ER. split; vm_compute; reflexivity.
Defined.

(** ** One voice from [play] to silence *)



Section ToSilence.

Variable sign : f32 -> f32.
Variable lerp : f32 -> f32 -> f32 -> f32.


End ToSilence.


Section IdentityThenSilence.

Variable sign : f32 -> f32.
Variable lerp : f32 -> f32 -> f32 -> f32.


End IdentityThenSilence.

